(** * DFA minimizer: a shallow embedding of [dfa_logic.py]

    The development follows the Python module function by function.

    - A Python [set] of strings is a [gset string]; a [dict] is a [gmap].
    - Python does not fix the order in which a [set] is enumerated.  Every
      loop [for x in some_set] of the source is modelled as a loop over
      [iter some_set], where [iter] is a parameter of the development: any
      function listing the elements of a set, each exactly once.
    - Exceptions are values of [outcome]; [while] loops take a fuel argument
      and answer [NoFuel] when it is exhausted before the loop exits.
    - Strings are compared byte by byte ([String.leb]); on UTF-8 encoded text
      this is the code point order used by Python's [sorted]. *)

From stdpp Require Import gmap strings list fin_maps sorting pretty.

Open Scope string_scope.
Open Scope list_scope.

(** ** Exceptions and results *)

Inductive exn := KeyError | IndexError | StopIteration.

Inductive outcome (A : Type) :=
| Ok (a : A)
| Raise (e : exn)
| NoFuel.
Arguments Ok {A} a.
Arguments Raise {A} e.
Arguments NoFuel {A}.

Global Instance outcome_bind : MBind outcome := λ A B f x,
  match x with
  | Ok a => f a
  | Raise e => Raise e
  | NoFuel => NoFuel
  end.

(** [d[k]] on a dict and [l[i]] on a list (with [0 ≤ i]). *)
Definition getitem {K} `{Countable K} {V} (d : gmap K V) (k : K) : outcome V :=
  match d !! k with
  | Some v => Ok v
  | None => Raise KeyError
  end.

Definition getidx {A} (l : list A) (i : nat) : outcome A :=
  match l !! i with
  | Some v => Ok v
  | None => Raise IndexError
  end.

(** A dict comprehension [{k: v for (k, v) in l}]: later bindings win. *)
Definition dict_of {K} `{Countable K} {V} (l : list (K * V)) : gmap K V :=
  foldl (λ d kv, <[kv.1 := kv.2]> d) ∅ l.

(** ** The automaton *)

Record DFA := mkDFA {
  states : gset string;
  alphabet : gset string;
  transitions : gmap string (gmap string string);
  start_state : string;
  final_states : gset string
}.

(** [sorted(list(X))] *)
Definition str_le (x y : string) : Prop := String.leb x y = true.
Global Instance str_le_dec x y : Decision (str_le x y).
Proof. unfold str_le. apply _. Defined.
Definition sorted (l : list string) : list string := merge_sort str_le l.

Section Iteration.

(** The enumeration order of sets. *)
Variable iter : gset string → list string.
Hypothesis iter_perm : ∀ X, iter X ≡ₚ elements X.

(** *** [DFA.is_valid] *)

Fixpoint check_symbols (a : DFA) (state : string) (row : gmap string string)
    (syms : list string) : option string :=
  match syms with
  | [] => None
  | symbol :: syms' =>
    match row !! symbol with
    | None =>
      Some ("Missing transition for state '" +:+ state +:+ "' on symbol '"
            +:+ symbol +:+ "'.")
    | Some next_state =>
      if bool_decide (next_state ∈ states a) then check_symbols a state row syms'
      else Some ("Transition from '" +:+ state +:+ "' on '" +:+ symbol
                 +:+ "' leads to an invalid state '" +:+ next_state +:+ "'.")
    end
  end.

Fixpoint check_states (a : DFA) (sts : list string) : option string :=
  match sts with
  | [] => None
  | state :: sts' =>
    match transitions a !! state with
    | None => Some ("Missing transitions for state '" +:+ state +:+ "'.")
    | Some row =>
      match check_symbols a state row (iter (alphabet a)) with
      | Some reason => Some reason
      | None => check_states a sts'
      end
    end
  end.

Definition is_valid (a : DFA) : bool * string :=
  if bool_decide (states a = ∅) then
    (false, "States set cannot be empty.")
  else if bool_decide (start_state a ∉ states a) then
    (false, "Start state '" +:+ start_state a
            +:+ "' is not in the set of states.")
  else if bool_decide (¬ final_states a ⊆ states a) then
    (false, "All final states must be in the set of states.")
  else
    match check_states a (iter (states a)) with
    | Some reason => (false, reason)
    | None => (true, "DFA is valid.")
    end.

(** *** [DFA.remove_unreachable_states] *)

(** The body of [for symbol in self.alphabet] for one symbol; a [str] is
    truthy when it is not empty. *)
Definition visit (row : gmap string string)
    (acc : gset string * list string) (symbol : string)
    : gset string * list string :=
  match row !! symbol with
  | Some next_state =>
    if bool_decide (next_state ≠ "") && bool_decide (next_state ∉ acc.1)
    then ({[next_state]} ∪ acc.1, acc.2 ++ [next_state])
    else acc
  | None => acc
  end.

(** [while queue: ...] *)
Fixpoint bfs (a : DFA) (fuel : nat) (reachable_states : gset string)
    (queue : list string) : outcome (gset string) :=
  match queue with
  | [] => Ok reachable_states
  | current_state :: queue' =>
    match fuel with
    | 0 => NoFuel
    | S fuel' =>
      match transitions a !! current_state with
      | Some row =>
        let acc := foldl (visit row) (reachable_states, queue')
                         (iter (alphabet a)) in
        bfs a fuel' acc.1 acc.2
      | None => bfs a fuel' reachable_states queue'
      end
    end
  end.

(** [{s: self.transitions[s] for s in reachable_states}] *)
Fixpoint restrict_transitions (tr : gmap string (gmap string string))
    (l : list string) (acc : gmap string (gmap string string))
    : outcome (gmap string (gmap string string)) :=
  match l with
  | [] => Ok acc
  | s :: l' =>
    row ← getitem tr s ;
    restrict_transitions tr l' (<[s := row]> acc)
  end.

Definition remove_unreachable_states (fuel : nat) (a : DFA) : outcome DFA :=
  reachable_states ← bfs a fuel {[start_state a]} [start_state a] ;
  let new_states := states a ∩ reachable_states in
  let new_final_states := final_states a ∩ reachable_states in
  new_transitions ←
    restrict_transitions (transitions a) (iter reachable_states) ∅ ;
  Ok (mkDFA new_states (alphabet a) new_transitions (start_state a)
            new_final_states).

(** *** [DFA.to_dict] and [DFA.from_dict]

    The dictionary has five fixed keys; it is a record with one field for
    each of them. *)
Record DictForm := mkDictForm {
  d_states : list string;
  d_alphabet : list string;
  d_transitions : gmap string (gmap string string);
  d_start_state : string;
  d_final_states : list string
}.

Definition to_dict (a : DFA) : DictForm :=
  mkDictForm (sorted (iter (states a))) (sorted (iter (alphabet a)))
             (transitions a) (start_state a)
             (sorted (iter (final_states a))).

Definition from_dict (data : DictForm) : DFA :=
  mkDFA (list_to_set (d_states data)) (list_to_set (d_alphabet data))
        (d_transitions data) (d_start_state data)
        (list_to_set (d_final_states data)).

(** ** The minimizer *)

(** [for x in l: body], with the loop state passed along. *)
Fixpoint for_each {A S} (l : list A) (body : S → A → outcome S) (s : S)
    : outcome S :=
  match l with
  | [] => Ok s
  | x :: l' => s' ← body s x; for_each l' body s'
  end.

(** [range(lo, hi)] *)
Definition range (lo hi : nat) : list nat := seq lo (hi - lo).

(** The distinguishability table [dist_table]: a list of rows. *)
Definition table_get (T : list (list bool)) (i j : nat) : outcome bool :=
  row ← getidx T i; getidx row j.

(** [dist_table[i][j] = True] *)
Definition table_mark (T : list (list bool)) (i j : nat)
    : outcome (list (list bool)) :=
  row ← getidx T i;
  if decide (j < length row) then Ok (<[i := <[j := true]> row]> T)
  else Raise IndexError.

Section Minimize.

(** The pruned automaton, [states = sorted(list(dfa.states))] and
    [state_map]. *)
Variable dfa : DFA.
Variable sts : list string.
Variable state_map : gmap string nat.

(** Step 3: the base case. *)
Definition base_inner (i : nat) (T : list (list bool)) (j : nat)
    : outcome (list (list bool)) :=
  s1 ← getidx sts i;
  s2 ← getidx sts j;
  if bool_decide (bool_decide (s1 ∈ final_states dfa)
                  ≠ bool_decide (s2 ∈ final_states dfa))
  then table_mark T i j
  else Ok T.

Definition base_case (n : nat) (T : list (list bool))
    : outcome (list (list bool)) :=
  for_each (range 0 n)
    (λ T i, for_each (range (i + 1) n) (base_inner i) T) T.

(** Step 4: [for symbol in dfa.alphabet] for the pair [(i, j)]; the answer
    is [true] when the loop is left by [break]. *)
Fixpoint scan_symbols (T : list (list bool)) (i j : nat)
    (syms : list string) : outcome bool :=
  match syms with
  | [] => Ok false
  | symbol :: syms' =>
    si ← getidx sts i;
    row1 ← getitem (transitions dfa) si;
    next1 ← getitem row1 symbol;
    sj ← getidx sts j;
    row2 ← getitem (transitions dfa) sj;
    next2 ← getitem row2 symbol;
    idx1 ← getitem state_map next1;
    idx2 ← getitem state_map next2;
    let row := idx1 `min` idx2 in
    let col := idx1 `max` idx2 in
    if bool_decide (row ≠ col) then
      marked ← table_get T row col;
      if marked : bool then Ok true else scan_symbols T i j syms'
    else scan_symbols T i j syms'
  end.

(** The body of the two [for] loops of a pass, on the loop state
    [(dist_table, changed)]. *)
Definition closure_inner (i : nat) (st : list (list bool) * bool) (j : nat)
    : outcome (list (list bool) * bool) :=
  marked ← table_get st.1 i j;
  if marked : bool then Ok st
  else
    hit ← scan_symbols st.1 i j (iter (alphabet dfa));
    if hit : bool then T' ← table_mark st.1 i j; Ok (T', true)
    else Ok st.

Definition closure_pass (n : nat) (T : list (list bool))
    : outcome (list (list bool) * bool) :=
  for_each (range 0 n)
    (λ st i, for_each (range (i + 1) n) (closure_inner i) st) (T, false).

(** [while changed: ...] *)
Fixpoint closure (fuel : nat) (n : nat) (T : list (list bool))
    : outcome (list (list bool)) :=
  match fuel with
  | 0 => NoFuel
  | S fuel' =>
    st ← closure_pass n T;
    if st.2 : bool then closure fuel' n st.1 else Ok st.1
  end.

(** Step 5: grouping; the loop state of the inner loop is
    [(current_partition, visited)], that of the outer one
    [(partitions, visited)]. *)
Definition group_inner (T : list (list bool)) (i : nat)
    (st : gset string * gset string) (j : nat)
    : outcome (gset string * gset string) :=
  marked ← table_get T i j;
  if marked : bool then Ok st
  else sj ← getidx sts j; Ok ({[sj]} ∪ st.1, {[sj]} ∪ st.2).

Definition group_outer (T : list (list bool)) (n : nat)
    (st : list (gset string) * gset string) (i : nat)
    : outcome (list (gset string) * gset string) :=
  si ← getidx sts i;
  if bool_decide (si ∈ st.2) then Ok st
  else
    cur ← for_each (range (i + 1) n) (group_inner T i)
                   ({[si]}, {[si]} ∪ st.2);
    Ok (st.1 ++ [cur.1], cur.2).

Definition group (T : list (list bool)) (n : nat)
    : outcome (list (gset string)) :=
  st ← for_each (range 0 n) (group_outer T n) ([], ∅);
  Ok st.1.

(** Step 6: the new automaton. *)
Definition make_partition_map (partitions : list (gset string))
    : gmap string (gset string) :=
  dict_of (p ← partitions; (λ state, (state, p)) <$> iter p).

Definition make_state_names (partitions : list (gset string))
    : gmap (gset string) string :=
  dict_of (imap (λ i p, (p, "q" +:+ pretty i)) partitions).

Definition make_final_states (new_state_names : gmap (gset string) string)
    (partitions : list (gset string)) : outcome (gset string) :=
  for_each partitions
    (λ acc p,
       if bool_decide (p ## final_states dfa) then Ok acc
       else name ← getitem new_state_names p; Ok ({[name]} ∪ acc))
    ∅.

(** The body of [for symbol in dfa.alphabet]; [new_transitions] is a
    [defaultdict(dict)], so a missing row is created empty. *)
Definition add_transition (partition_map : gmap string (gset string))
    (new_state_names : gmap (gset string) string)
    (rep_state new_name : string)
    (new_transitions : gmap string (gmap string string)) (symbol : string)
    : outcome (gmap string (gmap string string)) :=
  row ← getitem (transitions dfa) rep_state;
  next_state_old ← getitem row symbol;
  next_partition ← getitem partition_map next_state_old;
  target ← getitem new_state_names next_partition;
  Ok (<[new_name :=
         <[symbol := target]> (default ∅ (new_transitions !! new_name))]>
        new_transitions).

Definition make_transitions (partition_map : gmap string (gset string))
    (new_state_names : gmap (gset string) string)
    (partitions : list (gset string))
    : outcome (gmap string (gmap string string)) :=
  for_each partitions
    (λ new_transitions p,
       rep_state ← from_option Ok (Raise StopIteration) (head (iter p));
       new_name ← getitem new_state_names p;
       for_each (iter (alphabet dfa))
         (add_transition partition_map new_state_names rep_state new_name)
         new_transitions)
    ∅.

Definition rebuild (partitions : list (gset string)) : outcome DFA :=
  let partition_map := make_partition_map partitions in
  let new_state_names := make_state_names partitions in
  let new_states : gset string := map_img new_state_names in
  start_partition ← getitem partition_map (start_state dfa);
  new_start_state ← getitem new_state_names start_partition;
  new_final_states ← make_final_states new_state_names partitions;
  new_transitions ←
    make_transitions partition_map new_state_names partitions;
  Ok (mkDFA new_states (alphabet dfa) new_transitions new_start_state
            new_final_states).

End Minimize.

(** [DFAMinimizer.minimize]; the same fuel bounds each of the two [while]
    loops.  [minimize_table] is the function up to the end of step 4: it
    yields the pruned automaton, the sorted states and the final table. *)
Definition minimize_table (fuel : nat) (a : DFA)
    : outcome (DFA * list string * list (list bool)) :=
  dfa ← remove_unreachable_states fuel a;
  let sts := sorted (iter (states dfa)) in
  let state_map := dict_of (imap (λ i state, (state, i)) sts) in
  let num_states := length sts in
  T ← base_case dfa sts num_states
         (replicate num_states (replicate num_states false));
  T ← closure dfa sts state_map fuel num_states T;
  Ok (dfa, sts, T).

Definition minimize (fuel : nat) (a : DFA) : outcome DFA :=
  '(dfa, sts, T) ← minimize_table fuel a;
  partitions ← group sts T (length sts);
  rebuild dfa partitions.

(** ** Words and acceptance *)

Definition lookup2 (tr : gmap string (gmap string string))
    (s symbol : string) : option string :=
  row ← tr !! s; row !! symbol.

Definition delta (a : DFA) (s symbol : string) : option string :=
  lookup2 (transitions a) s symbol.

Fixpoint run (a : DFA) (s : string) (w : list string) : option string :=
  match w with
  | [] => Some s
  | symbol :: w' => t ← delta a s symbol; run a t w'
  end.

Definition accepts_from (a : DFA) (s : string) (w : list string) : bool :=
  match run a s w with
  | Some t => bool_decide (t ∈ final_states a)
  | None => false
  end.

Definition accepts (a : DFA) (w : list string) : bool :=
  accepts_from a (start_state a) w.

Definition over (a : DFA) (w : list string) : Prop :=
  Forall (λ symbol, symbol ∈ alphabet a) w.

(** [s] is reached from the start state by some string over the alphabet. *)
Definition reachable (a : DFA) (s : string) : Prop :=
  ∃ w, over a w ∧ run a (start_state a) w = Some s.

(** The states the traversal collects: those reached from the start state
    along transitions whose target is not the empty string. *)
Inductive collected (a : DFA) : string → Prop :=
| collected_start : collected a (start_state a)
| collected_step s symbol t :
    collected a s → symbol ∈ alphabet a → delta a s symbol = Some t →
    t ≠ "" → collected a t.

(** Two states are equivalent when no string over the alphabet tells them
    apart. *)
Definition nerode (a : DFA) (s t : string) : Prop :=
  ∀ w, over a w → accepts_from a s w = accepts_from a t w.

Definition distinguishable (a : DFA) (s t : string) : Prop :=
  ∃ w, over a w ∧ accepts_from a s w ≠ accepts_from a t w.

(** The conditions checked by [is_valid]. *)
Definition well_formed (a : DFA) : Prop :=
  states a ≠ ∅ ∧ start_state a ∈ states a ∧ final_states a ⊆ states a ∧
  ∀ s, s ∈ states a →
    ∃ row, transitions a !! s = Some row ∧
      ∀ symbol, symbol ∈ alphabet a →
        ∃ t, row !! symbol = Some t ∧ t ∈ states a.

(** No state other than the start state is named by the empty string. *)
Definition no_empty_name (a : DFA) : Prop :=
  "" ∈ states a → start_state a = "".

Global Instance no_empty_name_dec a : Decision (no_empty_name a).
Proof. unfold no_empty_name. apply _. Defined.

(** No state reached from the start state, other than the start state
    itself, is named by the empty string. *)
Definition no_empty_reach (a : DFA) : Prop :=
  reachable a "" → start_state a = "".

(** The checks made by [is_valid] on one state and on one symbol. *)
Definition symbol_ok (a : DFA) (row : gmap string string) (symbol : string)
    : Prop :=
  ∃ t, row !! symbol = Some t ∧ t ∈ states a.

Definition state_ok (a : DFA) (s : string) : Prop :=
  ∃ row, transitions a !! s = Some row ∧
         ∀ symbol, symbol ∈ alphabet a → symbol_ok a row symbol.

(** [reason] is the reason of the first check of [is_valid] that fails on
    [a], states and symbols being visited in the enumeration order. *)
Definition first_violation (a : DFA) (reason : string) : Prop :=
  (states a = ∅ ∧ reason = "States set cannot be empty.") ∨
  (states a ≠ ∅ ∧ start_state a ∉ states a ∧
   reason = "Start state '" +:+ start_state a
            +:+ "' is not in the set of states.") ∨
  (states a ≠ ∅ ∧ start_state a ∈ states a ∧
   ¬ final_states a ⊆ states a ∧
   reason = "All final states must be in the set of states.") ∨
  (states a ≠ ∅ ∧ start_state a ∈ states a ∧
   final_states a ⊆ states a ∧
   ∃ pre state post,
     iter (states a) = pre ++ state :: post ∧
     (∀ s, s ∈ pre → state_ok a s) ∧
     ((transitions a !! state = None ∧
       reason = "Missing transitions for state '" +:+ state +:+ "'.") ∨
      (∃ row spre symbol spost,
         transitions a !! state = Some row ∧
         iter (alphabet a) = spre ++ symbol :: spost ∧
         (∀ c, c ∈ spre → symbol_ok a row c) ∧
         ((row !! symbol = None ∧
           reason = "Missing transition for state '" +:+ state
                    +:+ "' on symbol '" +:+ symbol +:+ "'.") ∨
          (∃ t, row !! symbol = Some t ∧ t ∉ states a ∧
                reason = "Transition from '" +:+ state +:+ "' on '"
                         +:+ symbol +:+ "' leads to an invalid state '"
                         +:+ t +:+ "'."))))).

(** [sub] occurs in [s]. *)
Fixpoint occurs (sub s : string) : bool :=
  String.prefix sub s ||
  match s with
  | EmptyString => false
  | String _ s' => occurs sub s'
  end.

(** Enough fuel for both loops of [minimize]. *)
Definition fuel_bound (a : DFA) : nat := S (size (states a) * size (states a)).

(** ** Facts on results and loops *)

Lemma bind_Ok {A B} (x : outcome A) (f : A → outcome B) b :
  x ≫= f = Ok b ↔ ∃ a, x = Ok a ∧ f a = Ok b.
Proof.
  destruct x; simpl; split; try (intros (? & ? & ?)); eauto; try discriminate.
  by simplify_eq.
Qed.

Lemma getitem_Ok {K} `{Countable K} {V} (d : gmap K V) k v :
  getitem d k = Ok v ↔ d !! k = Some v.
Proof. unfold getitem. destruct (d !! k); split; intros; by simplify_eq. Qed.

Lemma getidx_Ok {A} (l : list A) i v : getidx l i = Ok v ↔ l !! i = Some v.
Proof. unfold getidx. destruct (l !! i); split; intros; by simplify_eq. Qed.

Lemma elem_of_iter X x : x ∈ iter X ↔ x ∈ X.
Proof. by rewrite iter_perm, elem_of_elements. Qed.

Lemma NoDup_iter X : NoDup (iter X).
Proof. rewrite iter_perm. apply NoDup_elements. Qed.

Lemma length_iter X : length (iter X) = size X.
Proof. by rewrite iter_perm. Qed.

(** ** [is_valid] *)

Lemma check_symbols_None a state row syms :
  check_symbols a state row syms = None ↔
  ∀ symbol, symbol ∈ syms → ∃ t, row !! symbol = Some t ∧ t ∈ states a.
Proof.
  induction syms as [|c syms IH]; simpl.
  - split; [|done]. intros _ ? ?%elem_of_nil. done.
  - destruct (row !! c) as [t|] eqn:E.
    + case_bool_decide as Ht.
      * rewrite IH. split.
        -- intros Hs x [->|?]%elem_of_cons; eauto.
        -- intros Hs x ?. apply Hs. by right.
      * split; [done|]. intros Hs. destruct (Hs c) as (t' & ? & ?); [by left|].
        by simplify_eq.
    + split; [done|]. intros Hs. destruct (Hs c) as (t' & ? & ?); [by left|].
      by simplify_eq.
Qed.

Lemma check_states_None a sts :
  check_states a sts = None ↔
  ∀ s, s ∈ sts →
    ∃ row, transitions a !! s = Some row ∧
      ∀ symbol, symbol ∈ alphabet a →
        ∃ t, row !! symbol = Some t ∧ t ∈ states a.
Proof.
  induction sts as [|s0 sts IH]; simpl.
  - split; [|done]. intros _ ? ?%elem_of_nil. done.
  - destruct (transitions a !! s0) as [row|] eqn:E.
    + destruct (check_symbols a s0 row (iter (alphabet a))) eqn:E2.
      * split; [done|]. intros Hs. destruct (Hs s0) as (row' & ? & Hr); [by left|].
        assert (row' = row) as -> by congruence.
        assert (check_symbols a s0 row (iter (alphabet a)) = None) as E3.
        { apply check_symbols_None. intros ? ?%elem_of_iter. auto. }
        congruence.
      * rewrite IH. rewrite check_symbols_None in E2. split.
        -- intros Hs x [->|?]%elem_of_cons; [|by eauto].
           exists row. split; [done|]. intros ? ?%elem_of_iter. auto.
        -- intros Hs x ?. apply Hs. by right.
    + split; [done|]. intros Hs. destruct (Hs s0) as (row' & ? & Hr); [by left|].
      by simplify_eq.
Qed.

Lemma is_valid_spec a : (is_valid a).1 = true ↔ well_formed a.
Proof.
  unfold is_valid, well_formed.
  case_bool_decide as H1; [simpl; split; [done|]; intros (?&?&?&?); done|].
  case_bool_decide as H2; [simpl; split; [done|]; intros (?&?&?&?); done|].
  case_bool_decide as H3; [simpl; split; [done|]; intros (?&?&?&?); done|].
  destruct (check_states a (iter (states a))) eqn:E; simpl.
  - split; [done|]. intros (_ & _ & _ & Hs).
    assert (check_states a (iter (states a)) = None) as E3.
    { apply check_states_None. intros ? ?%elem_of_iter. auto. }
    congruence.
  - rewrite check_states_None in E. split; [|done]. intros _.
    repeat split; try done.
    intros s ?%elem_of_iter. auto.
Qed.

(** ** The traversal of [remove_unreachable_states] *)

Definition closed_at (a : DFA) (R : gset string) (s : string) : Prop :=
  ∀ symbol t,
    symbol ∈ alphabet a → delta a s symbol = Some t → t ≠ "" → t ∈ R.

Lemma closed_at_mono a R R' s : closed_at a R s → R ⊆ R' → closed_at a R' s.
Proof. intros Hc HR symbol t ? ? ?. apply HR. eauto. Qed.

Lemma visit_cases row acc c :
  (∃ t, row !! c = Some t ∧ t ≠ "" ∧ t ∉ acc.1 ∧
        visit row acc c = ({[t]} ∪ acc.1, acc.2 ++ [t])) ∨
  (visit row acc c = acc ∧ ∀ t, row !! c = Some t → t ≠ "" → t ∈ acc.1).
Proof.
  unfold visit. destruct (row !! c) as [t|]; [|by right].
  destruct (decide (t ≠ "")) as [Hne|He]; destruct (decide (t ∉ acc.1)) as [Hn|Hi].
  - left. exists t. by rewrite !bool_decide_eq_true_2.
  - right. rewrite (bool_decide_eq_false_2 (t ∉ acc.1)) by done.
    rewrite andb_false_r. split; [done|]. intros ? [= <-] _. by apply dec_stable.
  - right. rewrite (bool_decide_eq_false_2 (t ≠ "")) by done.
    split; [done|]. by intros ? [= <-] ?.
  - right. rewrite (bool_decide_eq_false_2 (t ≠ "")) by done.
    split; [done|]. by intros ? [= <-] ?.
Qed.

Lemma visit_fold row syms acc :
  ∃ new,
    (foldl (visit row) acc syms).2 = acc.2 ++ new ∧
    (foldl (visit row) acc syms).1 = list_to_set new ∪ acc.1 ∧
    NoDup new ∧
    (∀ t, t ∈ new →
       t ∉ acc.1 ∧ t ≠ "" ∧ ∃ symbol, symbol ∈ syms ∧ row !! symbol = Some t) ∧
    (∀ symbol t, symbol ∈ syms → row !! symbol = Some t → t ≠ "" →
       t ∈ (foldl (visit row) acc syms).1).
Proof.
  revert acc. induction syms as [|c syms IH]; intros acc; simpl.
  - exists []. rewrite app_nil_r. split_and!.
    + done.
    + by rewrite list_to_set_nil, (left_id_L ∅ (∪)).
    + constructor.
    + by intros ? ?%elem_of_nil.
    + by intros ? ? ?%elem_of_nil.
  - destruct (IH (visit row acc c)) as (new & Hq & Hr & Hnd & Hnew & Hcl).
    destruct (visit_cases row acc c) as [(t&E&Hne&Hnin&Hv)|[Hv Hc]];
      rewrite Hv in *; simpl in *.
    + exists (t :: new). split_and!.
      * rewrite Hq. by rewrite <- app_assoc.
      * rewrite Hr. set_solver.
      * constructor; [|done]. intros Hin. apply Hnew in Hin. set_solver.
      * intros t' [->|Hin]%elem_of_cons.
        { split_and!; [done|done|]. exists c. split; [by left|done]. }
        destruct (Hnew _ Hin) as (?&?&sym&?&?).
        split_and!; [set_solver|done|]. exists sym. split; [by right|done].
      * intros sym t' [->|Hin]%elem_of_cons Hl Hne'; [|by eauto].
        assert (t' = t) as -> by congruence. rewrite Hr. set_solver.
    + exists new. split_and!; try done.
      * intros t' Hin. destruct (Hnew _ Hin) as (?&?&sym&?&?).
        split_and!; [done..|]. exists sym. split; [by right|done].
      * intros sym t' [->|Hin]%elem_of_cons Hl Hne'; [|by eauto].
        rewrite Hr. apply elem_of_union_r. eauto.
Qed.

Lemma size_difference_new (U R : gset string) (new : list string) :
  NoDup new → (∀ t, t ∈ new → t ∈ U ∧ t ∉ R) →
  size (U ∖ (list_to_set new ∪ R)) + length new = size (U ∖ R).
Proof.
  intros Hnd Hnew.
  assert (U ∖ R = list_to_set new ∪ (U ∖ (list_to_set new ∪ R))) as ->.
  { apply set_eq. intros x. rewrite !elem_of_union, !elem_of_difference,
      elem_of_union, elem_of_list_to_set.
    destruct (decide (x ∈ new)); naive_solver. }
  pose proof (size_union (C:=gset string) (list_to_set new)
                (U ∖ (list_to_set new ∪ R))) as Hs.
  rewrite Hs by set_solver.
  rewrite size_list_to_set by done. lia.
Qed.

Lemma delta_Some a s symbol t :
  delta a s symbol = Some t ↔
  ∃ row, transitions a !! s = Some row ∧ row !! symbol = Some t.
Proof.
  unfold delta, lookup2. destruct (transitions a !! s) as [row|]; simpl.
  - split; [eauto|]. by intros (? & [= <-] & ?).
  - split; [done|]. by intros (? & ? & ?).
Qed.

(** The loop, started in a state that satisfies its invariant, leaves with
    the set of collected states; [U] is any set closed under the
    transitions that the traversal follows. *)
Lemma bfs_invariant a (U : gset string) :
  (∀ s symbol t, s ∈ U → symbol ∈ alphabet a → delta a s symbol = Some t →
     t ≠ "" → t ∈ U) →
  ∀ fuel R Q,
    (∀ s, s ∈ Q → s ∈ R) → R ⊆ U →
    (∀ s, s ∈ R → collected a s) →
    (∀ s, s ∈ R → s ∉ Q → closed_at a R s) →
    (length Q + size (U ∖ R) ≤ fuel)%nat →
    ∃ R', bfs a fuel R Q = Ok R' ∧ R ⊆ R' ∧ R' ⊆ U ∧
          (∀ s, s ∈ R' → collected a s) ∧ (∀ s, s ∈ R' → closed_at a R' s).
Proof.
  intros HU. induction fuel as [|fuel IH]; intros R Q HQ HRU Hcol Hcl Hm.
  - destruct Q; [|simpl in Hm; lia]. exists R. simpl. split_and!; try done.
    intros s Hs. apply Hcl; [done|]. by intros ?%elem_of_nil.
  - destruct Q as [|cur Q0].
    { exists R. simpl. split_and!; try done.
      intros s Hs. apply Hcl; [done|]. by intros ?%elem_of_nil. }
    simpl. assert (cur ∈ R) as HcurR by (apply HQ; by left).
    destruct (transitions a !! cur) as [row|] eqn:Erow.
    + destruct (visit_fold row (iter (alphabet a)) (R, Q0))
        as (new & Hq & Hr & Hnd & Hnew & Hclo).
      simpl in Hq, Hr, Hnew. rewrite Hq, Hr. rewrite Hr in Hclo.
      assert (∀ t, t ∈ new → t ∈ U ∧ t ∉ R ∧ collected a t) as Hnew'.
      { intros t Ht. destruct (Hnew t Ht) as (HtR & Hne & symbol & Hsym & Hlk).
        apply elem_of_iter in Hsym.
        assert (delta a cur symbol = Some t) by (apply delta_Some; eauto).
        split_and!; [|done|].
        - eapply HU; eauto.
        - eapply collected_step; eauto. }
      destruct (IH (list_to_set new ∪ R) (Q0 ++ new))
        as (R' & Hb & Hsub & HR'U & Hcol' & Hcl').
      * intros s [?|?]%elem_of_app.
        -- apply elem_of_union_r, HQ. by right.
        -- by apply elem_of_union_l, elem_of_list_to_set.
      * intros s [Hs%elem_of_list_to_set|?]%elem_of_union; [|by auto].
        by apply Hnew'.
      * intros s [Hs%elem_of_list_to_set|?]%elem_of_union; [|by auto].
        by apply Hnew'.
      * intros s Hs HsQ. rewrite elem_of_app in HsQ.
        destruct (decide (s = cur)) as [->|Hne].
        { intros symbol t Hsym Hd Hne. apply delta_Some in Hd as (row' & ? & ?).
          assert (row' = row) as -> by congruence.
          apply (Hclo symbol); [by apply elem_of_iter|done|done]. }
        apply elem_of_union in Hs as [Hs%elem_of_list_to_set|Hs]; [tauto|].
        eapply closed_at_mono; [apply Hcl; [done|]|set_solver].
        intros [?|?]%elem_of_cons; tauto.
      * rewrite length_app.
        pose proof (size_difference_new U R new Hnd) as Hsz.
        simpl in Hm. rewrite <- Hsz in Hm; [lia|]. intros t Ht.
        destruct (Hnew' t Ht) as (? & ? & _). done.
      * exists R'. split_and!; try done. set_solver.
    + destruct (IH R Q0) as (R' & Hb & Hsub & HR'U & Hcol' & Hcl').
      * intros s ?. apply HQ. by right.
      * done.
      * done.
      * intros s Hs HsQ. destruct (decide (s = cur)) as [->|Hne].
        { intros symbol t Hsym Hd Hne. apply delta_Some in Hd as (row' & ? & ?).
          congruence. }
        apply Hcl; [done|]. intros [?|?]%elem_of_cons; tauto.
      * simpl in Hm. lia.
      * exists R'. done.
Qed.

Lemma collected_closed a (R : gset string) :
  start_state a ∈ R → (∀ s, s ∈ R → closed_at a R s) →
  ∀ s, collected a s → s ∈ R.
Proof.
  intros Hst Hcl s Hs. induction Hs as [|s symbol t _ IH Hsym Hd Hne]; [done|].
  by apply (Hcl s IH symbol t).
Qed.

Lemma well_formed_delta a s symbol :
  well_formed a → s ∈ states a → symbol ∈ alphabet a →
  ∃ t, delta a s symbol = Some t ∧ t ∈ states a.
Proof.
  intros (_ & _ & _ & Htr) Hs Hsym.
  destruct (Htr s Hs) as (row & Hrow & Hr).
  destruct (Hr symbol Hsym) as (t & Ht & HtS).
  exists t. split; [|done]. apply delta_Some. eauto.
Qed.

Lemma well_formed_delta_states a s symbol t :
  well_formed a → s ∈ states a → symbol ∈ alphabet a →
  delta a s symbol = Some t → t ∈ states a.
Proof.
  intros Hwf Hs Hsym Hd.
  destruct (well_formed_delta a s symbol Hwf Hs Hsym) as (t' & ? & ?).
  congruence.
Qed.

Lemma collected_states a s : well_formed a → collected a s → s ∈ states a.
Proof.
  intros Hwf Hs. induction Hs; [by destruct Hwf as (_ & ? & _)|].
  eapply well_formed_delta_states; eauto.
Qed.

(** For a well-formed automaton the traversal ends, with the collected
    states, as soon as the fuel covers the number of states. *)
Lemma bfs_well_formed a fuel :
  well_formed a → (size (states a) ≤ fuel)%nat →
  ∃ R, bfs a fuel {[start_state a]} [start_state a] = Ok R ∧
       ∀ s, s ∈ R ↔ collected a s.
Proof.
  intros Hwf Hfuel.
  assert (start_state a ∈ states a) as Hst by (by destruct Hwf as (_ & ? & _)).
  destruct (bfs_invariant a (states a)) with (fuel := fuel)
    (R := ({[start_state a]} : gset string)) (Q := [start_state a])
    as (R & Hb & Hsub & HRU & Hcol & Hcl).
  - intros s symbol t Hs Hsym Hd _.
    eapply well_formed_delta_states; eauto.
  - intros s ?%list_elem_of_singleton. set_solver.
  - set_solver.
  - intros s ->%elem_of_singleton. constructor.
  - intros s ->%elem_of_singleton Hn. exfalso. apply Hn. by left.
  - simpl.
    pose proof (size_difference_new (states a) ∅ [start_state a]) as Hsz.
    simpl in Hsz.
    assert (({[start_state a]} ∪ ∅) ∪ ∅ = ({[start_state a]} : gset string))
      as Heq by set_solver.
    rewrite Heq in Hsz.
    assert (states a ∖ ∅ = states a) as Heq2 by set_solver.
    rewrite Heq2 in Hsz. rewrite <- Hsz in Hfuel; [lia| |].
    + apply NoDup_singleton.
    + intros t ->%list_elem_of_singleton. set_solver.
  - exists R. split; [done|]. intros s. split; [by auto|].
    apply collected_closed; [set_solver|done].
Qed.

Lemma restrict_transitions_spec tr l acc :
  (∀ s, s ∈ l → is_Some (tr !! s)) →
  ∃ m, restrict_transitions tr l acc = Ok m ∧
       ∀ s, m !! s = if bool_decide (s ∈ l) then tr !! s else acc !! s.
Proof.
  revert acc. induction l as [|s0 l IH]; intros acc Hl.
  - exists acc. split; [done|]. intros s.
    by rewrite bool_decide_eq_false_2 by apply not_elem_of_nil.
  - destruct (Hl s0) as [row Hrow]; [by left|].
    simpl. unfold getitem. rewrite Hrow. simpl.
    destruct (IH (<[s0:=row]> acc)) as (m & Hm & Hlk).
    { intros s ?. apply Hl. by right. }
    exists m. split; [done|]. intros s. rewrite Hlk.
    destruct (decide (s ∈ l)) as [Hin|Hnin].
    + rewrite !bool_decide_eq_true_2; [done|by right|done].
    + rewrite (bool_decide_eq_false_2 (s ∈ l)) by done.
      destruct (decide (s = s0)) as [->|Hne].
      * rewrite bool_decide_eq_true_2 by (by left). by rewrite lookup_insert_eq.
      * rewrite bool_decide_eq_false_2 by (intros [?|?]%elem_of_cons; done).
        by rewrite lookup_insert_ne.
Qed.

(** The automaton left by pruning. *)
Definition pruned (a r : DFA) : Prop :=
  (∀ s, s ∈ states r ↔ collected a s) ∧
  final_states r = final_states a ∩ states r ∧
  (∀ s, transitions r !! s =
        if bool_decide (s ∈ states r) then transitions a !! s else None) ∧
  start_state r = start_state a ∧
  alphabet r = alphabet a.

Lemma remove_unreachable_states_spec a :
  well_formed a →
  ∃ r,
    (∀ fuel, (size (states a) ≤ fuel)%nat →
       remove_unreachable_states fuel a = Ok r) ∧
    pruned a r.
Proof.
  intros Hwf.
  destruct (bfs_well_formed a (size (states a)) Hwf) as (R & HR & Hcol); [done|].
  assert (R ⊆ states a) as HRs.
  { intros s Hs. apply collected_states; [done|]. by apply Hcol. }
  destruct (restrict_transitions_spec (transitions a) (iter R) ∅)
    as (m & Hm & Hlk).
  { intros s Hs%elem_of_iter. destruct Hwf as (_ & _ & _ & Htr).
    destruct (Htr s) as (row & -> & _); [by apply HRs|]. done. }
  exists (mkDFA (states a ∩ R) (alphabet a) m (start_state a)
                (final_states a ∩ R)).
  assert (states a ∩ R = R) as HeqR by set_solver.
  unfold pruned. split_and!; simpl; try done.
  - intros fuel Hfuel. unfold remove_unreachable_states.
    destruct (bfs_well_formed a fuel Hwf Hfuel) as (R2 & HR2 & Hcol2).
    assert (R2 = R) as ->.
    { apply set_eq. intros s. by rewrite Hcol, Hcol2. }
    rewrite HR2. simpl. rewrite Hm. done.
  - intros s. rewrite HeqR. apply Hcol.
  - rewrite HeqR. done.
  - intros s. rewrite Hlk, HeqR, lookup_empty.
    destruct (decide (s ∈ R)) as [Hs|Hs].
    + rewrite !bool_decide_eq_true_2; [done..|by apply elem_of_iter].
    + rewrite !bool_decide_eq_false_2; [done..|by rewrite elem_of_iter].
Qed.

(** ** Loops *)

Lemma for_each_app {A S} (l1 l2 : list A) (body : S → A → outcome S) s :
  for_each (l1 ++ l2) body s = for_each l1 body s ≫= for_each l2 body.
Proof.
  revert s. induction l1 as [|x l1 IH]; intros s; simpl; [done|].
  destruct (body s x); simpl; auto.
Qed.

Lemma for_each_fmap {A B S} (f : A → B) (l : list A)
    (body : S → B → outcome S) s :
  for_each (f <$> l) body s = for_each l (λ s x, body s (f x)) s.
Proof.
  revert s. induction l as [|x l IH]; intros s; simpl; [done|].
  destruct (body s (f x)); simpl; auto.
Qed.

Lemma for_each_nested {A B S} (l : list A) (f : A → list B)
    (body : A → S → B → outcome S) s :
  for_each l (λ s x, for_each (f x) (body x) s) s =
  for_each (x ← l; pair x <$> f x) (λ s p, body p.1 s p.2) s.
Proof.
  revert s. induction l as [|x l IH]; intros s; simpl; [done|].
  rewrite for_each_app, for_each_fmap. simpl.
  destruct (for_each (f x) (body x) s); simpl; auto.
Qed.

(** An invariant of the loop state holds when the loop is left. *)
Lemma for_each_inv {A S} (P : S → Prop) (l : list A)
    (body : S → A → outcome S) s s' :
  P s → (∀ s x s', x ∈ l → P s → body s x = Ok s' → P s') →
  for_each l body s = Ok s' → P s'.
Proof.
  revert s. induction l as [|x l IH]; intros s Hs Hbody; simpl.
  - by intros [= <-].
  - intros (s1 & H1 & H2)%bind_Ok. apply (IH s1); [| |done].
    + eapply Hbody; [by left|done|done].
    + intros s2 y s2' Hy. apply Hbody. by right.
Qed.

(** The loop is left normally when each turn is. *)
Lemma for_each_total {A S} (P : S → Prop) (l : list A)
    (body : S → A → outcome S) s :
  P s → (∀ s x, x ∈ l → P s → ∃ s', body s x = Ok s' ∧ P s') →
  ∃ s', for_each l body s = Ok s' ∧ P s'.
Proof.
  revert s. induction l as [|x l IH]; intros s Hs Hbody; simpl; [by eauto|].
  destruct (Hbody s x) as (s1 & -> & Hs1); [by left|done|]. simpl.
  apply IH; [done|]. intros ? ? ?. apply Hbody. by right.
Qed.

(** The pairs [(i, j)] visited by the two nested [for] loops, in order. *)
Definition pairs (n : nat) : list (nat * nat) :=
  i ← range 0 n; pair i <$> range (i + 1) n.

Lemma elem_of_range lo hi i : i ∈ range lo hi ↔ (lo ≤ i < hi)%nat.
Proof. unfold range. rewrite elem_of_seq. lia. Qed.

Lemma elem_of_pairs n i j : (i, j) ∈ pairs n ↔ (i < j < n)%nat.
Proof.
  unfold pairs. rewrite list_elem_of_bind. split.
  - intros (i' & Hj & Hi). apply list_elem_of_fmap in Hj as (j' & [= -> ->] & Hj).
    apply elem_of_range in Hj, Hi. lia.
  - intros Hij. exists i. split.
    + apply list_elem_of_fmap. exists j. split; [done|]. apply elem_of_range. lia.
    + apply elem_of_range. lia.
Qed.

Lemma NoDup_pairs n : NoDup (pairs n).
Proof.
  unfold pairs, range.
  assert (∀ len lo,
    NoDup (i ← seq lo len; pair i <$> seq (i + 1) (n - (i + 1)))) as H;
    [|by apply H].
  induction len as [|len IH]; intros lo; simpl; [constructor|].
  apply NoDup_app. split_and!.
  - apply NoDup_fmap_2; [by intros ? ? [= ->]|]. apply NoDup_seq.
  - intros [i j] Hin1 Hin2.
    apply list_elem_of_fmap in Hin1 as (j' & [= -> ->] & _).
    apply list_elem_of_bind in Hin2 as (i' & Hin2 & Hi').
    apply list_elem_of_fmap in Hin2 as (j'' & [= -> ->] & _).
    apply elem_of_seq in Hi'. lia.
  - apply IH.
Qed.

Lemma length_pairs_le n : (length (pairs n) ≤ n * n)%nat.
Proof.
  unfold pairs, range. rewrite Nat.sub_0_r.
  assert (∀ len lo, length (i ← seq lo len; pair i <$> seq (i + 1) (n - (i + 1)))
                    ≤ len * n)%nat as H.
  { induction len as [|len IH]; intros lo; simpl; [done|].
    rewrite length_app, length_fmap, length_seq.
    apply Nat.add_le_mono; [lia|apply IH]. }
  apply H.
Qed.

Lemma for_each_inv_prefix {A S} (P : list A → S → Prop) (l : list A)
    (body : S → A → outcome S) s s' :
  P [] s →
  (∀ pre x post s s', l = pre ++ x :: post → P pre s → body s x = Ok s' →
     P (pre ++ [x]) s') →
  for_each l body s = Ok s' → P l s'.
Proof.
  intros Hs Hbody.
  assert (∀ l2 l1 s, l = l1 ++ l2 → P l1 s → for_each l2 body s = Ok s' →
            P l s') as H.
  { induction l2 as [|x l2 IH]; intros l1 s0 Hl Hs0; simpl.
    - intros [= <-]. by rewrite Hl, app_nil_r.
    - intros (s1 & H1 & H2)%bind_Ok. apply (IH (l1 ++ [x]) s1); [|by eauto|done].
      by rewrite <- app_assoc. }
  by apply (H l [] s).
Qed.

Lemma for_each_total_prefix {A S} (P : list A → S → Prop) (l : list A)
    (body : S → A → outcome S) s :
  P [] s →
  (∀ pre x post s, l = pre ++ x :: post → P pre s →
     ∃ s', body s x = Ok s' ∧ P (pre ++ [x]) s') →
  ∃ s', for_each l body s = Ok s' ∧ P l s'.
Proof.
  intros Hs Hbody.
  assert (∀ l2 l1 s, l = l1 ++ l2 → P l1 s →
            ∃ s', for_each l2 body s = Ok s' ∧ P l s') as H.
  { induction l2 as [|x l2 IH]; intros l1 s0 Hl Hs0; simpl.
    - exists s0. by rewrite Hl, app_nil_r.
    - destruct (Hbody l1 x l2 s0 Hl Hs0) as (s1 & -> & Hs1). simpl.
      apply (IH (l1 ++ [x]) s1); [|done]. by rewrite <- app_assoc. }
  by apply (H l [] s).
Qed.

Lemma for_each_no_timeout {A S} (l : list A) (body : S → A → outcome S) s :
  (∀ s x, body s x ≠ NoFuel) → for_each l body s ≠ NoFuel.
Proof.
  intros Hbody. revert s. induction l as [|x l IH]; intros s; simpl; [done|].
  specialize (Hbody s x). destruct (body s x); simpl; [apply IH|done|done].
Qed.

(** ** The table *)

Definition is_marked (T : list (list bool)) (i j : nat) : bool :=
  match T !! i with
  | Some row => default false (row !! j)
  | None => false
  end.

Definition table_dims (n : nat) (T : list (list bool)) : Prop :=
  length T = n ∧ ∀ row, row ∈ T → length row = n.

Lemma table_get_Ok T i j b : table_get T i j = Ok b → is_marked T i j = b.
Proof.
  unfold table_get, is_marked.
  intros (row & Hrow%getidx_Ok & Hb%getidx_Ok)%bind_Ok.
  by rewrite Hrow, Hb.
Qed.

Lemma table_get_total n T i j :
  table_dims n T → (i < n)%nat → (j < n)%nat →
  table_get T i j = Ok (is_marked T i j).
Proof.
  intros [Hlen Hrows] Hi Hj. unfold table_get, is_marked, getidx.
  destruct (T !! i) as [row|] eqn:Erow; simpl.
  - assert (length row = n) as Hr.
    { apply Hrows. by eapply list_elem_of_lookup_2. }
    destruct (row !! j) as [b|] eqn:Eb; [done|].
    apply lookup_ge_None in Eb. lia.
  - apply lookup_ge_None in Erow. lia.
Qed.

Lemma table_mark_Ok T i j T' :
  table_mark T i j = Ok T' →
  ∀ i' j', is_marked T' i' j' = true ↔
           is_marked T i' j' = true ∨ (i' = i ∧ j' = j).
Proof.
  unfold table_mark. intros (row & Hrow%getidx_Ok & Hif)%bind_Ok.
  case_decide as Hj; [|done]. injection Hif as <-. intros i' j'.
  unfold is_marked.
  assert (i < length T)%nat as Hi by (by eapply lookup_lt_Some).
  destruct (decide (i' = i)) as [->|Hne].
  - rewrite list_lookup_insert_eq by done. rewrite Hrow.
    destruct (decide (j' = j)) as [->|Hnej].
    + rewrite list_lookup_insert_eq by done. simpl. tauto.
    + rewrite list_lookup_insert_ne by done.
      split; [tauto|]. intros [?|[_ ?]]; [done|congruence].
  - rewrite list_lookup_insert_ne by done.
    split; [tauto|]. intros [?|[? _]]; [done|congruence].
Qed.

Lemma table_mark_dims n T i j T' :
  table_mark T i j = Ok T' → table_dims n T → table_dims n T'.
Proof.
  unfold table_mark. intros (row & Hrow%getidx_Ok & Hif)%bind_Ok [Hlen Hrows].
  case_decide as Hj; [|done]. injection Hif as <-. split.
  - by rewrite length_insert.
  - intros row' Hin. apply list_elem_of_lookup in Hin as (k & Hk).
    destruct (decide (k = i)) as [->|Hne].
    + rewrite list_lookup_insert_eq in Hk by (by eapply lookup_lt_Some).
      injection Hk as <-. rewrite length_insert. apply Hrows.
      by eapply list_elem_of_lookup_2.
    + rewrite list_lookup_insert_ne in Hk by done.
      apply Hrows. by eapply list_elem_of_lookup_2.
Qed.

Lemma table_mark_total n T i j :
  table_dims n T → (i < n)%nat → (j < n)%nat → ∃ T', table_mark T i j = Ok T'.
Proof.
  intros [Hlen Hrows] Hi Hj. unfold table_mark, getidx.
  destruct (T !! i) as [row|] eqn:Erow; simpl.
  - assert (length row = n) as Hr.
    { apply Hrows. by eapply list_elem_of_lookup_2. }
    rewrite decide_True by lia. eauto.
  - apply lookup_ge_None in Erow. lia.
Qed.

Lemma table_dims_fresh n : table_dims n (replicate n (replicate n false)).
Proof.
  split; [by rewrite length_replicate|].
  intros row [-> _]%elem_of_replicate. by rewrite length_replicate.
Qed.

Lemma is_marked_fresh n i j :
  is_marked (replicate n (replicate n false)) i j = false.
Proof.
  unfold is_marked.
  destruct (replicate n (replicate n false) !! i) as [row|] eqn:E; [|done].
  apply lookup_replicate in E as [-> _].
  destruct (replicate n false !! j) as [b|] eqn:E2; [|done].
  by apply lookup_replicate in E2 as [-> _].
Qed.

Lemma nerode_refl a s : nerode a s s.
Proof. by intros w _. Qed.

Lemma nerode_sym a s t : nerode a s t → nerode a t s.
Proof. intros H w Hw. symmetry. by apply H. Qed.

Lemma nerode_trans a s t u : nerode a s t → nerode a t u → nerode a s u.
Proof. intros H1 H2 w Hw. rewrite H1 by done. by apply H2. Qed.

Lemma distinguishable_sym a s t : distinguishable a s t → distinguishable a t s.
Proof. intros (w & Hw & Hne). exists w. split; [done|]. congruence. Qed.

Lemma distinguishable_not_nerode a s t :
  distinguishable a s t → ¬ nerode a s t.
Proof. intros (w & Hw & Hne) Hn. apply Hne. by apply Hn. Qed.

Lemma accepts_from_cons a s symbol w t :
  delta a s symbol = Some t →
  accepts_from a s (symbol :: w) = accepts_from a t w.
Proof. intros Hd. unfold accepts_from. simpl. by rewrite Hd. Qed.

Lemma distinguishable_step a s t symbol s' t' :
  symbol ∈ alphabet a → delta a s symbol = Some s' → delta a t symbol = Some t' →
  distinguishable a s' t' → distinguishable a s t.
Proof.
  intros Hsym Hs Ht (w & Hw & Hne). exists (symbol :: w). split.
  - by constructor.
  - by rewrite (accepts_from_cons a s symbol w s'),
      (accepts_from_cons a t symbol w t').
Qed.

Lemma nerode_step a s t symbol s' t' :
  symbol ∈ alphabet a → delta a s symbol = Some s' → delta a t symbol = Some t' →
  nerode a s t → nerode a s' t'.
Proof.
  intros Hsym Hs Ht Hn w Hw.
  rewrite <- (accepts_from_cons a s symbol w s'),
    <- (accepts_from_cons a t symbol w t') by done.
  apply Hn. by constructor.
Qed.

Lemma nerode_final a s t :
  nerode a s t →
  bool_decide (s ∈ final_states a) = bool_decide (t ∈ final_states a).
Proof. intros Hn. apply (Hn []). constructor. Qed.

(** ** Dict comprehensions *)

Lemma dict_of_snoc {K} `{Countable K} {V} (l : list (K * V)) kv :
  dict_of (l ++ [kv]) = <[kv.1 := kv.2]> (dict_of l).
Proof. unfold dict_of. by rewrite foldl_app. Qed.

Lemma dict_of_Some {K} `{Countable K} {V} (l : list (K * V)) k v :
  dict_of l !! k = Some v → (k, v) ∈ l.
Proof.
  induction l as [|[k' v'] l IH] using rev_ind; [done|].
  rewrite dict_of_snoc. simpl. rewrite elem_of_app, list_elem_of_singleton.
  destruct (decide (k' = k)) as [->|Hne].
  - rewrite lookup_insert_eq. intros [= ->]. by right.
  - rewrite lookup_insert_ne by done. auto.
Qed.

Lemma dict_of_is_Some {K} `{Countable K} {V} (l : list (K * V)) k :
  k ∈ l.*1 → is_Some (dict_of l !! k).
Proof.
  induction l as [|[k' v'] l IH] using rev_ind; [by intros ?%elem_of_nil|].
  rewrite dict_of_snoc, fmap_app. simpl.
  rewrite elem_of_app, list_elem_of_singleton.
  destruct (decide (k' = k)) as [->|Hne].
  - rewrite lookup_insert_eq. eauto.
  - rewrite lookup_insert_ne by done. intros [?|?]; [auto|congruence].
Qed.

Lemma NoDup_fst_inj {A B} (l : list (A * B)) x y1 y2 :
  NoDup l.*1 → (x, y1) ∈ l → (x, y2) ∈ l → y1 = y2.
Proof.
  induction l as [|[x' y'] l IH]; [by intros _ ?%elem_of_nil|].
  rewrite fmap_cons. simpl. intros [Hnin Hnd]%NoDup_cons H1 H2.
  apply elem_of_cons in H1 as [H1|H1]; apply elem_of_cons in H2 as [H2|H2].
  - congruence.
  - injection H1 as -> ->. exfalso. apply Hnin. apply list_elem_of_fmap.
    by exists (x', y2).
  - injection H2 as -> ->. exfalso. apply Hnin. apply list_elem_of_fmap.
    by exists (x', y1).
  - by apply IH.
Qed.

Lemma dict_of_NoDup {K} `{Countable K} {V} (l : list (K * V)) k v :
  NoDup l.*1 → (k, v) ∈ l → dict_of l !! k = Some v.
Proof.
  intros Hnd Hin.
  destruct (dict_of_is_Some l k) as [v' Hv'].
  { apply list_elem_of_fmap. by exists (k, v). }
  rewrite Hv'. f_equal. apply dict_of_Some in Hv'.
  by eapply NoDup_fst_inj.
Qed.

Lemma imap_keys {A B} (f : nat → A → B) (l : list A) :
  (imap (λ i x, (x, f i x)) l).*1 = l.
Proof.
  rewrite fmap_imap. rewrite <- (list_fmap_id l) at 2.
  rewrite <- imap_const. by apply imap_ext.
Qed.

Lemma dict_of_imap_lookup {A} `{Countable A} {B} (f : nat → A → B)
    (l : list A) x y :
  NoDup l →
  dict_of (imap (λ i x, (x, f i x)) l) !! x = Some y ↔
  ∃ i, l !! i = Some x ∧ y = f i x.
Proof.
  intros Hnd. split.
  - intros Hl%dict_of_Some. apply elem_of_lookup_imap in Hl as (i & x' & Heq & Hi).
    injection Heq as -> ->. eauto.
  - intros (i & Hi & ->). apply dict_of_NoDup; [by rewrite imap_keys|].
    apply elem_of_lookup_imap. eauto.
Qed.

Lemma elem_of_snoc {A} (l : list A) x y : x ∈ l ++ [y] ↔ x ∈ l ∨ x = y.
Proof. by rewrite elem_of_app, list_elem_of_singleton. Qed.

Lemma bind_no_timeout {A B} (x : outcome A) (f : A → outcome B) :
  x ≠ NoFuel → (∀ a, f a ≠ NoFuel) → x ≫= f ≠ NoFuel.
Proof. intros Hx Hf. destruct x; simpl; auto. Qed.

Lemma getidx_no_timeout {A} (l : list A) i : getidx l i ≠ NoFuel.
Proof. unfold getidx. by destruct (l !! i). Qed.

Lemma getitem_no_timeout {K} `{Countable K} {V} (d : gmap K V) k :
  getitem d k ≠ NoFuel.
Proof. unfold getitem. by destruct (d !! k). Qed.

Lemma table_get_no_timeout T i j : table_get T i j ≠ NoFuel.
Proof.
  unfold table_get. apply bind_no_timeout; [apply getidx_no_timeout|].
  intros ?. apply getidx_no_timeout.
Qed.

Lemma table_mark_no_timeout T i j : table_mark T i j ≠ NoFuel.
Proof.
  unfold table_mark. apply bind_no_timeout; [apply getidx_no_timeout|].
  intros ?. by case_decide.
Qed.

Lemma filter_length_le {A} (P Q : A → Prop) `{∀ x, Decision (P x)}
    `{∀ x, Decision (Q x)} (l : list A) :
  (∀ y, y ∈ l → Q y → P y) →
  (length (filter Q l) ≤ length (filter P l))%nat.
Proof.
  induction l as [|y l IH]; intros HQP; [done|].
  rewrite !filter_cons.
  assert (length (filter Q l) ≤ length (filter P l))%nat as Hle.
  { apply IH. intros ? ?. apply HQP. by right. }
  destruct (decide (Q y)) as [HQ|HQ].
  - rewrite decide_True by (apply HQP; [by left|done]). simpl. lia.
  - destruct (decide (P y)); simpl; lia.
Qed.

Lemma filter_length_lt {A} (P Q : A → Prop) `{∀ x, Decision (P x)}
    `{∀ x, Decision (Q x)} (l : list A) x :
  (∀ y, y ∈ l → Q y → P y) → x ∈ l → P x → ¬ Q x →
  (length (filter Q l) < length (filter P l))%nat.
Proof.
  induction l as [|y l IH]; intros HQP Hx HP HQ; [by apply elem_of_nil in Hx|].
  rewrite !filter_cons.
  assert (∀ y, y ∈ l → Q y → P y) as HQP' by (intros ? ?; apply HQP; by right).
  pose proof (filter_length_le P Q l HQP') as Hle.
  apply elem_of_cons in Hx as [<-|Hx].
  - rewrite decide_False by done. rewrite decide_True by done. simpl. lia.
  - specialize (IH HQP' Hx HP HQ).
    destruct (decide (Q y)) as [HQy|HQy].
    + rewrite decide_True by (apply HQP; [by left|done]). simpl. lia.
    + destruct (decide (P y)); simpl; lia.
Qed.

Section Table.

Variable dfa : DFA.
Variable sts : list string.
Variable state_map : gmap string nat.
Hypothesis state_map_spec : ∀ s i, state_map !! s = Some i ↔ sts !! i = Some s.

Local Abbreviation n := (length sts).
Local Abbreviation is_final s := (bool_decide (s ∈ final_states dfa)).

(** The states of indices [i] and [j] differ in being final. *)
Definition differ (i j : nat) : Prop :=
  ∃ s t, sts !! i = Some s ∧ sts !! j = Some t ∧ is_final s ≠ is_final t.

Definition dist (i j : nat) : Prop :=
  ∃ s t, sts !! i = Some s ∧ sts !! j = Some t ∧ distinguishable dfa s t.

(** [(row, col)] is the pair of the successors of the states of indices
    [i] and [j] on [symbol], smaller index first. *)
Definition succ_pair (i j : nat) (symbol : string) (row col : nat) : Prop :=
  ∃ si sj next1 next2 idx1 idx2,
    sts !! i = Some si ∧ sts !! j = Some sj ∧
    delta dfa si symbol = Some next1 ∧ delta dfa sj symbol = Some next2 ∧
    state_map !! next1 = Some idx1 ∧ state_map !! next2 = Some idx2 ∧
    row = idx1 `min` idx2 ∧ col = idx1 `max` idx2.

Lemma succ_pair_fun i j symbol row col row' col' :
  succ_pair i j symbol row col → succ_pair i j symbol row' col' →
  row' = row ∧ col' = col.
Proof.
  intros (si & sj & n1 & n2 & i1 & i2 & ? & ? & ? & ? & ? & ? & -> & ->)
         (si' & sj' & n1' & n2' & i1' & i2' & ? & ? & ? & ? & ? & ? & -> & ->).
  assert (si' = si) as -> by congruence.
  assert (sj' = sj) as -> by congruence.
  assert (n1' = n1) as -> by congruence.
  assert (n2' = n2) as -> by congruence.
  assert (i1' = i1) as -> by congruence.
  assert (i2' = i2) as -> by congruence. done.
Qed.

Lemma succ_pair_lt i j symbol row col :
  succ_pair i j symbol row col → (row ≤ col < n)%nat.
Proof.
  intros (si & sj & n1 & n2 & i1 & i2 & ? & ? & ? & ? & H1 & H2 & -> & ->).
  apply state_map_spec, lookup_lt_Some in H1.
  apply state_map_spec, lookup_lt_Some in H2. lia.
Qed.

(** *** The base case *)

Lemma differ_dec i j s t :
  sts !! i = Some s → sts !! j = Some t →
  differ i j ↔ is_final s ≠ is_final t.
Proof.
  intros Hs Ht. split.
  - intros (s' & t' & Hs' & Ht' & Hne). rewrite Hs in Hs'. rewrite Ht in Ht'.
    injection Hs' as <-. injection Ht' as <-. done.
  - intros ?. exists s, t. done.
Qed.

Lemma base_case_spec T0 :
  table_dims n T0 → (∀ i j, is_marked T0 i j = false) →
  ∃ T, base_case dfa sts n T0 = Ok T ∧ table_dims n T ∧
       ∀ i j, is_marked T i j = true ↔ (i < j < n)%nat ∧ differ i j.
Proof.
  intros Hdims Hfresh. unfold base_case.
  rewrite (for_each_nested (range 0 n) (λ i, range (i + 1) n)
             (base_inner dfa sts)).
  change (i ← range 0 n; pair i <$> range (i + 1) n) with (pairs n).
  destruct (for_each_total_prefix
    (λ pre T, table_dims n T ∧
       ∀ i j, is_marked T i j = true ↔ (i, j) ∈ pre ∧ differ i j)
    (pairs n) (λ T p, base_inner dfa sts p.1 T p.2) T0) as (T & HT & Hd & Hm).
  - split; [done|]. intros i j. rewrite Hfresh. split; [done|].
    by intros [?%elem_of_nil _].
  - intros pre [i j] post T Hl [HdT HmT]. simpl.
    assert ((i, j) ∈ pairs n) as Hij.
    { rewrite Hl. apply elem_of_app. right. by left. }
    apply elem_of_pairs in Hij.
    destruct (lookup_lt_is_Some_2 sts i) as [s Hs]; [lia|].
    destruct (lookup_lt_is_Some_2 sts j) as [t Ht]; [lia|].
    unfold base_inner, getidx. rewrite Hs, Ht. simpl.
    case_bool_decide as Hdiff.
    + destruct (table_mark_total n T i j) as (T' & HT'); [done|lia|lia|].
      exists T'. split; [done|]. split; [by eapply table_mark_dims|].
      intros i' j'. rewrite elem_of_app, list_elem_of_singleton.
      split.
      * intros [[? ?]%HmT|[-> ->]]%(table_mark_Ok _ _ _ _ HT'); [by auto|].
        split; [by right|]. by apply (differ_dec i j s t).
      * intros [[?|[= -> ->]] ?]; apply (table_mark_Ok _ _ _ _ HT'); [|by auto].
        left. by apply HmT.
    + exists T. split; [done|]. split; [done|].
      intros i' j'. rewrite elem_of_app, list_elem_of_singleton.
      split; [by intros [? ?]%HmT; auto|].
      intros [[?|[= -> ->]] Hd']; [by apply HmT|].
      by apply (differ_dec i j s t) in Hd'.
  - exists T. split; [done|]. split; [done|].
    intros i j. rewrite <- elem_of_pairs. apply Hm.
Qed.

(** *** One pass of the closure loop *)

Lemma scan_symbols_cons T i j symbol syms row col :
  succ_pair i j symbol row col →
  scan_symbols dfa sts state_map T i j (symbol :: syms) =
  if bool_decide (row ≠ col) then
    marked ← table_get T row col;
    if marked : bool then Ok true
    else scan_symbols dfa sts state_map T i j syms
  else scan_symbols dfa sts state_map T i j syms.
Proof.
  intros (si & sj & n1 & n2 & i1 & i2 & Hsi & Hsj & Hd1 & Hd2 & H1 & H2
          & -> & ->).
  apply delta_Some in Hd1 as (row1 & Hr1 & Hn1).
  apply delta_Some in Hd2 as (row2 & Hr2 & Hn2).
  simpl. unfold getidx, getitem.
  rewrite Hsi; simpl. rewrite Hr1; simpl. rewrite Hn1; simpl.
  rewrite Hsj; simpl. rewrite Hr2; simpl. rewrite Hn2; simpl.
  rewrite H1; simpl. rewrite H2; simpl. done.
Qed.

Lemma scan_symbols_cons_Ok T i j symbol syms b :
  scan_symbols dfa sts state_map T i j (symbol :: syms) = Ok b →
  ∃ row col, succ_pair i j symbol row col.
Proof.
  simpl. intros H.
  apply bind_Ok in H as (si & Hsi%getidx_Ok & H).
  apply bind_Ok in H as (row1 & Hr1%getitem_Ok & H).
  apply bind_Ok in H as (n1 & Hn1%getitem_Ok & H).
  apply bind_Ok in H as (sj & Hsj%getidx_Ok & H).
  apply bind_Ok in H as (row2 & Hr2%getitem_Ok & H).
  apply bind_Ok in H as (n2 & Hn2%getitem_Ok & H).
  apply bind_Ok in H as (i1 & Hi1%getitem_Ok & H).
  apply bind_Ok in H as (i2 & Hi2%getitem_Ok & H).
  exists (i1 `min` i2), (i1 `max` i2), si, sj, n1, n2, i1, i2.
  split_and!; try done; apply delta_Some; eauto.
Qed.

Lemma scan_symbols_Ok T i j syms b :
  scan_symbols dfa sts state_map T i j syms = Ok b →
  if b then
    ∃ symbol row col, symbol ∈ syms ∧ succ_pair i j symbol row col ∧
      row ≠ col ∧ is_marked T row col = true
  else
    ∀ symbol, symbol ∈ syms →
      ∃ row col, succ_pair i j symbol row col ∧
        (row = col ∨ is_marked T row col = false).
Proof.
  induction syms as [|c syms IH].
  - simpl. intros [= <-]. by intros ? ?%elem_of_nil.
  - intros H. destruct (scan_symbols_cons_Ok _ _ _ _ _ _ H) as (row & col & Hsp).
    rewrite (scan_symbols_cons _ _ _ _ _ _ _ Hsp) in H.
    assert (scan_symbols dfa sts state_map T i j syms = Ok b →
            (row = col ∨ is_marked T row col = false) →
            if b then
              ∃ symbol row col, symbol ∈ c :: syms ∧
                succ_pair i j symbol row col ∧ row ≠ col ∧
                is_marked T row col = true
            else
              ∀ symbol, symbol ∈ c :: syms →
                ∃ row col, succ_pair i j symbol row col ∧
                  (row = col ∨ is_marked T row col = false)) as Hrest.
    { intros H' Hrc. specialize (IH H'). destruct b.
      - destruct IH as (sym & r & c' & ? & ?). exists sym, r, c'.
        split; [by right|done].
      - intros sym [->|?]%elem_of_cons; [|by auto]. by exists row, col. }
    case_bool_decide as Hrc.
    + apply bind_Ok in H as (m & Hm%table_get_Ok & H). destruct m.
      * injection H as <-. exists c, row, col. split_and!; [by left|done..].
      * apply Hrest; [done|by right].
    + apply Hrest; [done|]. left. lia.
Qed.

Lemma scan_symbols_total T i j syms :
  table_dims n T →
  (∀ symbol, symbol ∈ syms → ∃ row col, succ_pair i j symbol row col) →
  ∃ b, scan_symbols dfa sts state_map T i j syms = Ok b.
Proof.
  intros Hdims. induction syms as [|c syms IH]; intros Hsp; [by eexists|].
  destruct (Hsp c) as (row & col & Hc); [by left|].
  rewrite (scan_symbols_cons _ _ _ _ _ _ _ Hc).
  destruct IH as [b Hb]; [intros ? ?; apply Hsp; by right|].
  pose proof (succ_pair_lt _ _ _ _ _ Hc).
  case_bool_decide; [|by eauto].
  rewrite (table_get_total n) by (done || lia). simpl.
  destruct (is_marked T row col); eauto.
Qed.

Lemma closure_inner_Ok i j T ch st' :
  closure_inner dfa sts state_map i (T, ch) j = Ok st' →
  (is_marked T i j = true ∧ st' = (T, ch)) ∨
  (is_marked T i j = false ∧
   scan_symbols dfa sts state_map T i j (iter (alphabet dfa)) = Ok false ∧
   st' = (T, ch)) ∨
  (is_marked T i j = false ∧
   scan_symbols dfa sts state_map T i j (iter (alphabet dfa)) = Ok true ∧
   ∃ T', table_mark T i j = Ok T' ∧ st' = (T', true)).
Proof.
  unfold closure_inner. simpl.
  intros (m & Hm%table_get_Ok & H)%bind_Ok. destruct m.
  - left. by injection H as <-.
  - apply bind_Ok in H as (hit & Hhit & H). destruct hit.
    + apply bind_Ok in H as (T' & HT' & [= <-]). right; right. eauto.
    + injection H as <-. right; left. done.
Qed.

Lemma closure_inner_total i j T ch :
  table_dims n T → (i < j < n)%nat →
  (∀ symbol, symbol ∈ alphabet dfa → ∃ row col, succ_pair i j symbol row col) →
  ∃ st', closure_inner dfa sts state_map i (T, ch) j = Ok st'.
Proof.
  intros Hdims Hij Hsp. unfold closure_inner. simpl.
  rewrite (table_get_total n) by (done || lia). simpl.
  destruct (is_marked T i j); [by eauto|].
  destruct (scan_symbols_total T i j (iter (alphabet dfa)) Hdims) as [b ->].
  { intros ? ?%elem_of_iter. auto. }
  simpl. destruct b; [|by eauto].
  destruct (table_mark_total n T i j) as [T' ->]; [done|lia|lia|].
  simpl. eauto.
Qed.

(** Marks are sound, and the base case is kept. *)
Definition table_ok (T : list (list bool)) : Prop :=
  table_dims n T ∧
  (∀ i j, is_marked T i j = true → (i < j < n)%nat ∧ dist i j) ∧
  (∀ i j, (i < j < n)%nat → differ i j → is_marked T i j = true).

Definition table_le (T T' : list (list bool)) : Prop :=
  ∀ i j, is_marked T i j = true → is_marked T' i j = true.

(** No pair is left to mark. *)
Definition stable (T : list (list bool)) : Prop :=
  ∀ i j, (i < j < n)%nat → is_marked T i j = false →
    scan_symbols dfa sts state_map T i j (iter (alphabet dfa)) = Ok false.

Lemma differ_dist i j : differ i j → dist i j.
Proof.
  intros (s & t & Hs & Ht & Hne). exists s, t. split_and!; [done..|].
  exists []. split; [constructor|]. done.
Qed.

Lemma succ_pair_dist i j symbol row col :
  symbol ∈ alphabet dfa → succ_pair i j symbol row col → row ≠ col →
  dist row col → dist i j.
Proof.
  intros Hsym (si & sj & n1 & n2 & i1 & i2 & Hsi & Hsj & Hd1 & Hd2 & H1 & H2
               & -> & ->) Hne (s & t & Hs & Ht & Hdist).
  apply state_map_spec in H1, H2.
  exists si, sj. split_and!; [done..|].
  destruct (decide (i1 ≤ i2)%nat) as [Hle|Hgt].
  - rewrite Nat.min_l in Hs by done. rewrite Nat.max_r in Ht by done.
    assert (s = n1) as -> by congruence. assert (t = n2) as -> by congruence.
    by eapply distinguishable_step.
  - rewrite Nat.min_r in Hs by lia. rewrite Nat.max_l in Ht by lia.
    assert (s = n2) as -> by congruence. assert (t = n1) as -> by congruence.
    eapply distinguishable_step; [done..|]. by apply distinguishable_sym.
Qed.

Lemma closure_inner_ok i j T ch T' ch' :
  (i < j < n)%nat → table_ok T →
  closure_inner dfa sts state_map i (T, ch) j = Ok (T', ch') →
  table_ok T' ∧ table_le T T' ∧
  ((T' = T ∧ ch' = ch) ∨
   (ch' = true ∧ is_marked T i j = false ∧ is_marked T' i j = true)).
Proof.
  intros Hij (Hd & Hs & Hb) H.
  apply closure_inner_Ok in H
    as [[_ [= -> ->]]|[(_ & _ & [= -> ->])|(Hm & Hscan & T'' & HT'' & [= -> ->])]].
  - split; [done|]. split; [by intros ? ?|by left].
  - split; [done|]. split; [by intros ? ?|by left].
  - pose proof (table_mark_Ok _ _ _ _ HT'') as Hmark.
    apply scan_symbols_Ok in Hscan
      as (symbol & row & col & Hsym%elem_of_iter & Hsp & Hne & Hrc).
    split_and!.
    + split_and!.
      * by eapply table_mark_dims.
      * intros i' j' [Hold|[-> ->]]%Hmark; [by apply Hs|].
        split; [done|]. eapply succ_pair_dist; [done..|]. by apply Hs.
      * intros i' j' ? ?. apply Hmark. left. by apply Hb.
    + intros i' j' ?. apply Hmark. by left.
    + right. split_and!; [done..|]. apply Hmark. by right.
Qed.

Lemma closure_pass_pairs T :
  closure_pass dfa sts state_map n T =
  for_each (pairs n)
    (λ st p, closure_inner dfa sts state_map p.1 st p.2) (T, false).
Proof.
  unfold closure_pass.
  by rewrite (for_each_nested (range 0 n) (λ i, range (i + 1) n)
                (closure_inner dfa sts state_map)).
Qed.

(** A pass that reports a change has marked a pair that was not marked;
    one that reports none has left the table as it was, and no pair can
    be marked any more. *)
Lemma closure_pass_ok T T' ch :
  table_ok T → closure_pass dfa sts state_map n T = Ok (T', ch) →
  table_ok T' ∧ table_le T T' ∧
  if ch then
    ∃ i j, (i < j < n)%nat ∧ is_marked T i j = false ∧ is_marked T' i j = true
  else T' = T ∧ stable T.
Proof.
  intros Hok. rewrite closure_pass_pairs. intros H.
  apply (for_each_inv_prefix (λ pre st,
    table_ok st.1 ∧ table_le T st.1 ∧
    if st.2 : bool then
      ∃ i j, (i < j < n)%nat ∧ is_marked T i j = false ∧
             is_marked st.1 i j = true
    else
      st.1 = T ∧
      ∀ i j, (i, j) ∈ pre → is_marked T i j = false →
        scan_symbols dfa sts state_map T i j (iter (alphabet dfa)) = Ok false))
    in H.
  - destruct H as (? & ? & Hc). simpl in *. split; [done|]. split; [done|].
    destruct ch; [done|]. destruct Hc as [-> Hst]. split; [done|].
    intros i j Hij. apply Hst. by apply elem_of_pairs.
  - simpl. split; [done|]. split; [by intros ? ?|]. split; [done|].
    by intros ? ? ?%elem_of_nil.
  - intros pre [i j] post [T1 ch1] [T2 ch2] Hl (Hok1 & Hle1 & Hc1) Hbody.
    simpl in *.
    assert (i < j < n)%nat as Hij.
    { apply elem_of_pairs. rewrite Hl. apply elem_of_app. right. by left. }
    pose proof Hbody as Hcases. apply closure_inner_Ok in Hcases.
    destruct (closure_inner_ok _ _ _ _ _ _ Hij Hok1 Hbody) as (Hok2 & Hle2 & Hc2).
    split; [done|]. split; [intros ? ? ?; by apply Hle2, Hle1|].
    destruct ch2.
    + destruct ch1.
      * destruct Hc1 as (i0 & j0 & ? & ? & ?). exists i0, j0.
        split; [done|]. split; [done|]. by apply Hle2.
      * simpl in Hc1. destruct Hc1 as [-> _].
        destruct Hc2 as [[_ ?]|(_ & ? & ?)]; [done|]. by exists i, j.
    + destruct Hc2 as [[-> Hch]|[? _]]; [|done]. subst ch1. simpl in Hc1.
      destruct Hc1 as [-> Hst].
      split; [done|].
      intros i' j' [Hin|[= -> ->]%list_elem_of_singleton]%elem_of_app Hm;
        [by apply Hst|].
      destruct Hcases as [[Hm' _]|[(_ & Hscan & _)|(_ & _ & T'' & _ & Heq)]];
        [congruence|done|by injection Heq].
Qed.

Lemma closure_ok fuel T T' :
  table_ok T → closure dfa sts state_map fuel n T = Ok T' →
  table_ok T' ∧ stable T' ∧ table_le T T'.
Proof.
  revert T. induction fuel as [|fuel IH]; intros T Hok; simpl; [done|].
  intros ([T1 ch] & Hpass & H)%bind_Ok. simpl in H.
  destruct (closure_pass_ok _ _ _ Hok Hpass) as (Hok1 & Hle & Hc).
  destruct ch.
  - destruct (IH T1 Hok1 H) as (? & ? & Hle'). split; [done|]. split; [done|].
    intros ? ? ?. by apply Hle', Hle.
  - injection H as <-. destruct Hc as [-> ?]. split; [done|]. split; [done|].
    by intros ? ?.
Qed.

(** *** Termination of the closure loop *)

Definition unmarked_count (T : list (list bool)) : nat :=
  length (filter (λ p, is_marked T p.1 p.2 = false) (pairs n)).

Lemma unmarked_count_le T : (unmarked_count T ≤ length (pairs n))%nat.
Proof. apply length_filter. Qed.

Lemma unmarked_count_lt T T' i j :
  table_le T T' → (i < j < n)%nat →
  is_marked T i j = false → is_marked T' i j = true →
  (unmarked_count T' < unmarked_count T)%nat.
Proof.
  intros Hle Hij Hm Hm'. unfold unmarked_count.
  apply (filter_length_lt _ _ _ (i, j)); simpl.
  - intros [i' j'] _. simpl. intros Hu.
    destruct (is_marked T i' j') eqn:E; [|done].
    apply Hle in E. congruence.
  - by apply elem_of_pairs.
  - done.
  - congruence.
Qed.

Lemma scan_symbols_no_timeout T i j syms :
  scan_symbols dfa sts state_map T i j syms ≠ NoFuel.
Proof.
  induction syms as [|c syms IH]; simpl; [done|].
  repeat (apply bind_no_timeout;
          [first [apply getidx_no_timeout|apply getitem_no_timeout]|intros ?]).
  case_bool_decide; [|done].
  apply bind_no_timeout; [apply table_get_no_timeout|].
  by intros [].
Qed.

Lemma closure_pass_no_timeout T :
  closure_pass dfa sts state_map n T ≠ NoFuel.
Proof.
  rewrite closure_pass_pairs. apply for_each_no_timeout.
  intros st [i j]. unfold closure_inner. simpl.
  apply bind_no_timeout; [apply table_get_no_timeout|]. intros [] ; [done|].
  apply bind_no_timeout; [apply scan_symbols_no_timeout|]. intros []; [|done].
  apply bind_no_timeout; [apply table_mark_no_timeout|done].
Qed.

(** The loop makes at most as many passes that report a change as there
    are unmarked pairs. *)
Lemma closure_no_timeout fuel T :
  table_ok T → (unmarked_count T < fuel)%nat →
  closure dfa sts state_map fuel n T ≠ NoFuel.
Proof.
  revert T. induction fuel as [|fuel IH]; intros T Hok Hfuel; [lia|].
  simpl. pose proof (closure_pass_no_timeout T) as Hnt.
  destruct (closure_pass dfa sts state_map n T) as [[T1 ch]| |] eqn:E;
    simpl; [|done|done].
  destruct (closure_pass_ok _ _ _ Hok E) as (Hok1 & Hle & Hc).
  destruct ch; [|done].
  destruct Hc as (i & j & Hij & Hm & Hm').
  apply IH; [done|].
  pose proof (unmarked_count_lt T T1 i j Hle Hij Hm Hm'). lia.
Qed.

(** *** The loop on an automaton whose transitions stay among [sts] *)

Definition total_on_sts : Prop :=
  ∀ s symbol, s ∈ sts → symbol ∈ alphabet dfa →
    ∃ t, delta dfa s symbol = Some t ∧ t ∈ sts.

Lemma succ_pair_total i j symbol :
  total_on_sts → (i < n)%nat → (j < n)%nat → symbol ∈ alphabet dfa →
  ∃ row col, succ_pair i j symbol row col.
Proof.
  intros Htot Hi Hj Hsym.
  destruct (lookup_lt_is_Some_2 sts i Hi) as [si Hsi].
  destruct (lookup_lt_is_Some_2 sts j Hj) as [sj Hsj].
  destruct (Htot si symbol) as (n1 & Hd1 & (i1 & Hi1)%list_elem_of_lookup);
    [by eapply list_elem_of_lookup_2|done|].
  destruct (Htot sj symbol) as (n2 & Hd2 & (i2 & Hi2)%list_elem_of_lookup);
    [by eapply list_elem_of_lookup_2|done|].
  exists (i1 `min` i2), (i1 `max` i2), si, sj, n1, n2, i1, i2.
  split_and!; try done; by apply state_map_spec.
Qed.

Lemma closure_pass_total T :
  total_on_sts → table_ok T →
  ∃ st, closure_pass dfa sts state_map n T = Ok st.
Proof.
  intros Htot Hok. rewrite closure_pass_pairs.
  destruct (for_each_total (λ st : list (list bool) * bool, table_ok st.1)
    (pairs n) (λ st p, closure_inner dfa sts state_map p.1 st p.2) (T, false))
    as (st & Hst & _); [done| |by eauto].
  intros [T1 ch1] [i j] Hij%elem_of_pairs Hok1. simpl in *.
  destruct (closure_inner_total i j T1 ch1) as [[T2 ch2] H2];
    [by destruct Hok1|done| |].
  { intros symbol ?. apply succ_pair_total; [done|lia|lia|done]. }
  exists (T2, ch2). split; [done|].
  by destruct (closure_inner_ok _ _ _ _ _ _ Hij Hok1 H2) as [? _].
Qed.

Lemma closure_total fuel T :
  total_on_sts → table_ok T → (unmarked_count T < fuel)%nat →
  ∃ T', closure dfa sts state_map fuel n T = Ok T'.
Proof.
  intros Htot. revert T. induction fuel as [|fuel IH]; intros T Hok Hfuel; [lia|].
  simpl. destruct (closure_pass_total T Htot Hok) as [[T1 ch] E].
  rewrite E. simpl.
  destruct (closure_pass_ok _ _ _ Hok E) as (Hok1 & Hle & Hc).
  destruct ch; [|by eauto].
  destruct Hc as (i & j & Hij & Hm & Hm').
  apply IH; [done|].
  pose proof (unmarked_count_lt T T1 i j Hle Hij Hm Hm'). lia.
Qed.

(** *** What the final table says *)

Definition unmarked_rel (T : list (list bool)) (s t : string) : Prop :=
  s = t ∨
  ∃ i j, sts !! i = Some s ∧ sts !! j = Some t ∧ i ≠ j ∧
         is_marked T (i `min` j) (i `max` j) = false.

Lemma unmarked_rel_sym T s t : unmarked_rel T s t → unmarked_rel T t s.
Proof.
  intros [->|(i & j & ? & ? & ? & Hm)]; [by left|]. right. exists j, i.
  rewrite Nat.min_comm, Nat.max_comm. done.
Qed.

Lemma unmarked_rel_step_lt T i j s t symbol :
  stable T → sts !! i = Some s → sts !! j = Some t → (i < j)%nat →
  is_marked T i j = false → symbol ∈ alphabet dfa →
  ∃ s' t', delta dfa s symbol = Some s' ∧ delta dfa t symbol = Some t' ∧
           unmarked_rel T s' t'.
Proof.
  intros Hst Hs Ht Hij Hm Hsym.
  assert (j < n)%nat by (by eapply lookup_lt_Some).
  pose proof (Hst i j (conj Hij H) Hm) as Hscan.
  apply scan_symbols_Ok in Hscan.
  destruct (Hscan symbol) as (row & col & Hsp & Hrc); [by apply elem_of_iter|].
  destruct Hsp as (si & sj & n1 & n2 & i1 & i2 & Hsi & Hsj & Hd1 & Hd2 & H1
                   & H2 & -> & ->).
  assert (si = s) as -> by congruence. assert (sj = t) as -> by congruence.
  exists n1, n2. split_and!; [done..|].
  apply state_map_spec in H1, H2.
  destruct (decide (i1 = i2)) as [->|Hne].
  - left. congruence.
  - right. exists i1, i2. split_and!; [done..|].
    destruct Hrc as [?|?]; [lia|done].
Qed.

Lemma unmarked_rel_step T s t symbol :
  stable T → unmarked_rel T s t → symbol ∈ alphabet dfa →
  s = t ∨
  ∃ s' t', delta dfa s symbol = Some s' ∧ delta dfa t symbol = Some t' ∧
           unmarked_rel T s' t'.
Proof.
  intros Hst [->|(i & j & Hs & Ht & Hne & Hm)] Hsym; [by left|]. right.
  destruct (decide (i < j)%nat) as [Hlt|Hge].
  - rewrite Nat.min_l, Nat.max_r in Hm by lia.
    by eapply unmarked_rel_step_lt.
  - rewrite Nat.min_r, Nat.max_l in Hm by lia.
    destruct (unmarked_rel_step_lt T j i t s symbol) as (t' & s' & ? & ? & ?);
      [done..|lia|done|done|].
    exists s', t'. split_and!; [done..|]. by apply unmarked_rel_sym.
Qed.

Lemma unmarked_rel_final T s t :
  table_ok T → unmarked_rel T s t → is_final s = is_final t.
Proof.
  intros (_ & _ & Hb) [->|(i & j & Hs & Ht & Hne & Hm)]; [done|].
  destruct (decide (is_final s = is_final t)) as [|Hd]; [done|]. exfalso.
  assert (i < n)%nat by (by eapply lookup_lt_Some).
  assert (j < n)%nat by (by eapply lookup_lt_Some).
  destruct (decide (i < j)%nat) as [Hlt|Hge].
  - rewrite Nat.min_l, Nat.max_r in Hm by lia.
    rewrite Hb in Hm; [done|lia|]. by exists s, t.
  - rewrite Nat.min_r, Nat.max_l in Hm by lia.
    rewrite Hb in Hm; [done|lia|]. exists t, s. split_and!; [done..|]. congruence.
Qed.

Lemma unmarked_rel_nerode T s t :
  table_ok T → stable T → unmarked_rel T s t → nerode dfa s t.
Proof.
  intros Hok Hst Hrel w. revert s t Hrel.
  induction w as [|c w IH]; intros s t Hrel Hw.
  - unfold accepts_from. simpl. by apply (unmarked_rel_final T).
  - apply Forall_cons in Hw as [Hc Hw].
    destruct (unmarked_rel_step T s t c Hst Hrel Hc)
      as [->|(s' & t' & Hs' & Ht' & Hrel')]; [done|].
    rewrite (accepts_from_cons dfa s c w s'), (accepts_from_cons dfa t c w t')
      by done.
    by apply IH.
Qed.

(** In the final table a pair is unmarked exactly when its two states are
    equivalent. *)
Lemma unmarked_iff_nerode T i j s t :
  table_ok T → stable T → (i < j)%nat →
  sts !! i = Some s → sts !! j = Some t →
  is_marked T i j = false ↔ nerode dfa s t.
Proof.
  intros Hok Hst Hij Hs Ht. split.
  - intros Hm. apply (unmarked_rel_nerode T); [done..|]. right. exists i, j.
    rewrite Nat.min_l, Nat.max_r by lia. split_and!; [done..|lia|done].
  - intros Hn. destruct (is_marked T i j) eqn:E; [|done]. exfalso.
    destruct Hok as (_ & Hs' & _).
    destruct (Hs' i j E) as (_ & s' & t' & ? & ? & Hd).
    assert (s' = s) as -> by congruence. assert (t' = t) as -> by congruence.
    by eapply distinguishable_not_nerode.
Qed.

(** *** Grouping *)

Lemma range_split lo hi pre i post :
  range lo hi = pre ++ i :: post →
  (lo ≤ i < hi)%nat ∧ ∀ k, k ∈ pre ↔ (lo ≤ k < i)%nat.
Proof.
  unfold range. intros Hl.
  assert (seq lo (hi - lo) !! length pre = Some i) as Hi.
  { rewrite Hl. by apply list_lookup_middle. }
  apply lookup_seq in Hi as [-> Hlen].
  split; [lia|]. intros k.
  assert (pre = take (length pre) (seq lo (hi - lo))) as ->.
  { rewrite Hl. by rewrite take_app_length. }
  rewrite take_seq, elem_of_seq, length_seq. lia.
Qed.

Lemma group_inner_loop T i cur0 vis0 :
  table_dims n T → (i < n)%nat →
  ∃ cur vis,
    for_each (range (i + 1) n) (group_inner sts T i) (cur0, vis0)
      = Ok (cur, vis) ∧
    (∀ t, t ∈ cur ↔
          t ∈ cur0 ∨
          ∃ j, (i < j)%nat ∧ sts !! j = Some t ∧ is_marked T i j = false) ∧
    (∀ t, t ∈ vis ↔
          t ∈ vis0 ∨
          ∃ j, (i < j)%nat ∧ sts !! j = Some t ∧ is_marked T i j = false).
Proof.
  intros Hdims Hi.
  destruct (for_each_total_prefix (λ pre (st : gset string * gset string),
    (∀ t, t ∈ st.1 ↔
          t ∈ cur0 ∨
          ∃ j, j ∈ pre ∧ sts !! j = Some t ∧ is_marked T i j = false) ∧
    (∀ t, t ∈ st.2 ↔
          t ∈ vis0 ∨
          ∃ j, j ∈ pre ∧ sts !! j = Some t ∧ is_marked T i j = false))
    (range (i + 1) n) (group_inner sts T i) (cur0, vis0))
    as ([cur vis] & Hrun & Hcur & Hvis).
  - simpl. split; intros t; (split; [by left|]);
      (intros [?|(j & ?%elem_of_nil & _)]; done).
  - intros pre j post [cur vis] Hl [Hcur Hvis]. simpl in Hcur, Hvis.
    apply range_split in Hl as [[Hij Hj] Hpre].
    unfold group_inner. rewrite (table_get_total n) by (done || lia). simpl.
    destruct (is_marked T i j) eqn:Em.
    + exists (cur, vis). split; [done|]. simpl.
      split; intros t; [rewrite Hcur|rewrite Hvis]; (split;
        [intros [?|(j' & ? & ? & ?)]; [by left|right; exists j';
           split_and!; [apply elem_of_app; by left|done..]]
        |intros [?|(j' & [?| ->]%elem_of_snoc & ? & ?)];
           [by left|right; by exists j'|congruence]]).
    + destruct (lookup_lt_is_Some_2 sts j) as [sj Hsj]; [lia|].
      unfold getidx. rewrite Hsj. simpl. eexists. split; [done|]. simpl.
      split; intros t; rewrite elem_of_union, elem_of_singleton;
        [rewrite Hcur|rewrite Hvis]; (split;
        [intros [->|[?|(j' & ? & ? & ?)]];
           [right; exists j; split_and!; [apply elem_of_app; right; by left|done..]
           |by left
           |right; exists j'; split_and!; [apply elem_of_app; by left|done..]]
        |intros [?|(j' & [?| ->]%elem_of_snoc & ? & ?)];
           [right; by left|right; right; by exists j'|left; congruence]]).
  - exists cur, vis. split; [done|]. simpl in Hcur, Hvis.
    split; intros t; [rewrite Hcur|rewrite Hvis];
      (split; (intros [?|(j & Hj & ? & ?)]; [by left|right; exists j]);
       [apply elem_of_range in Hj|]; (split_and!; [|done..]);
       [lia|apply elem_of_range; split; [lia|by eapply lookup_lt_Some]]).
Qed.

(** [p] is the class of the state [s]. *)
Definition block_of (p : gset string) (s : string) : Prop :=
  s ∈ sts ∧ ∀ t, t ∈ p ↔ t ∈ sts ∧ nerode dfa s t.

Definition pairwise_disjoint (ps : list (gset string)) : Prop :=
  ∀ k1 k2 p1 p2, ps !! k1 = Some p1 → ps !! k2 = Some p2 → k1 ≠ k2 → p1 ## p2.

Definition partition_ok (ps : list (gset string)) : Prop :=
  (∀ p, p ∈ ps → ∃ s, block_of p s) ∧
  (∀ s, s ∈ sts → ∃ p, p ∈ ps ∧ s ∈ p) ∧
  pairwise_disjoint ps.

Lemma block_of_same p s t : block_of p s → t ∈ p → block_of p t.
Proof.
  intros [Hs Hp] Ht. destruct (Hp t) as [Hp1 _].
  destruct (Hp1 Ht) as [HtS Hn]. split; [done|]. intros u. rewrite Hp.
  split; intros [? ?]; (split; [done|]).
  - eapply nerode_trans; [by apply nerode_sym|done].
  - by eapply nerode_trans.
Qed.

Lemma block_of_self p s : block_of p s → s ∈ p.
Proof. intros [Hs Hp]. apply Hp. split; [done|apply nerode_refl]. Qed.

Lemma group_spec T :
  table_dims n T →
  (∀ i j s t, (i < j)%nat → sts !! i = Some s → sts !! j = Some t →
     is_marked T i j = false ↔ nerode dfa s t) →
  ∃ ps, group sts T n = Ok ps ∧ partition_ok ps.
Proof.
  intros Hdims Hner. unfold group.
  destruct (for_each_total_prefix
    (λ pre (st : list (gset string) * gset string),
       (∀ p, p ∈ st.1 → ∃ s, block_of p s) ∧
       (∀ t, t ∈ st.2 ↔ ∃ p, p ∈ st.1 ∧ t ∈ p) ∧
       (∀ k s, k ∈ pre → sts !! k = Some s → s ∈ st.2) ∧
       pairwise_disjoint st.1)
    (range 0 n) (group_outer sts T n) ([], ∅))
    as ([ps vis] & Hrun & Hblk & Hvis & Hproc & Hdisj).
  - simpl. split_and!.
    + by intros ? ?%elem_of_nil.
    + intros t. split; [by intros ?%not_elem_of_empty|].
      by intros (? & ?%elem_of_nil & _).
    + by intros ? ? ?%elem_of_nil.
    + by intros k1 k2 p1 p2 ?.
  - intros pre i post [ps vis] Hl (Hblk & Hvis & Hproc & Hdisj).
    simpl in Hblk, Hvis, Hproc, Hdisj.
    apply range_split in Hl as [[_ Hi] Hpre].
    destruct (lookup_lt_is_Some_2 sts i) as [si Hsi]; [lia|].
    unfold group_outer, getidx. rewrite Hsi. simpl.
    case_bool_decide as Hin.
    + exists (ps, vis). split; [done|]. simpl. split_and!; [done..| |done].
      intros k s [?| ->]%elem_of_snoc Hs; [by eauto|].
      congruence.
    + destruct (group_inner_loop T i {[si]} ({[si]} ∪ vis) Hdims Hi)
        as (cur & vis' & -> & Hcur & Hvis').
      simpl. eexists. split; [done|]. simpl.
      assert (block_of cur si) as Hbcur.
      { split; [by eapply list_elem_of_lookup_2|]. intros t. rewrite Hcur.
        rewrite elem_of_singleton. split.
        - intros [->|(j & Hij & Hj & Hm)].
          + split; [by eapply list_elem_of_lookup_2|apply nerode_refl].
          + split; [by eapply list_elem_of_lookup_2|]. by eapply Hner.
        - intros [(j & Hj)%list_elem_of_lookup Hn].
          destruct (decide (i < j)%nat) as [Hlt|Hge].
          { right. exists j. split_and!; [done..|]. by eapply Hner. }
          destruct (decide (j = i)) as [->|Hne]; [left; congruence|].
          exfalso. apply Hin.
          assert (t ∈ vis) as Htv by (apply (Hproc j); [apply Hpre; lia|done]).
          apply Hvis in Htv as (p & Hp & Htp). apply Hvis. exists p.
          split; [done|]. destruct (Hblk p Hp) as (s0 & Hs0).
          pose proof (block_of_same p s0 t Hs0 Htp) as [_ Hpt].
          apply Hpt. split; [by eapply list_elem_of_lookup_2|by apply nerode_sym]. }
      assert (∀ p, p ∈ ps → p ## cur) as Hnew.
      { intros p Hp u Hup Huc. apply Hin. apply Hvis. exists p. split; [done|].
        destruct (Hblk p Hp) as (s0 & Hs0).
        pose proof (block_of_same p s0 u Hs0 Hup) as [_ Hpu].
        pose proof (block_of_self cur si Hbcur) as Hsic.
        pose proof (block_of_same cur si u Hbcur Huc) as [_ Hcu].
        apply Hpu. by apply Hcu in Hsic. }
      split_and!.
      * intros p [?| ->]%elem_of_snoc; [by auto|by exists si].
      * intros t. rewrite Hvis', elem_of_union, elem_of_singleton. split.
        -- intros [[->|Htv]|Hj].
           ++ exists cur. split; [apply elem_of_app; right; by left|].
              by apply block_of_self.
           ++ apply Hvis in Htv as (p & ? & ?). exists p.
              split; [apply elem_of_app; by left|done].
           ++ exists cur. split; [apply elem_of_app; right; by left|].
              apply Hcur. by right.
        -- intros (p & [Hp| ->]%elem_of_snoc & Htp).
           ++ left. right. apply Hvis. by exists p.
           ++ apply Hcur in Htp as [Ht%elem_of_singleton|?]; [left; left; done|by right].
      * intros k s [Hk| ->]%elem_of_snoc Hs.
        -- apply Hvis'. left. apply elem_of_union_r. by eapply Hproc.
        -- apply Hvis'. left. apply elem_of_union_l, elem_of_singleton. congruence.
      * intros k1 k2 p1 p2 H1 H2 Hne.
        apply lookup_app_Some in H1 as [H1|[Hk1 H1]];
          apply lookup_app_Some in H2 as [H2|[Hk2 H2]].
        -- by eapply Hdisj.
        -- apply list_lookup_singleton_Some in H2 as [_ <-].
           apply Hnew. by eapply list_elem_of_lookup_2.
        -- apply list_lookup_singleton_Some in H1 as [_ <-].
           symmetry. apply Hnew. by eapply list_elem_of_lookup_2.
        -- apply list_lookup_singleton_Some in H1 as [? _].
           apply list_lookup_singleton_Some in H2 as [? _]. lia.
  - exists ps. split; [by rewrite Hrun|]. simpl in *. split_and!; [done| |done].
    intros s (k & Hk)%list_elem_of_lookup. apply Hvis. apply (Hproc k); [|done].
    apply elem_of_range. split; [lia|]. by eapply lookup_lt_Some.
Qed.

(** *** The new automaton *)

Lemma lookup2_Some tr s symbol t :
  lookup2 tr s symbol = Some t ↔
  ∃ row, tr !! s = Some row ∧ row !! symbol = Some t.
Proof.
  unfold lookup2. destruct (tr !! s) as [row|]; simpl.
  - split; [eauto|]. by intros (? & [= <-] & ?).
  - split; [done|]. by intros (? & ? & ?).
Qed.

Lemma lookup2_insert tr k c x name symbol :
  lookup2 (<[k := <[c := x]> (default ∅ (tr !! k))]> tr) name symbol =
  if bool_decide (name = k ∧ symbol = c) then Some x
  else lookup2 tr name symbol.
Proof.
  unfold lookup2. destruct (decide (name = k)) as [->|Hne].
  - rewrite lookup_insert_eq. simpl.
    destruct (decide (symbol = c)) as [->|Hnec].
    + rewrite lookup_insert_eq. by rewrite bool_decide_eq_true_2.
    + rewrite lookup_insert_ne by done.
      rewrite bool_decide_eq_false_2 by (by intros [_ ?]).
      by destruct (tr !! k).
  - rewrite lookup_insert_ne by done.
    by rewrite bool_decide_eq_false_2 by (by intros [? _]).
Qed.

Section Rebuild.

Variable ps : list (gset string).
Hypothesis ps_ok : partition_ok ps.
Hypothesis dfa_total : total_on_sts.

Local Abbreviation pm := (make_partition_map ps).
Local Abbreviation names := (make_state_names ps).

Lemma ps_block p : p ∈ ps → ∃ s, block_of p s.
Proof. destruct ps_ok as (H & _ & _). apply H. Qed.

Lemma ps_nonempty p : p ∈ ps → ∃ s, s ∈ p.
Proof. intros (s & Hs)%ps_block. exists s. by apply block_of_self. Qed.

Lemma ps_sub p s : p ∈ ps → s ∈ p → s ∈ sts.
Proof.
  intros (s0 & Hs0)%ps_block Hs.
  by destruct (block_of_same p s0 s Hs0 Hs) as [? _].
Qed.

Lemma ps_NoDup : NoDup ps.
Proof.
  apply NoDup_alt. intros k1 k2 p H1 H2.
  destruct (decide (k1 = k2)) as [|Hne]; [done|]. exfalso.
  destruct ps_ok as (_ & _ & Hd).
  destruct (ps_nonempty p) as (s & Hs); [by eapply list_elem_of_lookup_2|].
  by apply (Hd k1 k2 p p H1 H2 Hne s).
Qed.

Lemma ps_unique p p' s : p ∈ ps → p' ∈ ps → s ∈ p → s ∈ p' → p = p'.
Proof.
  intros (k1 & H1)%list_elem_of_lookup (k2 & H2)%list_elem_of_lookup Hs Hs'.
  destruct (decide (k1 = k2)) as [->|Hne]; [congruence|]. exfalso.
  destruct ps_ok as (_ & _ & Hd).
  by apply (Hd k1 k2 p p' H1 H2 Hne s).
Qed.

Lemma names_lookup p x :
  names !! p = Some x ↔ ∃ k, ps !! k = Some p ∧ x = "q" +:+ pretty k.
Proof.
  unfold make_state_names.
  apply (dict_of_imap_lookup (λ i _, "q" +:+ pretty i)), ps_NoDup.
Qed.

Lemma names_is_Some p : p ∈ ps → is_Some (names !! p).
Proof.
  intros (k & Hk)%list_elem_of_lookup. exists ("q" +:+ pretty k).
  apply names_lookup. eauto.
Qed.

Lemma names_elem p x : names !! p = Some x → p ∈ ps.
Proof.
  intros (k & Hk & _)%names_lookup. by eapply list_elem_of_lookup_2.
Qed.

Lemma names_inj p p' x : names !! p = Some x → names !! p' = Some x → p = p'.
Proof.
  intros (k & Hk & ->)%names_lookup (k' & Hk' & Heq)%names_lookup.
  apply (inj (String.app "q")), (inj pretty) in Heq. subst k'.
  rewrite Hk in Hk'. by injection Hk'.
Qed.

Lemma pm_Some s p : pm !! s = Some p → p ∈ ps ∧ s ∈ p.
Proof.
  unfold make_partition_map. intros Hl%dict_of_Some.
  apply list_elem_of_bind in Hl as (p0 & Hl & Hp0).
  apply list_elem_of_fmap in Hl as (s0 & Heq & Hs0%elem_of_iter).
  injection Heq as -> ->. done.
Qed.

Lemma pm_is_Some s : s ∈ sts → ∃ p, pm !! s = Some p.
Proof.
  intros Hs. destruct ps_ok as (_ & Hcov & _).
  destruct (Hcov s Hs) as (p & Hp & Hsp).
  apply (dict_of_is_Some (K:=string)). apply list_elem_of_fmap.
  exists (s, p). split; [done|]. apply list_elem_of_bind. exists p.
  split; [|done]. apply list_elem_of_fmap. exists s.
  split; [done|]. by apply elem_of_iter.
Qed.

Lemma pm_block s p : pm !! s = Some p → block_of p s.
Proof.
  intros [Hp Hs]%pm_Some. destruct (ps_block p Hp) as (s0 & Hs0).
  by eapply block_of_same.
Qed.

Lemma pm_of_block s p : p ∈ ps → s ∈ p → pm !! s = Some p.
Proof.
  intros Hp Hs. destruct (pm_is_Some s) as (p' & Hp'); [by eapply ps_sub|].
  rewrite Hp'. f_equal. apply pm_Some in Hp' as [? ?].
  by eapply ps_unique.
Qed.

(** The name of the class of a state. *)
Definition name_of (s x : string) : Prop :=
  ∃ p, pm !! s = Some p ∧ names !! p = Some x.

Lemma name_of_total s : s ∈ sts → ∃ x, name_of s x.
Proof.
  intros (p & Hp)%pm_is_Some.
  destruct (names_is_Some p) as [x Hx]; [by apply pm_Some in Hp as [? _]|].
  exists x, p. done.
Qed.

Lemma name_of_nerode s t x :
  t ∈ sts → name_of s x → nerode dfa s t → name_of t x.
Proof.
  intros Ht (p & Hp & Hx) Hn. exists p. split; [|done].
  pose proof (pm_block s p Hp) as [_ Hb].
  apply pm_of_block; [by apply pm_Some in Hp as [? _]|]. by apply Hb.
Qed.

Lemma make_final_states_spec :
  ∃ F', make_final_states dfa names ps = Ok F' ∧
        ∀ x, x ∈ F' ↔
             ∃ p, p ∈ ps ∧ ¬ p ## final_states dfa ∧ names !! p = Some x.
Proof.
  unfold make_final_states.
  destruct (for_each_total_prefix (λ pre (acc : gset string),
      (∀ p, p ∈ pre → p ∈ ps) ∧
      ∀ x, x ∈ acc ↔
           ∃ p, p ∈ pre ∧ ¬ p ## final_states dfa ∧ names !! p = Some x)
    ps (λ acc p,
          if bool_decide (p ## final_states dfa) then Ok acc
          else name ← getitem names p; Ok ({[name]} ∪ acc)) ∅)
    as (F' & HF & _ & Hspec).
  - split; [by intros ? ?%elem_of_nil|]. intros x.
    split; [by intros ?%not_elem_of_empty|]. by intros (? & ?%elem_of_nil & _).
  - intros pre p post acc Hl [Hsub Hacc].
    assert (p ∈ ps) as Hp by (rewrite Hl; apply elem_of_app; right; by left).
    assert (∀ p', p' ∈ pre ++ [p] → p' ∈ ps) as Hsub'.
    { intros p' [?| ->]%elem_of_snoc; auto. }
    case_bool_decide as Hd.
    + exists acc. split; [done|]. split; [done|]. intros x. rewrite Hacc.
      split.
      * intros (p' & ? & ? & ?). exists p'. rewrite elem_of_snoc. auto.
      * intros (p' & [?| ->]%elem_of_snoc & ? & ?); [by exists p'|done].
    + destruct (names_is_Some p Hp) as [y Hy].
      unfold getitem. rewrite Hy. simpl. eexists. split; [done|].
      split; [done|]. intros x. rewrite elem_of_union, elem_of_singleton, Hacc.
      split.
      * intros [->|(p' & ? & ? & ?)].
        -- exists p. rewrite elem_of_snoc. auto.
        -- exists p'. rewrite elem_of_snoc. auto.
      * intros (p' & [?| ->]%elem_of_snoc & ? & Hx); [right; by exists p'|].
        left. congruence.
  - exists F'. split; [done|]. done.
Qed.

(** What [new_transitions] may hold for a name and a symbol. *)
Definition tr_rel (name symbol x : string) : Prop :=
  ∃ p r t p',
    p ∈ ps ∧ names !! p = Some name ∧ symbol ∈ alphabet dfa ∧
    head (iter p) = Some r ∧ delta dfa r symbol = Some t ∧
    pm !! t = Some p' ∧ names !! p' = Some x.

Definition tr_sound (nt : gmap string (gmap string string)) : Prop :=
  ∀ name symbol x, lookup2 nt name symbol = Some x → tr_rel name symbol x.

Lemma add_transitions_spec p r new_name nt0 :
  p ∈ ps → head (iter p) = Some r → names !! p = Some new_name →
  tr_sound nt0 →
  ∃ nt,
    for_each (iter (alphabet dfa)) (add_transition dfa pm names r new_name) nt0
      = Ok nt ∧
    tr_sound nt ∧
    (∀ name symbol, is_Some (lookup2 nt0 name symbol) →
       is_Some (lookup2 nt name symbol)) ∧
    (∀ symbol, symbol ∈ alphabet dfa → is_Some (lookup2 nt new_name symbol)).
Proof.
  intros Hp Hr Hname Hs0.
  assert (r ∈ sts) as HrS.
  { eapply ps_sub; [done|]. apply elem_of_iter.
    apply head_Some in Hr as (l' & ->). by left. }
  destruct (for_each_total_prefix (λ pre nt,
      tr_sound nt ∧
      (∀ name symbol, is_Some (lookup2 nt0 name symbol) →
         is_Some (lookup2 nt name symbol)) ∧
      (∀ symbol, symbol ∈ pre → is_Some (lookup2 nt new_name symbol)))
    (iter (alphabet dfa)) (add_transition dfa pm names r new_name) nt0)
    as (nt & Hnt & Hs & Hmono & Hnew).
  - split; [done|]. split; [done|]. by intros ? ?%elem_of_nil.
  - intros pre symbol post nt Hl (Hs & Hmono & Hnew).
    assert (symbol ∈ alphabet dfa) as Hsym.
    { apply elem_of_iter. rewrite Hl. apply elem_of_app. right. by left. }
    destruct (dfa_total r symbol HrS Hsym) as (t & Hd & Ht).
    pose proof Hd as Hd'. apply delta_Some in Hd' as (row & Hrow & Hlk).
    destruct (pm_is_Some t Ht) as (p' & Hp').
    destruct (names_is_Some p') as [x Hx]; [by apply pm_Some in Hp' as [? _]|].
    unfold add_transition, getitem. rewrite Hrow. simpl. rewrite Hlk. simpl.
    rewrite Hp'. simpl. rewrite Hx. simpl. eexists. split; [done|].
    split_and!.
    + intros name c y. rewrite lookup2_insert. case_bool_decide as Heq.
      * destruct Heq as [-> ->]. intros [= <-]. by exists p, r, t, p'.
      * apply Hs.
    + intros name c Hin. rewrite lookup2_insert.
      case_bool_decide; [by eauto|by apply Hmono].
    + intros c [?| ->]%elem_of_snoc; rewrite lookup2_insert.
      * case_bool_decide; [by eauto|by apply Hnew].
      * rewrite bool_decide_eq_true_2 by done. eauto.
  - exists nt. split; [done|]. split; [done|]. split; [done|].
    intros symbol ?. apply Hnew. by apply elem_of_iter.
Qed.

Lemma make_transitions_spec :
  ∃ nt, make_transitions dfa pm names ps = Ok nt ∧ tr_sound nt ∧
        ∀ p name symbol, p ∈ ps → names !! p = Some name →
          symbol ∈ alphabet dfa → is_Some (lookup2 nt name symbol).
Proof.
  unfold make_transitions.
  destruct (for_each_total_prefix (λ pre nt,
      tr_sound nt ∧
      ∀ p name symbol, p ∈ pre → names !! p = Some name →
        symbol ∈ alphabet dfa → is_Some (lookup2 nt name symbol))
    ps (λ new_transitions p,
       rep_state ← from_option Ok (Raise StopIteration) (head (iter p));
       new_name ← getitem names p;
       for_each (iter (alphabet dfa))
         (add_transition dfa pm names rep_state new_name) new_transitions) ∅)
    as (nt & Hnt & Hs & Hc).
  - split; [by intros ? ? ? ?|]. by intros ? ? ? ?%elem_of_nil.
  - intros pre p post nt0 Hl [Hs0 Hc0].
    assert (p ∈ ps) as Hp by (rewrite Hl; apply elem_of_app; right; by left).
    destruct (ps_nonempty p Hp) as (s & Hsp).
    destruct (head (iter p)) as [r|] eqn:Hr.
    2:{ apply head_None in Hr. apply elem_of_iter in Hsp. rewrite Hr in Hsp.
        by apply elem_of_nil in Hsp. }
    destruct (names_is_Some p Hp) as [new_name Hname].
    simpl. unfold getitem at 1. rewrite Hname. simpl.
    destruct (add_transitions_spec p r new_name nt0 Hp Hr Hname Hs0)
      as (nt & Hnt & Hs & Hmono & Hnew).
    exists nt. split; [done|]. split; [done|].
    intros p' name symbol [?| ->]%elem_of_snoc Hn Hsym.
    + apply Hmono. by eapply Hc0.
    + assert (name = new_name) as -> by congruence. by apply Hnew.
  - exists nt. done.
Qed.

Hypothesis start_in : start_state dfa ∈ sts.

(** What [rebuild] returns. *)
Definition rebuilt (m : DFA) : Prop :=
  states m = map_img names ∧
  alphabet m = alphabet dfa ∧
  name_of (start_state dfa) (start_state m) ∧
  (∀ x, x ∈ final_states m ↔
        ∃ p, p ∈ ps ∧ ¬ p ## final_states dfa ∧ names !! p = Some x) ∧
  tr_sound (transitions m) ∧
  (∀ p name symbol, p ∈ ps → names !! p = Some name →
     symbol ∈ alphabet dfa → is_Some (delta m name symbol)).

Lemma rebuild_spec : ∃ m, rebuild dfa ps = Ok m ∧ rebuilt m.
Proof.
  unfold rebuild.
  destruct (name_of_total (start_state dfa) start_in) as (x0 & p0 & Hp0 & Hx0).
  destruct make_final_states_spec as (F' & HF' & HF).
  destruct make_transitions_spec as (nt & Hnt & Hs & Hc).
  unfold getitem. rewrite Hp0. simpl. rewrite Hx0. simpl.
  rewrite HF'. simpl. rewrite Hnt. simpl.
  eexists. split; [done|]. split_and!; simpl; try done.
  by exists p0.
Qed.

Lemma rebuilt_step m s x symbol :
  rebuilt m → s ∈ sts → name_of s x → symbol ∈ alphabet dfa →
  ∃ t y, delta dfa s symbol = Some t ∧ t ∈ sts ∧
         delta m x symbol = Some y ∧ name_of t y.
Proof.
  intros (_ & _ & _ & _ & Hsound & Hcomp) Hs (p & Hp & Hx) Hsym.
  destruct (dfa_total s symbol Hs Hsym) as (t & Hd & Ht).
  destruct (Hcomp p x symbol) as [y Hy];
    [by apply pm_Some in Hp as [? _]|done|done|].
  exists t, y. split_and!; [done..|].
  destruct (Hsound x symbol y Hy)
    as (p1 & r & t0 & p' & Hp1 & Hn1 & _ & Hr & Hd0 & Hp' & Hy').
  assert (p1 = p) as -> by (by eapply names_inj).
  apply (name_of_nerode t0); [done|by exists p'|].
  pose proof (pm_block s p Hp) as [_ Hb].
  assert (r ∈ p) as Hrp.
  { apply elem_of_iter. apply head_Some in Hr as (l' & ->). by left. }
  apply Hb in Hrp as [_ Hn].
  eapply nerode_step; [done|done|done|]. by apply nerode_sym.
Qed.

Lemma rebuilt_final m s x :
  rebuilt m → name_of s x → x ∈ final_states m ↔ s ∈ final_states dfa.
Proof.
  intros (_ & _ & _ & HF & _) (p & Hp & Hx). rewrite HF.
  pose proof (pm_block s p Hp) as Hb. split.
  - intros (p1 & Hp1 & Hnd & Hn1).
    assert (p1 = p) as -> by (by eapply names_inj).
    destruct (set_choose_L (p ∩ final_states dfa)) as (u & Hu).
    { intros Hempty. apply Hnd. by apply disjoint_intersection_L. }
    apply elem_of_intersection in Hu as [Hup HuF].
    destruct Hb as [_ Hb]. apply Hb in Hup as [_ Hn].
    apply nerode_final in Hn.
    rewrite (bool_decide_eq_true_2 (u ∈ final_states dfa)) in Hn by done.
    by apply bool_decide_eq_true in Hn.
  - intros HsF. exists p. split_and!; [by apply pm_Some in Hp as [? _]| |done].
    intros Hd. apply (Hd s); [by apply block_of_self|done].
Qed.

Lemma rebuilt_run m w s x :
  rebuilt m → s ∈ sts → name_of s x → over dfa w →
  ∃ t y, run dfa s w = Some t ∧ run m x w = Some y ∧ t ∈ sts ∧ name_of t y.
Proof.
  intros Hm. revert s x. induction w as [|c w IH]; intros s x Hs Hx Hw.
  - exists s, x. done.
  - apply Forall_cons in Hw as [Hc Hw].
    destruct (rebuilt_step m s x c Hm Hs Hx Hc) as (t & y & Hd & Ht & Hd' & Hy).
    destruct (IH t y Ht Hy Hw) as (t' & y' & ? & ? & ? & ?).
    exists t', y'. simpl. rewrite Hd, Hd'. done.
Qed.

Lemma rebuilt_accepts m w :
  rebuilt m → over dfa w → accepts m w = accepts dfa w.
Proof.
  intros Hm Hw. pose proof Hm as (_ & _ & Hst & _).
  destruct (rebuilt_run m w _ _ Hm start_in Hst Hw) as (t & y & Ht & Hy & _ & Hn).
  unfold accepts, accepts_from. rewrite Ht, Hy.
  apply bool_decide_ext. by apply rebuilt_final.
Qed.

Lemma rebuilt_well_formed m :
  rebuilt m → alphabet dfa ≠ ∅ → well_formed m.
Proof.
  intros Hm Hne. pose proof Hm as (Hst & Hal & (p0 & Hp0 & Hx0) & HF & Hs & Hc).
  assert (start_state m ∈ states m) as Hstart.
  { rewrite Hst. by eapply elem_of_map_img_2. }
  split_and!.
  - intros He. rewrite He in Hstart. by apply not_elem_of_empty in Hstart.
  - done.
  - intros x (p & _ & _ & Hx)%HF. rewrite Hst. by eapply elem_of_map_img_2.
  - intros x Hx. rewrite Hst in Hx. apply elem_of_map_img in Hx as (p & Hx).
    pose proof (names_elem p x Hx) as Hp.
    apply set_choose_L in Hne as (c0 & Hc0).
    destruct (Hc p x c0 Hp Hx Hc0) as [y0 Hy0].
    apply delta_Some in Hy0 as (row & Hrow & _).
    exists row. split; [done|]. intros symbol Hsym. rewrite Hal in Hsym.
    destruct (Hc p x symbol Hp Hx Hsym) as [y Hy].
    exists y. pose proof Hy as Hy'.
    apply delta_Some in Hy' as (row' & Hrow' & Hlk).
    assert (row' = row) as -> by congruence. split; [done|].
    destruct (Hs x symbol y Hy) as (_ & _ & _ & p' & _ & _ & _ & _ & _ & _ & Hn').
    rewrite Hst. by eapply elem_of_map_img_2.
Qed.

End Rebuild.

End Table.

(** ** More fuel does not change a result *)

Lemma bfs_fuel_mono a fuel fuel' R Q :
  bfs a fuel R Q ≠ NoFuel → (fuel ≤ fuel')%nat →
  bfs a fuel' R Q = bfs a fuel R Q.
Proof.
  revert fuel' R Q. induction fuel as [|fuel IH]; intros fuel' R Q.
  - destruct Q; [by destruct fuel'|done].
  - destruct fuel' as [|fuel']; [lia|]. intros H Hle.
    destruct Q as [|cur Q0]; [done|]. simpl in H |- *.
    destruct (transitions a !! cur); (apply IH; [exact H|lia]).
Qed.

Lemma closure_fuel_mono dfa sts state_map n fuel fuel' T :
  closure dfa sts state_map fuel n T ≠ NoFuel → (fuel ≤ fuel')%nat →
  closure dfa sts state_map fuel' n T = closure dfa sts state_map fuel n T.
Proof.
  revert fuel' T. induction fuel as [|fuel IH]; intros fuel' T; [done|].
  destruct fuel' as [|fuel']; [lia|]. simpl.
  destruct (closure_pass dfa sts state_map n T) as [[T1 ch]| |]; simpl;
    [|done|done].
  destruct ch; [|done]. intros H ?. apply IH; [done|lia].
Qed.

Lemma remove_unreachable_states_fuel_mono a fuel fuel' :
  remove_unreachable_states fuel a ≠ NoFuel → (fuel ≤ fuel')%nat →
  remove_unreachable_states fuel' a = remove_unreachable_states fuel a.
Proof.
  unfold remove_unreachable_states. intros H Hle.
  rewrite (bfs_fuel_mono a fuel fuel'); [done| |done].
  intros E. by rewrite E in H.
Qed.

Lemma minimize_fuel_mono a fuel fuel' :
  minimize fuel a ≠ NoFuel → (fuel ≤ fuel')%nat →
  minimize fuel' a = minimize fuel a.
Proof.
  unfold minimize, minimize_table. intros H Hle.
  rewrite (remove_unreachable_states_fuel_mono a fuel fuel'); [|
    by intros E; rewrite E in H|done].
  destruct (remove_unreachable_states fuel a) as [r| |]; simpl; [|done..].
  simpl in H.
  destruct (base_case r (sorted (iter (states r)))
              (length (sorted (iter (states r))))
              (replicate (length (sorted (iter (states r))))
                 (replicate (length (sorted (iter (states r)))) false)))
    as [T0| |]; simpl; [|done..].
  simpl in H.
  rewrite (closure_fuel_mono r _ _ _ fuel fuel'); [done| |done].
  intros E. by rewrite E in H.
Qed.

(** A result obtained with some fuel is the only one there is. *)
Lemma minimize_settled a fuel fuel' m :
  minimize fuel a ≠ NoFuel → minimize fuel' a = Ok m →
  minimize fuel a = Ok m.
Proof.
  intros H H'. destruct (decide (fuel ≤ fuel')%nat).
  - by rewrite <- (minimize_fuel_mono a fuel fuel').
  - rewrite <- H'. apply minimize_fuel_mono; [|lia]. by rewrite H'.
Qed.

Lemma remove_unreachable_states_settled a fuel fuel' r :
  remove_unreachable_states fuel a ≠ NoFuel →
  remove_unreachable_states fuel' a = Ok r →
  remove_unreachable_states fuel a = Ok r.
Proof.
  intros H H'. destruct (decide (fuel ≤ fuel')%nat).
  - by rewrite <- (remove_unreachable_states_fuel_mono a fuel fuel').
  - rewrite <- H'.
    apply remove_unreachable_states_fuel_mono; [|lia]. by rewrite H'.
Qed.

(** ** The whole of [minimize] *)

Lemma state_map_of_spec (sts : list string) :
  NoDup sts →
  ∀ s i, dict_of (imap (λ i state, (state, i)) sts) !! s = Some i ↔
         sts !! i = Some s.
Proof.
  intros Hnd s i. rewrite (dict_of_imap_lookup (λ i _, i)) by done. split.
  - by intros (i' & ? & ->).
  - eauto.
Qed.

Lemma sorted_iter X :
  NoDup (sorted (iter X)) ∧ ∀ s, s ∈ sorted (iter X) ↔ s ∈ X.
Proof.
  unfold sorted. split.
  - rewrite merge_sort_Permutation. apply NoDup_iter.
  - intros s. rewrite merge_sort_Permutation. apply elem_of_iter.
Qed.

Lemma length_sorted_iter X : length (sorted (iter X)) = size X.
Proof. unfold sorted. rewrite merge_sort_Permutation. apply length_iter. Qed.

Lemma base_table_ok dfa sts T :
  base_case dfa sts (length sts)
    (replicate (length sts) (replicate (length sts) false)) = Ok T →
  table_ok dfa sts T.
Proof.
  intros HT.
  destruct (base_case_spec dfa sts
              (replicate (length sts) (replicate (length sts) false)))
    as (T' & HT' & Hd & Hm).
  { apply table_dims_fresh. }
  { intros i j. apply is_marked_fresh. }
  assert (T' = T) as -> by congruence.
  split; [done|]. split.
  - intros i j [? ?]%Hm. split; [done|]. by apply differ_dist.
  - intros i j ? ?. by apply Hm.
Qed.

Lemma base_table_total dfa sts :
  ∃ T, base_case dfa sts (length sts)
         (replicate (length sts) (replicate (length sts) false)) = Ok T.
Proof.
  destruct (base_case_spec dfa sts
              (replicate (length sts) (replicate (length sts) false)))
    as (T' & HT' & _).
  { apply table_dims_fresh. }
  { intros i j. apply is_marked_fresh. }
  eauto.
Qed.

(** What holds when the closure loop has been left normally. *)
Lemma minimize_table_Ok a fuel dfa sts T :
  minimize_table fuel a = Ok (dfa, sts, T) →
  remove_unreachable_states fuel a = Ok dfa ∧
  sts = sorted (iter (states dfa)) ∧
  table_ok dfa sts T ∧
  stable dfa sts (dict_of (imap (λ i state, (state, i)) sts)) T.
Proof.
  unfold minimize_table. intros H.
  apply bind_Ok in H as (r & Hr & H). cbv zeta in H.
  apply bind_Ok in H as (T0 & HT0 & H).
  apply bind_Ok in H as (T1 & HT1 & H). injection H as <- <- <-.
  split; [done|]. split; [done|].
  apply base_table_ok in HT0.
  destruct (sorted_iter (states r)) as [Hnd _].
  destruct (closure_ok r _ _ (state_map_of_spec _ Hnd) _ _ _ HT0 HT1)
    as (? & ? & _).
  done.
Qed.

Lemma minimize_table_blocks a fuel dfa sts T :
  minimize_table fuel a = Ok (dfa, sts, T) →
  ∃ partitions,
    group sts T (length sts) = Ok partitions ∧ partition_ok dfa sts partitions.
Proof.
  intros (_ & -> & Hok & Hst)%minimize_table_Ok.
  destruct (sorted_iter (states dfa)) as [Hnd _].
  apply group_spec; [by destruct Hok|].
  intros i j s t Hij Hs Ht.
  by apply (unmarked_iff_nerode dfa _ _ (state_map_of_spec _ Hnd)).
Qed.

(** *** Reachable states *)

Lemma run_app a s w1 w2 :
  run a s (w1 ++ w2) = run a s w1 ≫= λ t, run a t w2.
Proof.
  revert s. induction w1 as [|c w1 IH]; intros s; simpl; [done|].
  destruct (delta a s c); simpl; auto.
Qed.

Lemma collected_reachable a s : collected a s → reachable a s.
Proof.
  induction 1 as [|s symbol t _ (w & Hw & Hrun) Hsym Hd _].
  - exists []. split; [constructor|done].
  - exists (w ++ [symbol]). split.
    + apply Forall_app. split; [done|]. by apply Forall_singleton.
    + rewrite run_app, Hrun. simpl. by rewrite Hd.
Qed.

Lemma reachable_step a s symbol t :
  reachable a s → symbol ∈ alphabet a → delta a s symbol = Some t →
  reachable a t.
Proof.
  intros (w & Hw & Hrun) Hsym Hd. exists (w ++ [symbol]). split.
  - apply Forall_app. split; [done|]. by apply Forall_singleton.
  - rewrite run_app, Hrun. simpl. by rewrite Hd.
Qed.

Lemma run_states a w s t :
  well_formed a → s ∈ states a → over a w → run a s w = Some t →
  t ∈ states a.
Proof.
  intros Hwf. revert s. induction w as [|c w IH]; intros s Hs Hw; simpl.
  - by intros [= <-].
  - apply Forall_cons in Hw as [Hc Hw].
    destruct (delta a s c) as [u|] eqn:Hd; simpl; [|done].
    apply IH; [|done]. by eapply well_formed_delta_states.
Qed.

Lemma reachable_states a s : well_formed a → reachable a s → s ∈ states a.
Proof.
  intros Hwf (w & Hw & Hrun). eapply run_states; [done| |done..].
  by destruct Hwf as (_ & ? & _).
Qed.

(** When no state but the start state is named by the empty string, none
    that is reached is. *)
Lemma no_empty_name_reach a :
  well_formed a → no_empty_name a → no_empty_reach a.
Proof. intros Hwf Hne Hr. apply Hne. by apply reachable_states. Qed.

(** *** Pruning a well-formed automaton *)

Lemma pruned_delta a r s symbol :
  pruned a r → s ∈ states r → delta r s symbol = delta a s symbol.
Proof.
  intros (_ & _ & Htr & _) Hs. unfold delta, lookup2.
  by rewrite Htr, bool_decide_eq_true_2.
Qed.

Lemma pruned_sub a r s : well_formed a → pruned a r → s ∈ states r → s ∈ states a.
Proof. intros Hwf (Hcol & _) Hs. apply collected_states; [done|]. by apply Hcol. Qed.

Lemma pruned_start a r : pruned a r → start_state r ∈ states r.
Proof. intros (Hcol & _ & _ & -> & _). apply Hcol. constructor. Qed.

Lemma pruned_total a r s symbol :
  well_formed a → no_empty_reach a → pruned a r →
  s ∈ states r → symbol ∈ alphabet a →
  ∃ t, delta r s symbol = Some t ∧ t ∈ states r.
Proof.
  intros Hwf Hne Hp Hs Hsym. rewrite (pruned_delta a r) by done.
  pose proof (pruned_sub a r s Hwf Hp Hs) as HsA.
  destruct (well_formed_delta a s symbol Hwf HsA Hsym) as (t & Hd & Ht).
  exists t. split; [done|]. destruct Hp as (Hcol & _). apply Hcol.
  destruct (decide (t = "")) as [->|Hnt].
  - rewrite <- Hne; [constructor|].
    eapply reachable_step; [|done..]. apply collected_reachable. by apply Hcol.
  - eapply collected_step; [by apply Hcol|done..].
Qed.

Lemma pruned_run a r w s :
  well_formed a → no_empty_reach a → pruned a r →
  s ∈ states r → over a w →
  ∃ t, run a s w = Some t ∧ run r s w = Some t ∧ t ∈ states r.
Proof.
  intros Hwf Hne Hp. revert s. induction w as [|c w IH]; intros s Hs Hw.
  - by exists s.
  - apply Forall_cons in Hw as [Hc Hw].
    destruct (pruned_total a r s c Hwf Hne Hp Hs Hc) as (t & Hd & Ht).
    destruct (IH t Ht Hw) as (u & ? & ? & ?). exists u. simpl.
    rewrite Hd. rewrite (pruned_delta a r) in Hd by done. rewrite Hd. done.
Qed.

Lemma pruned_accepts a r w :
  well_formed a → no_empty_reach a → pruned a r → over a w →
  accepts r w = accepts a w.
Proof.
  intros Hwf Hne Hp Hw.
  destruct (pruned_run a r w (start_state r) Hwf Hne Hp (pruned_start a r Hp) Hw)
    as (t & Ha & Hr & Ht).
  unfold accepts, accepts_from. rewrite Hr.
  destruct Hp as (_ & HF & _ & Hst & _). rewrite <- Hst, Ha, HF.
  apply bool_decide_ext. set_solver.
Qed.

(** *** The result of [minimize] on a well-formed automaton *)

Lemma minimize_total a :
  well_formed a → no_empty_reach a →
  ∃ r ps m,
    pruned a r ∧
    (∀ fuel, (fuel_bound a ≤ fuel)%nat → minimize fuel a = Ok m) ∧
    partition_ok r (sorted (iter (states r))) ps ∧
    total_on_sts r (sorted (iter (states r))) ∧
    start_state r ∈ sorted (iter (states r)) ∧
    rebuilt r ps m.
Proof.
  intros Hwf Hne.
  destruct (remove_unreachable_states_spec a Hwf) as (r & Hr & Hp).
  set (sts := sorted (iter (states r))).
  destruct (sorted_iter (states r)) as [Hnd Hmem]. fold sts in Hnd, Hmem.
  pose proof (state_map_of_spec sts Hnd) as Hmap.
  destruct (base_table_total r sts) as (T0 & HT0).
  pose proof (base_table_ok r sts T0 HT0) as Hok0.
  assert (alphabet r = alphabet a) as Hal by (by destruct Hp as (_ & _ & _ & _ & ?)).
  assert (total_on_sts r sts) as Htot.
  { intros s symbol Hs%Hmem Hsym. rewrite Hal in Hsym.
    destruct (pruned_total a r s symbol Hwf Hne Hp Hs Hsym) as (t & ? & ?).
    exists t. split; [done|]. by apply Hmem. }
  assert (length sts ≤ size (states a))%nat as Hlen.
  { unfold sts. rewrite length_sorted_iter. apply subseteq_size.
    intros s. by apply (pruned_sub a r). }
  destruct (closure_total r sts _ Hmap (fuel_bound a) T0 Htot Hok0) as (T & HT).
  { pose proof (unmarked_count_le sts T0).
    pose proof (length_pairs_le (length sts)). unfold fuel_bound. nia. }
  assert (∀ fuel, (fuel_bound a ≤ fuel)%nat →
            minimize_table fuel a = Ok (r, sts, T)) as Hmt.
  { intros fuel Hfuel. unfold minimize_table. rewrite Hr.
    2:{ unfold fuel_bound in Hfuel. nia. }
    simpl. fold sts. rewrite HT0. simpl.
    rewrite (closure_fuel_mono r sts _ _ (fuel_bound a) fuel T0);
      [by rewrite HT|by rewrite HT|done]. }
  destruct (minimize_table_blocks a (fuel_bound a) r sts T) as (ps & Hg & Hps);
    [by apply Hmt|].
  assert (start_state r ∈ sts) as Hstart.
  { apply Hmem. by eapply pruned_start. }
  destruct (rebuild_spec r sts ps Hps Htot Hstart) as (m & Hm & Hreb).
  exists r, ps, m. split; [done|]. split; [|done].
  intros fuel Hfuel. unfold minimize. rewrite (Hmt fuel Hfuel). simpl.
  rewrite Hg. simpl. done.
Qed.

(** *** Reachable and collected states *)

Lemma run_collected a w s t :
  well_formed a → no_empty_reach a →
  collected a s → over a w → run a s w = Some t → collected a t.
Proof.
  intros Hwf Hne. revert s. induction w as [|c w IH]; intros s Hs Hw; simpl.
  - by intros [= <-].
  - apply Forall_cons in Hw as [Hc Hw].
    destruct (delta a s c) as [u|] eqn:Hd; simpl; [|done].
    apply IH; [|done]. destruct (decide (u = "")) as [->|Hnu].
    + rewrite <- Hne; [constructor|].
      eapply reachable_step; [|done..]. by apply collected_reachable.
    + by eapply collected_step.
Qed.

Lemma reachable_collected a s :
  well_formed a → no_empty_reach a → reachable a s ↔ collected a s.
Proof.
  intros Hwf Hne. split; [|apply collected_reachable].
  intros (w & Hw & Hrun). eapply run_collected; [done..|constructor|done|done].
Qed.

(** *** The traversal and the empty string *)

Lemma bfs_empty_name a fuel R Q R' :
  bfs a fuel R Q = Ok R' → "" ∈ R' → "" ∈ R.
Proof.
  revert R Q. induction fuel as [|fuel IH]; intros R Q.
  - destruct Q; simpl; [|done]. by intros [= <-].
  - destruct Q as [|cur Q0]; simpl; [by intros [= <-]|].
    destruct (transitions a !! cur) as [row|]; [|by apply IH].
    destruct (visit_fold row (iter (alphabet a)) (R, Q0))
      as (new & Hq & Hr & _ & Hnew & _).
    intros Hb Hin. specialize (IH _ _ Hb Hin). rewrite Hr in IH.
    apply elem_of_union in IH as [Hn%elem_of_list_to_set|?]; [|done].
    by destruct (Hnew "" Hn) as (_ & ? & _).
Qed.

(** *** Progress of a pass *)

Lemma closure_pass_progress dfa sts state_map T T' ch :
  closure_pass dfa sts state_map (length sts) T = Ok (T', ch) →
  table_le T T' ∧
  if ch then
    ∃ i j, (i < j < length sts)%nat ∧
           is_marked T i j = false ∧ is_marked T' i j = true
  else T' = T.
Proof.
  rewrite closure_pass_pairs. intros H.
  apply (for_each_inv (λ st : list (list bool) * bool,
    table_le T st.1 ∧
    if st.2 then
      ∃ i j, (i < j < length sts)%nat ∧
             is_marked T i j = false ∧ is_marked st.1 i j = true
    else st.1 = T)) in H; [done| |].
  - split; [by intros ? ?|done].
  - intros [T1 ch1] [i j] [T2 ch2] Hij%elem_of_pairs [Hle Hc] Hbody.
    simpl in *. apply closure_inner_Ok in Hbody
      as [[_ [= -> ->]]|[(_ & _ & [= -> ->])|(Hm & _ & T'' & HT'' & [= -> ->])]];
      [done..|].
    pose proof (table_mark_Ok _ _ _ _ HT'') as Hmark. split.
    + intros i' j' ?. apply Hmark. left. by apply Hle.
    + destruct ch1.
      * destruct Hc as (i0 & j0 & ? & ? & ?). exists i0, j0.
        split; [done|]. split; [done|]. apply Hmark. by left.
      * subst T1. exists i, j. split; [done|]. split; [done|].
        apply Hmark. by right.
Qed.

(** The mark of a pair changes only in the turn of that pair. *)
Lemma closure_rest_keeps dfa sts state_map l st st' i j :
  (i, j) ∉ l →
  for_each l (λ st p, closure_inner dfa sts state_map p.1 st p.2) st = Ok st' →
  is_marked st'.1 i j = is_marked st.1 i j.
Proof.
  intros Hnin H.
  apply (for_each_inv (λ st0 : list (list bool) * bool,
    is_marked st0.1 i j = is_marked st.1 i j)) in H; [done..|].
  intros [T1 ch1] [i' j'] [T2 ch2] Hin Heq Hbody. simpl in *.
  apply closure_inner_Ok in Hbody
    as [[_ [= -> ->]]|[(_ & _ & [= -> ->])|(Hm & _ & T'' & HT'' & [= -> ->])]];
    [done..|].
  pose proof (table_mark_Ok _ _ _ _ HT'') as Hmark. rewrite <- Heq.
  destruct (is_marked T1 i j) eqn:E1.
  - apply Hmark. by left.
  - destruct (is_marked T'' i j) eqn:E2; [|done].
    apply Hmark in E2 as [?|[-> ->]]; [congruence|]. by destruct Hnin.
Qed.

(** The turn of an unmarked pair. *)
Lemma closure_inner_marks dfa sts state_map i j T ch T' ch' :
  closure_inner dfa sts state_map i (T, ch) j = Ok (T', ch') →
  is_marked T i j = false →
  is_marked T' i j = true ↔
  ∃ symbol row col,
    symbol ∈ alphabet dfa ∧ succ_pair dfa sts state_map i j symbol row col ∧
    row ≠ col ∧ is_marked T row col = true.
Proof.
  intros Hbody Hm. apply closure_inner_Ok in Hbody
    as [[? _]|[(_ & Hscan & [= -> ->])|(_ & Hscan & T'' & HT'' & [= -> ->])]];
    [congruence| |].
  - apply scan_symbols_Ok in Hscan. split; [congruence|].
    intros (symbol & row & col & Hsym%elem_of_iter & Hsp & Hne & Hrc).
    destruct (Hscan symbol Hsym) as (row' & col' & Hsp' & Hor).
    destruct (succ_pair_fun _ _ _ _ _ _ _ _ _ _ Hsp Hsp') as [-> ->].
    destruct Hor; [done|congruence].
  - apply scan_symbols_Ok in Hscan
      as (symbol & row & col & Hsym%elem_of_iter & Hsp & Hne & Hrc).
    split; [by eauto 10|]. intros _.
    apply (table_mark_Ok _ _ _ _ HT''). by right.
Qed.

(** *** The reason given by [is_valid] *)

Lemma check_symbols_Some a state row syms reason :
  check_symbols a state row syms = Some reason →
  ∃ pre symbol post,
    syms = pre ++ symbol :: post ∧
    (∀ c, c ∈ pre → symbol_ok a row c) ∧
    ((row !! symbol = None ∧
      reason = "Missing transition for state '" +:+ state +:+ "' on symbol '"
               +:+ symbol +:+ "'.") ∨
     (∃ t, row !! symbol = Some t ∧ t ∉ states a ∧
           reason = "Transition from '" +:+ state +:+ "' on '" +:+ symbol
                    +:+ "' leads to an invalid state '" +:+ t +:+ "'.")).
Proof.
  induction syms as [|c syms IH]; simpl; [done|].
  destruct (row !! c) as [t|] eqn:E.
  - case_bool_decide as Ht.
    + intros (pre & symbol & post & -> & Hpre & Hr)%IH.
      exists (c :: pre), symbol, post. split; [done|]. split; [|done].
      intros c' [->|?]%elem_of_cons; [by exists t|by auto].
    + intros [= <-]. exists [], c, syms. split; [done|].
      split; [by intros ? ?%elem_of_nil|]. right. by exists t.
  - intros [= <-]. exists [], c, syms. split; [done|].
    split; [by intros ? ?%elem_of_nil|]. by left.
Qed.

Lemma check_states_Some a sts reason :
  check_states a sts = Some reason →
  ∃ pre state post,
    sts = pre ++ state :: post ∧
    (∀ s, s ∈ pre → state_ok a s) ∧
    ((transitions a !! state = None ∧
      reason = "Missing transitions for state '" +:+ state +:+ "'.") ∨
     (∃ row, transitions a !! state = Some row ∧
             check_symbols a state row (iter (alphabet a)) = Some reason)).
Proof.
  induction sts as [|s0 sts IH]; simpl; [done|].
  destruct (transitions a !! s0) as [row|] eqn:E.
  - destruct (check_symbols a s0 row (iter (alphabet a))) as [r|] eqn:E2.
    + intros [= <-]. exists [], s0, sts. split; [done|].
      split; [by intros ? ?%elem_of_nil|]. right. by exists row.
    + intros (pre & state & post & -> & Hpre & Hr)%IH.
      exists (s0 :: pre), state, post. split; [done|]. split; [|done].
      intros s [->|?]%elem_of_cons; [|by auto].
      exists row. split; [done|]. intros symbol Hsym.
      rewrite check_symbols_None in E2. apply E2. by apply elem_of_iter.
  - intros [= <-]. exists [], s0, sts. split; [done|].
    split; [by intros ? ?%elem_of_nil|]. by left.
Qed.

(** *** The round trip through [to_dict] *)

Lemma list_to_set_sorted_iter (X : gset string) :
  list_to_set (sorted (iter X)) = X.
Proof.
  apply set_eq. intros s. rewrite elem_of_list_to_set.
  by destruct (sorted_iter X) as [_ ->].
Qed.

(** *** The number of states of the result *)

Lemma pruned_unique a r r' : pruned a r → pruned a r' → r = r'.
Proof.
  intros (Hc & HF & Htr & Hst & Hal) (Hc' & HF' & Htr' & Hst' & Hal').
  destruct r as [Q S tr q0 F], r' as [Q' S' tr' q0' F']. simpl in *.
  assert (Q' = Q) as ->.
  { apply set_eq. intros s. by rewrite Hc, Hc'. }
  f_equal; try congruence.
  apply map_eq. intros s. by rewrite Htr, Htr'.
Qed.

Lemma partition_ok_mem dfa sts sts' ps :
  (∀ s, s ∈ sts ↔ s ∈ sts') →
  partition_ok dfa sts ps → partition_ok dfa sts' ps.
Proof.
  intros Hmem (Hb & Hc & Hd). split_and!; [| |done].
  - intros p (s & Hs & Hp)%Hb. exists s. split; [by apply Hmem|].
    intros t. rewrite Hp. by rewrite Hmem.
  - intros s Hs%Hmem. by apply Hc.
Qed.

Lemma partition_sub dfa sts ps ps' :
  partition_ok dfa sts ps → partition_ok dfa sts ps' →
  ∀ p, p ∈ ps → p ∈ ps'.
Proof.
  intros Hps Hps' p Hp.
  destruct (ps_nonempty dfa sts ps Hps p Hp) as (s & Hs).
  pose proof (ps_sub dfa sts ps Hps p s Hp Hs) as HsS.
  destruct Hps as (Hb & _). destruct Hps' as (Hb' & Hc' & _).
  destruct (Hc' s HsS) as (p' & Hp' & Hs').
  destruct (Hb p Hp) as (s0 & Hs0). destruct (Hb' p' Hp') as (s1 & Hs1).
  pose proof (block_of_same dfa sts p s0 s Hs0 Hs) as [_ Hm].
  pose proof (block_of_same dfa sts p' s1 s Hs1 Hs') as [_ Hm'].
  assert (p = p') as ->; [|done].
  apply set_eq. intros t. by rewrite Hm, Hm'.
Qed.

Lemma partition_length dfa sts ps ps' :
  partition_ok dfa sts ps → partition_ok dfa sts ps' →
  length ps = length ps'.
Proof.
  intros Hps Hps'. apply Permutation_length. apply NoDup_Permutation.
  - by eapply ps_NoDup.
  - by eapply ps_NoDup.
  - intros p. split; by eapply partition_sub.
Qed.

Lemma rebuilt_size dfa sts ps m :
  partition_ok dfa sts ps → rebuilt dfa ps m → size (states m) = length ps.
Proof.
  intros Hps (-> & _).
  assert (map_img (make_state_names ps)
          = (list_to_set ((λ k, "q" +:+ pretty k) <$> seq 0 (length ps))
             : gset string)) as ->.
  { apply set_eq. intros x.
    rewrite elem_of_map_img, elem_of_list_to_set, list_elem_of_fmap. split.
    - intros (p & (k & Hk & ->)%(names_lookup dfa sts ps Hps)).
      exists k. split; [done|]. apply elem_of_seq.
      apply lookup_lt_Some in Hk. lia.
    - intros (k & -> & Hk%elem_of_seq).
      destruct (lookup_lt_is_Some_2 ps k) as [p Hp]; [lia|].
      exists p. apply (names_lookup dfa sts ps Hps). eauto. }
  rewrite size_list_to_set.
  - by rewrite length_fmap, length_seq.
  - apply NoDup_fmap_2; [|apply NoDup_seq].
    intros k1 k2 Heq. by apply (inj (String.app "q")), (inj pretty) in Heq.
Qed.

(** ** Sorting *)

Lemma str_le_le x y : str_le x y ↔ String.le x y.
Proof. unfold str_le, String.le. by rewrite Is_true_true. Qed.

Global Instance str_le_trans : Transitive str_le.
Proof. intros x y z ?%str_le_le ?%str_le_le. apply str_le_le. by etrans. Qed.

Global Instance str_le_antisym : AntiSymm (=) str_le.
Proof. intros x y ?%str_le_le ?%str_le_le. by apply (anti_symm String.le). Qed.

Global Instance str_le_total : Total str_le.
Proof.
  intros x y. destruct (total String.le x y); [left|right]; by apply str_le_le.
Qed.

Lemma Sorted_sorted l : Sorted str_le (sorted l).
Proof. apply Sorted_merge_sort. apply _. Qed.

Lemma sorted_Permutation l : sorted l ≡ₚ l.
Proof. apply merge_sort_Permutation. Qed.

Lemma sorted_perm_eq l1 l2 : l1 ≡ₚ l2 → sorted l1 = sorted l2.
Proof.
  intros Hp. apply (Sorted_unique str_le); [apply Sorted_sorted..|].
  by rewrite !sorted_Permutation.
Qed.

Lemma sorted_fixed l : Sorted str_le l → sorted l = l.
Proof.
  intros Hs. apply (Sorted_unique str_le); [apply Sorted_sorted|done|].
  apply sorted_Permutation.
Qed.

Lemma sorted_iter_list_to_set l :
  Sorted str_le l → NoDup l → sorted (iter (list_to_set l)) = l.
Proof.
  intros Hs Hnd. rewrite <- (sorted_fixed l Hs) at 2. apply sorted_perm_eq.
  rewrite iter_perm. by apply elements_list_to_set.
Qed.

End Iteration.

(** * Further facts on pruning and on the result of [minimize] *)

(** ** Pruning an arbitrary automaton *)

(** The start state and every target of the transition table: a finite
    set that the traversal never leaves. *)
Definition targets (a : DFA) : gset string :=
  {[start_state a]}
  ∪ ⋃ ((λ row, map_img row : gset string)
       <$> (map_to_list (transitions a)).*2).

(** What [remove_unreachable_states] returns, on any automaton. *)
Definition pruned_of (a r : DFA) : Prop :=
  (∀ s, s ∈ states r ↔ s ∈ states a ∧ collected a s) ∧
  (∀ s, s ∈ final_states r ↔ s ∈ final_states a ∧ collected a s) ∧
  (∀ s, collected a s → transitions r !! s = transitions a !! s) ∧
  (∀ s, ¬ collected a s → transitions r !! s = None) ∧
  start_state r = start_state a ∧
  alphabet r = alphabet a.

Section Pruning.

Variable iter : gset string → list string.
Hypothesis iter_perm : ∀ X, iter X ≡ₚ elements X.

Lemma delta_targets a s symbol t :
  delta a s symbol = Some t → t ∈ targets a.
Proof.
  intros (row & Hrow & Ht)%delta_Some. unfold targets.
  apply elem_of_union_r, elem_of_union_list.
  exists (map_img row). split; [|by eapply elem_of_map_img_2].
  apply list_elem_of_fmap. exists row. split; [done|].
  apply list_elem_of_fmap. exists (s, row). split; [done|].
  by apply elem_of_map_to_list.
Qed.

Lemma bfs_general a fuel :
  (size (targets a) ≤ fuel)%nat →
  ∃ R, bfs iter a fuel {[start_state a]} [start_state a] = Ok R ∧
       ∀ s, s ∈ R ↔ collected a s.
Proof.
  intros Hfuel.
  assert (start_state a ∈ targets a) as Hst.
  { unfold targets. apply elem_of_union_l. by apply elem_of_singleton. }
  destruct (bfs_invariant iter iter_perm a (targets a)) with (fuel := fuel)
    (R := ({[start_state a]} : gset string)) (Q := [start_state a])
    as (R & Hb & Hsub & HRU & Hcol & Hcl).
  - intros s symbol t _ _ Hd _. by eapply delta_targets.
  - intros s ?%list_elem_of_singleton. set_solver.
  - set_solver.
  - intros s ->%elem_of_singleton. constructor.
  - intros s ->%elem_of_singleton Hn. exfalso. apply Hn. by left.
  - simpl.
    pose proof (size_difference_new iter iter_perm (targets a) ∅ [start_state a]) as Hsz.
    simpl in Hsz.
    assert (({[start_state a]} ∪ ∅) ∪ ∅ = ({[start_state a]} : gset string))
      as Heq by set_solver.
    rewrite Heq in Hsz.
    assert (targets a ∖ ∅ = targets a) as Heq2 by set_solver.
    rewrite Heq2 in Hsz. rewrite <- Hsz in Hfuel; [lia| |].
    + apply NoDup_singleton.
    + intros t ->%list_elem_of_singleton. set_solver.
  - exists R. split; [done|]. intros s. split; [by auto|].
    apply collected_closed; [set_solver|done].
Qed.

(** The set collected by a traversal that ends. *)
Lemma bfs_Ok_collected a fuel R :
  bfs iter a fuel {[start_state a]} [start_state a] = Ok R →
  ∀ s, s ∈ R ↔ collected a s.
Proof.
  intros HR.
  destruct (bfs_general a (fuel `max` size (targets a))) as (R' & HR' & Hcol);
    [lia|].
  rewrite (bfs_fuel_mono iter a fuel) in HR'; [|by rewrite HR|lia].
  rewrite HR in HR'. by injection HR' as <-.
Qed.

Lemma restrict_transitions_Ok tr l acc m :
  restrict_transitions tr l acc = Ok m →
  (∀ s, s ∈ l → is_Some (tr !! s)) ∧
  ∀ s, m !! s = if bool_decide (s ∈ l) then tr !! s else acc !! s.
Proof.
  revert acc. induction l as [|s0 l IH]; intros acc H.
  - simpl in H. injection H as <-. split; [by intros ? ?%elem_of_nil|].
    intros s. by rewrite bool_decide_eq_false_2 by apply not_elem_of_nil.
  - simpl in H. apply bind_Ok in H as (row & Hrow%getitem_Ok & H).
    assert (∀ s, s ∈ s0 :: l → is_Some (tr !! s)) as Hall.
    { destruct (IH _ H) as [Hl _].
      intros s [->|?]%elem_of_cons; [by eauto|by auto]. }
    split; [done|].
    destruct (restrict_transitions_spec tr (s0 :: l) acc Hall) as (m' & Hm' & Hlk).
    simpl in Hm'. unfold getitem in Hm'. rewrite Hrow in Hm'. simpl in Hm'.
    rewrite H in Hm'. by injection Hm' as <-.
Qed.

Lemma restrict_transitions_fail tr l acc s :
  s ∈ l → tr !! s = None → restrict_transitions tr l acc = Raise KeyError.
Proof.
  revert acc. induction l as [|s0 l IH]; intros acc Hin Hs;
    [by apply elem_of_nil in Hin|].
  simpl. unfold getitem.
  destruct (tr !! s0) as [row|] eqn:E; simpl; [|done].
  apply elem_of_cons in Hin as [->|Hin]; [congruence|by apply IH].
Qed.

Lemma remove_Ok_pruned a fuel r :
  remove_unreachable_states iter fuel a = Ok r →
  pruned_of a r ∧ ∀ s, collected a s → is_Some (transitions a !! s).
Proof.
  unfold remove_unreachable_states.
  intros (R & HR & H)%bind_Ok. apply bind_Ok in H as (m & Hm & [= <-]).
  pose proof (bfs_Ok_collected a fuel R HR) as Hcol.
  apply restrict_transitions_Ok in Hm as [Hall Hlk].
  split.
  - unfold pruned_of. simpl. split_and!; try done.
    + intros s. by rewrite elem_of_intersection, Hcol.
    + intros s. by rewrite elem_of_intersection, Hcol.
    + intros s Hs. rewrite Hlk, bool_decide_eq_true_2; [done|].
      by apply elem_of_iter, Hcol.
    + intros s Hs. rewrite Hlk, bool_decide_eq_false_2, lookup_empty; [done|].
      by rewrite (elem_of_iter iter iter_perm), Hcol.
  - intros s Hs. apply Hall. by apply elem_of_iter, Hcol.
Qed.

Lemma remove_general a fuel :
  (size (targets a) ≤ fuel)%nat →
  (∃ r, remove_unreachable_states iter fuel a = Ok r) ∨
  (remove_unreachable_states iter fuel a = Raise KeyError ∧
   ∃ s, collected a s ∧ transitions a !! s = None).
Proof.
  intros Hfuel. unfold remove_unreachable_states.
  destruct (bfs_general a fuel Hfuel) as (R & -> & Hcol). simpl.
  destruct (decide (Forall (λ s, is_Some (transitions a !! s)) (iter R)))
    as [Hall|Hex].
  - left. rewrite Forall_forall in Hall.
    destruct (restrict_transitions_spec (transitions a) (iter R) ∅ Hall)
      as (m & -> & _).
    simpl. eauto.
  - right. apply not_Forall_Exists in Hex; [|apply _].
    apply Exists_exists in Hex as (s & Hs & Hnone).
    rewrite (restrict_transitions_fail _ _ _ s Hs).
    + split; [done|]. exists s. split.
      * by apply Hcol, (elem_of_iter iter iter_perm).
      * by apply eq_None_not_Some.
    + by apply eq_None_not_Some.
Qed.

Lemma collected_dec_by a fuel r s :
  remove_unreachable_states iter fuel a = Ok r → Decision (collected a s).
Proof.
  intros H. destruct (transitions r !! s) as [row|] eqn:E.
  - left. apply remove_Ok_pruned in H as [(_ & _ & _ & Hn & _) _].
    destruct (bfs_general a (size (targets a))) as (R & _ & Hcol); [done|].
    destruct (decide (s ∈ R)) as [?|Hnin]; [by apply Hcol|].
    rewrite Hn in E; [done|]. by rewrite <- Hcol.
  - right. intros Hc. apply remove_Ok_pruned in H as [(_ & _ & Htr & _) Hall].
    rewrite Htr in E by done. destruct (Hall s Hc) as [? ?]. congruence.
Qed.

Lemma pruned_of_unique a r r' fuel :
  remove_unreachable_states iter fuel a = Ok r →
  pruned_of a r → pruned_of a r' → r = r'.
Proof.
  intros Hrun (HQ & HF & Htr & Hno & Hst & Hal)
         (HQ' & HF' & Htr' & Hno' & Hst' & Hal').
  destruct r as [Q S tr q0 F], r' as [Q' S' tr' q0' F']. simpl in *.
  f_equal; try congruence.
  - apply set_eq. intros s. by rewrite HQ, HQ'.
  - apply map_eq. intros s.
    destruct (collected_dec_by a fuel _ s Hrun).
    + by rewrite Htr, Htr'.
    + by rewrite Hno, Hno'.
  - apply set_eq. intros s. by rewrite HF, HF'.
Qed.

Lemma collected_pruned a r s :
  pruned_of a r → collected r s ↔ collected a s.
Proof.
  intros (_ & _ & Htr & _ & Hst & Hal). split.
  - induction 1 as [|s symbol t _ IH Hsym Hd Hne]; [rewrite Hst; constructor|].
    eapply collected_step; [done|by rewrite <- Hal| |done].
    unfold delta, lookup2 in *. by rewrite <- Htr.
  - induction 1 as [|s symbol t Hs IH Hsym Hd Hne]; [rewrite <- Hst; constructor|].
    eapply collected_step; [done|by rewrite Hal| |done].
    unfold delta, lookup2 in *. by rewrite Htr.
Qed.

End Pruning.

(** ** The minimized automaton *)

Section Minimized.

Variable iter : gset string → list string.
Hypothesis iter_perm : ∀ X, iter X ≡ₚ elements X.

(** The final table settles, for any two states, whether they are
    equivalent. *)
Lemma table_decides dfa sts state_map T s t :
  (∀ s i, state_map !! s = Some i ↔ sts !! i = Some s) →
  table_ok dfa sts T → stable iter dfa sts state_map T →
  s ∈ sts → t ∈ sts → nerode dfa s t ∨ distinguishable dfa s t.
Proof.
  intros Hmap Hok Hst (i & Hi)%list_elem_of_lookup (j & Hj)%list_elem_of_lookup.
  assert (∀ i j s t, (i < j)%nat → sts !! i = Some s → sts !! j = Some t →
            nerode dfa s t ∨ distinguishable dfa s t) as Hlt.
  { clear i j s t Hi Hj. intros i j s t Hij Hi Hj.
    destruct (is_marked T i j) eqn:E.
    - right. destruct Hok as (_ & Hs & _).
      destruct (Hs i j E) as (_ & s' & t' & Hi' & Hj' & Hd).
      rewrite Hi in Hi'. rewrite Hj in Hj'.
      injection Hi' as <-. by injection Hj' as <-.
    - left. by apply (unmarked_iff_nerode iter iter_perm dfa sts state_map Hmap
                        T i j s t Hok Hst Hij Hi Hj). }
  destruct (lt_eq_lt_dec i j) as [[Hij|Heq]|Hji].
  - by eapply Hlt.
  - subst j. rewrite Hi in Hj. injection Hj as <-. left. apply nerode_refl.
  - destruct (Hlt j i t s Hji Hj Hi) as [?|?].
    + left. by apply nerode_sym.
    + right. by apply distinguishable_sym.
Qed.

(** A state of the pruned automaton and the name of its class accept the
    same strings. *)
Lemma rebuilt_accepts_from dfa sts ps m w s x :
  partition_ok dfa sts ps → total_on_sts dfa sts → rebuilt iter dfa ps m →
  s ∈ sts → name_of iter ps s x → over dfa w →
  accepts_from m x w = accepts_from dfa s w.
Proof.
  intros Hps Htot Hm Hs Hx Hw.
  destruct (rebuilt_run iter iter_perm dfa sts ps Hps Htot m w s x Hm Hs Hx Hw)
    as (t & y & Ht & Hy & _ & Hn).
  unfold accepts_from. rewrite Ht, Hy.
  apply bool_decide_ext.
  by apply (rebuilt_final iter iter_perm dfa sts ps Hps m t y).
Qed.

(** The facts on a run of [minimize] that the properties below use. *)
Lemma minimize_facts a :
  well_formed a → no_empty_reach a →
  ∃ r ps m,
    pruned a r ∧
    (∀ fuel, (fuel_bound a ≤ fuel)%nat → minimize iter fuel a = Ok m) ∧
    partition_ok r (sorted (iter (states r))) ps ∧
    total_on_sts r (sorted (iter (states r))) ∧
    start_state r ∈ sorted (iter (states r)) ∧
    rebuilt iter r ps m ∧
    (∀ s t, s ∈ states r → t ∈ states r →
       nerode r s t ∨ distinguishable r s t).
Proof.
  intros Hwf Hne.
  destruct (minimize_total iter iter_perm a Hwf Hne)
    as (r & ps & m & Hp & Hm & Hps & Htot & Hstart & Hreb).
  exists r, ps, m. split_and!; try done.
  pose proof (Hm (fuel_bound a) (le_n _)) as Hrun.
  unfold minimize in Hrun.
  apply bind_Ok in Hrun as ([[dfa sts] T] & Hmt & _).
  apply (minimize_table_Ok iter iter_perm) in Hmt as (Hrem & -> & Hok & Hst).
  destruct (remove_unreachable_states_spec iter iter_perm a Hwf)
    as (r0 & Hr0 & Hp0).
  assert (r0 = r) as -> by (by eapply pruned_unique).
  rewrite Hr0 in Hrem by (unfold fuel_bound; nia).
  injection Hrem as <-.
  destruct (sorted_iter iter iter_perm (states r)) as [Hnd Hmem].
  intros s t Hs%Hmem Ht%Hmem.
  by apply (table_decides r _ _ T s t (state_map_of_spec _ Hnd)).
Qed.

Lemma name_of_fun ps s x y : name_of iter ps s x → name_of iter ps s y → x = y.
Proof. intros (p & Hp & Hx) (p' & Hp' & Hy). congruence. Qed.

Lemma name_of_block dfa sts ps p s x :
  partition_ok dfa sts ps → make_state_names ps !! p = Some x → s ∈ p →
  name_of iter ps s x.
Proof.
  intros Hps Hx Hs. exists p. split; [|done].
  apply (pm_of_block iter iter_perm dfa sts ps Hps); [|done].
  by apply (names_elem dfa sts ps Hps p x).
Qed.

End Minimized.

(** ** Sizes of partitions *)

Lemma pairwise_disjoint_cons p ps :
  pairwise_disjoint (p :: ps) →
  pairwise_disjoint ps ∧ ∀ p', p' ∈ ps → p ## p'.
Proof.
  intros Hd. split.
  - intros k1 k2 p1 p2 H1 H2 Hne. apply (Hd (S k1) (S k2)); [done..|lia].
  - intros p' (k & Hk)%list_elem_of_lookup. by apply (Hd 0 (S k)).
Qed.

Lemma union_list_size (ps : list (gset string)) :
  pairwise_disjoint ps → size (⋃ ps) = sum_list (size <$> ps).
Proof.
  induction ps as [|p ps IH]; intros Hd; [done|]. cbn [union_list foldr fmap list_fmap sum_list sum_list_with].
  apply pairwise_disjoint_cons in Hd as [Hd Hp].
  rewrite <- IH by done. apply (size_union (C:=gset string)).
  intros s Hs (p' & Hp' & Hs')%elem_of_union_list.
  by apply (Hp p' Hp' s).
Qed.

Lemma sum_list_ge (l : list nat) :
  (∀ n, n ∈ l → (1 ≤ n)%nat) → (length l ≤ sum_list l)%nat.
Proof.
  induction l as [|n l IH]; intros Hl; simpl; [done|].
  assert (1 ≤ n)%nat by (apply Hl; by left).
  assert (length l ≤ sum_list l)%nat by (apply IH; intros ? ?; apply Hl; by right).
  lia.
Qed.

Lemma sum_list_ones (l : list nat) :
  (∀ n, n ∈ l → n = 1%nat) → sum_list l = length l.
Proof.
  induction l as [|n l IH]; intros Hl; simpl; [done|].
  rewrite (Hl n) by (by left). rewrite IH; [done|].
  intros ? ?. apply Hl. by right.
Qed.

Lemma partition_union dfa sts ps (X : gset string) :
  partition_ok dfa sts ps → (∀ s, s ∈ sts ↔ s ∈ X) → ⋃ ps = X.
Proof.
  intros Hps Hmem. apply set_eq. intros s. rewrite elem_of_union_list, <- Hmem.
  split.
  - intros (p & Hp & Hs). by eapply ps_sub.
  - destruct Hps as (_ & Hc & _). apply Hc.
Qed.

Lemma partition_length_le dfa sts ps (X : gset string) :
  partition_ok dfa sts ps → (∀ s, s ∈ sts ↔ s ∈ X) →
  (length ps ≤ size X)%nat.
Proof.
  intros Hps Hmem. rewrite <- (partition_union dfa sts ps X Hps Hmem).
  rewrite union_list_size by (by destruct Hps as (_ & _ & ?)).
  rewrite <- (length_fmap size ps). apply sum_list_ge.
  intros n (p & -> & Hp)%list_elem_of_fmap.
  destruct (ps_nonempty dfa sts ps Hps p Hp) as (s & Hs).
  destruct (decide (size p = 0)) as [Hz|]; [|lia].
  apply size_empty_inv in Hz. apply leibniz_equiv in Hz. subst p.
  by apply not_elem_of_empty in Hs.
Qed.

Lemma partition_length_singletons dfa sts ps (X : gset string) :
  partition_ok dfa sts ps → (∀ s, s ∈ sts ↔ s ∈ X) →
  (∀ p s t, p ∈ ps → s ∈ p → t ∈ p → s = t) →
  length ps = size X.
Proof.
  intros Hps Hmem Hsing. rewrite <- (partition_union dfa sts ps X Hps Hmem).
  rewrite union_list_size by (by destruct Hps as (_ & _ & ?)).
  rewrite <- (length_fmap size ps). symmetry. apply sum_list_ones.
  intros n (p & -> & Hp)%list_elem_of_fmap.
  destruct (ps_nonempty dfa sts ps Hps p Hp) as (s & Hs).
  assert (p = {[s]}) as ->; [|apply size_singleton].
  apply set_eq. intros t. rewrite elem_of_singleton. split.
  - intros Ht. symmetry. by apply (Hsing p).
  - by intros ->.
Qed.

(** *** Facts on the result *)

Lemma pruned_accepts_from a r w s :
  well_formed a → no_empty_reach a → pruned a r → s ∈ states r → over a w →
  accepts_from r s w = accepts_from a s w.
Proof.
  intros Hwf Hne Hp Hs Hw.
  destruct (pruned_run a r w s Hwf Hne Hp Hs Hw) as (t & Ha & Hr & Ht).
  unfold accepts_from. rewrite Ha, Hr.
  destruct Hp as (_ & -> & _). apply bool_decide_ext. set_solver.
Qed.

Lemma pruned_alphabet a r : pruned a r → alphabet r = alphabet a.
Proof. by intros (_ & _ & _ & _ & ?). Qed.

Section Sizes.

Variable iter : gset string → list string.
Hypothesis iter_perm : ∀ X, iter X ≡ₚ elements X.

Lemma minimized_distinct r ps m x y :
  partition_ok r (sorted (iter (states r))) ps →
  total_on_sts r (sorted (iter (states r))) →
  rebuilt iter r ps m →
  (∀ s t, s ∈ states r → t ∈ states r →
     nerode r s t ∨ distinguishable r s t) →
  x ∈ states m → y ∈ states m → x ≠ y → distinguishable m x y.
Proof.
  intros Hps Htot Hreb Hdec Hx Hy Hne.
  destruct (sorted_iter iter iter_perm (states r)) as [_ Hmem].
  pose proof Hreb as (Hst & Hal & _).
  rewrite Hst in Hx, Hy.
  apply elem_of_map_img in Hx as (p & Hp). apply elem_of_map_img in Hy as (p' & Hp').
  pose proof (names_elem r _ ps Hps p x Hp) as Hpin.
  pose proof (names_elem r _ ps Hps p' y Hp') as Hpin'.
  destruct (ps_nonempty r _ ps Hps p Hpin) as (s & Hs).
  destruct (ps_nonempty r _ ps Hps p' Hpin') as (t & Ht).
  pose proof (ps_sub r _ ps Hps p s Hpin Hs) as HsS.
  pose proof (ps_sub r _ ps Hps p' t Hpin' Ht) as HtS.
  destruct (Hdec s t) as [Hn|(w & Hw & Hd)]; [by apply Hmem..| |].
  - exfalso. apply Hne.
    pose proof Hps as (Hb & _). destruct (Hb p Hpin) as (s0 & Hs0).
    pose proof (block_of_same r _ p s0 s Hs0 Hs) as [_ Hblk].
    assert (t ∈ p) as Htp by (by apply Hblk).
    assert (p = p') as <- by (by apply (ps_unique r _ ps Hps p p' t)).
    congruence.
  - exists w. split; [unfold over; by rewrite Hal|].
    rewrite (rebuilt_accepts_from iter iter_perm r (sorted (iter (states r))) ps m w s x),
      (rebuilt_accepts_from iter iter_perm r (sorted (iter (states r))) ps m w t y); try done.
    + by eapply name_of_block.
    + by eapply name_of_block.
Qed.

Lemma minimized_reachable a r ps m x :
  well_formed a → no_empty_reach a → pruned a r →
  partition_ok r (sorted (iter (states r))) ps →
  total_on_sts r (sorted (iter (states r))) →
  rebuilt iter r ps m →
  x ∈ states m → reachable m x.
Proof.
  intros Hwf Hne Hp Hps Htot Hreb Hx.
  destruct (sorted_iter iter iter_perm (states r)) as [_ Hmem].
  pose proof Hreb as (Hst & Hal & Hstart & _).
  rewrite Hst in Hx. apply elem_of_map_img in Hx as (p & Hpx).
  pose proof (names_elem r _ ps Hps p x Hpx) as Hpin.
  destruct (ps_nonempty r _ ps Hps p Hpin) as (s & Hs).
  pose proof (ps_sub r _ ps Hps p s Hpin Hs) as HsS.
  assert (collected a s) as Hcol.
  { destruct Hp as (Hc & _). by apply Hc, Hmem. }
  apply collected_reachable in Hcol as (w & Hw & Hrun).
  pose proof (pruned_start a r Hp) as HstartR.
  destruct (pruned_run a r w (start_state r) Hwf Hne Hp HstartR Hw)
    as (t & Ha & Hr & _).
  assert (start_state r = start_state a) as Heq
    by (by destruct Hp as (_ & _ & _ & ? & _)).
  rewrite Heq, Hrun in Ha. injection Ha as <-.
  assert (over r w) as Hw' by (unfold over; by rewrite (pruned_alphabet a r)).
  destruct (rebuilt_run iter iter_perm r _ ps Hps Htot m w (start_state r)
              (start_state m) Hreb) as (t & y & Ht & Hy & _ & Hn);
    [by apply Hmem|done|done|].
  rewrite Hr in Ht. injection Ht as <-.
  assert (y = x) as ->.
  { eapply name_of_fun; [done|]. by eapply name_of_block. }
  exists w. split; [unfold over; by rewrite Hal|done].
Qed.

End Sizes.

(** ** Pruning once more, and in another order *)

Lemma pruned_well_formed a r :
  well_formed a → no_empty_reach a → pruned a r → well_formed r.
Proof.
  intros Hwf Hne Hp.
  pose proof (pruned_start a r Hp) as Hstart.
  pose proof Hp as (Hcol & HF & Htr & Hst & Hal).
  split; [set_solver|]. split; [done|]. split; [set_solver|].
  intros s Hs. rewrite Htr, bool_decide_eq_true_2 by done.
  pose proof (pruned_sub a r s Hwf Hp Hs) as HsA.
  destruct Hwf as (H1 & H2 & H3 & Hrows).
  destruct (Hrows s HsA) as (row & Hrow & Hsyms).
  exists row. split; [done|]. intros symbol Hsym. rewrite Hal in Hsym.
  destruct (pruned_total a r s symbol) as (t & Hd & Ht); [done..|].
  exists t. split; [|done].
  rewrite (pruned_delta a r) in Hd by done.
  unfold delta, lookup2 in Hd. by rewrite Hrow in Hd.
Qed.

Lemma pruned_no_empty_name a r :
  well_formed a → no_empty_name a → pruned a r → no_empty_name r.
Proof.
  intros Hwf Hne Hp Hin. pose proof Hp as (_ & _ & _ & -> & _).
  apply Hne. by apply (pruned_sub a r).
Qed.

Section PrunedValid.

Variable iter : gset string → list string.
Hypothesis iter_perm : ∀ X, iter X ≡ₚ elements X.

Lemma remove_idempotent a fuel r fuel' :
  remove_unreachable_states iter fuel a = Ok r →
  (size (targets r) ≤ fuel')%nat →
  remove_unreachable_states iter fuel' r = Ok r.
Proof.
  intros Hr Hfuel.
  pose proof (remove_Ok_pruned iter iter_perm a fuel r Hr) as [Hp Hall].
  pose proof Hp as (HQ & HF & Htr & Hno & Hst & Hal).
  destruct (remove_general iter iter_perm r fuel' Hfuel)
    as [(r' & Hr')|(_ & s & Hs & Hnone)].
  - rewrite Hr'. f_equal.
    pose proof (remove_Ok_pruned iter iter_perm r fuel' r' Hr')
      as [(HQ' & HF' & Htr' & Hno' & Hst' & Hal') _].
    destruct r as [Q S tr q0 F], r' as [Q' S' tr' q0' F']. simpl in *.
    f_equal; try congruence.
    + apply set_eq. intros s. rewrite HQ', (collected_pruned a _ s Hp), HQ.
      tauto.
    + apply map_eq. intros s.
      destruct (collected_dec_by iter iter_perm a fuel _ s Hr) as [Hc|Hn].
      * apply Htr'. by apply (collected_pruned a _ s Hp).
      * rewrite Hno by done. apply Hno'.
        by rewrite (collected_pruned a _ s Hp).
    + apply set_eq. intros s. rewrite HF', (collected_pruned a _ s Hp), HF.
      tauto.
  - exfalso. apply (collected_pruned a r s Hp) in Hs.
    rewrite Htr in Hnone by done. destruct (Hall s Hs) as [? ?]. congruence.
Qed.

End PrunedValid.

Lemma remove_order_independent iter iter' a fuel :
  (∀ X, iter X ≡ₚ elements X) → (∀ X, iter' X ≡ₚ elements X) →
  (size (targets a) ≤ fuel)%nat →
  remove_unreachable_states iter fuel a = remove_unreachable_states iter' fuel a.
Proof.
  intros Hiter Hiter' Hfuel.
  destruct (remove_general iter Hiter a fuel Hfuel)
    as [(r & Hr)|(Hr & s & Hs & Hnone)];
  destruct (remove_general iter' Hiter' a fuel Hfuel)
    as [(r' & Hr')|(Hr' & s' & Hs' & Hnone')].
  - rewrite Hr, Hr'. f_equal.
    apply (pruned_of_unique iter Hiter a r r' fuel Hr).
    + by apply (remove_Ok_pruned iter Hiter a fuel).
    + by apply (remove_Ok_pruned iter' Hiter' a fuel).
  - exfalso. apply (remove_Ok_pruned iter Hiter) in Hr as [_ Hall].
    destruct (Hall s' Hs') as [? ?]. congruence.
  - exfalso. apply (remove_Ok_pruned iter' Hiter') in Hr' as [_ Hall].
    destruct (Hall s Hs) as [? ?]. congruence.
  - by rewrite Hr, Hr'.
Qed.

(** ** Independence of the enumeration order *)

Lemma table_ext n T T' :
  table_dims n T → table_dims n T' →
  (∀ i j, is_marked T i j = is_marked T' i j) → T = T'.
Proof.
  intros [HT Hrows] [HT' Hrows'] Heq. apply list_eq_same_length with n; [done..|].
  intros i row row' Hi Hrow Hrow'.
  apply list_eq_same_length with n.
  - apply Hrows'. by eapply list_elem_of_lookup_2.
  - apply Hrows. by eapply list_elem_of_lookup_2.
  - intros j b b' Hj Hb Hb'. specialize (Heq i j). unfold is_marked in Heq.
    rewrite Hrow, Hrow', Hb, Hb' in Heq. done.
Qed.

Lemma final_table_unique iter iter' dfa sts state_map T T' :
  (∀ X, iter X ≡ₚ elements X) → (∀ X, iter' X ≡ₚ elements X) →
  (∀ s i, state_map !! s = Some i ↔ sts !! i = Some s) →
  table_ok dfa sts T → stable iter dfa sts state_map T →
  table_ok dfa sts T' → stable iter' dfa sts state_map T' →
  T = T'.
Proof.
  intros Hiter Hiter' Hmap Hok Hst Hok' Hst'.
  apply (table_ext (length sts)); [by destruct Hok|by destruct Hok'|].
  intros i j.
  destruct (decide (i < j < length sts)%nat) as [[Hij Hj]|Hout].
  - destruct (lookup_lt_is_Some_2 sts i) as [s Hs]; [lia|].
    destruct (lookup_lt_is_Some_2 sts j) as [t Ht]; [lia|].
    pose proof (unmarked_iff_nerode iter Hiter dfa sts state_map Hmap T i j s t
                  Hok Hst Hij Hs Ht) as H.
    pose proof (unmarked_iff_nerode iter' Hiter' dfa sts state_map Hmap T' i j s t
                  Hok' Hst' Hij Hs Ht) as H'.
    destruct (is_marked T i j), (is_marked T' i j); try done.
    + apply H. by apply H'.
    + symmetry. apply H'. by apply H.
  - destruct Hok as (_ & Hs & _), Hok' as (_ & Hs' & _).
    destruct (is_marked T i j) eqn:E.
    { by destruct (Hs i j E). }
    destruct (is_marked T' i j) eqn:E'; [|done].
    by destruct (Hs' i j E').
Qed.

Lemma pm_order iter iter' dfa sts ps :
  (∀ X, iter X ≡ₚ elements X) → (∀ X, iter' X ≡ₚ elements X) →
  partition_ok dfa sts ps →
  make_partition_map iter ps = make_partition_map iter' ps.
Proof.
  intros Hiter Hiter' Hps. apply map_eq. intros s.
  destruct (make_partition_map iter ps !! s) as [p|] eqn:E.
  - apply (pm_Some iter Hiter) in E as [Hp Hs]. symmetry.
    by apply (pm_of_block iter' Hiter' dfa sts).
  - destruct (make_partition_map iter' ps !! s) as [p|] eqn:E'; [|done].
    apply (pm_Some iter' Hiter') in E' as [Hp Hs].
    by rewrite (pm_of_block iter Hiter dfa sts ps Hps s p) in E.
Qed.

(** No row of [new_transitions] is left empty: a row is created when its
    first entry is written. *)
Definition rows_nonempty (nt : gmap string (gmap string string)) : Prop :=
  ∀ name row, nt !! name = Some row → row ≠ ∅.

Lemma make_transitions_rows iter dfa pm names ps nt :
  make_transitions iter dfa pm names ps = Ok nt → rows_nonempty nt.
Proof.
  unfold make_transitions. apply for_each_inv.
  - intros name row. by rewrite lookup_empty.
  - intros nt0 p nt1 _ Hnt0 H.
    apply bind_Ok in H as (r & _ & H). apply bind_Ok in H as (new_name & _ & H).
    revert H. apply for_each_inv; [done|].
    intros nt2 symbol nt3 _ Hnt2 H. unfold add_transition in H.
    apply bind_Ok in H as (row & _ & H). apply bind_Ok in H as (t & _ & H).
    apply bind_Ok in H as (p' & _ & H). apply bind_Ok in H as (x & _ & H).
    injection H as <-. intros name row'.
    destruct (decide (name = new_name)) as [->|Hne].
    + rewrite lookup_insert_eq. intros [= <-]. apply insert_non_empty.
    + rewrite lookup_insert_ne by done. apply Hnt2.
Qed.

Lemma nt_ext (nt nt' : gmap string (gmap string string)) :
  rows_nonempty nt → rows_nonempty nt' →
  (∀ name symbol, lookup2 nt name symbol = lookup2 nt' name symbol) →
  nt = nt'.
Proof.
  intros Hn Hn' Heq. apply map_eq. intros name.
  destruct (nt !! name) as [row|] eqn:E, (nt' !! name) as [row'|] eqn:E'.
  - f_equal. apply map_eq. intros symbol. specialize (Heq name symbol).
    unfold lookup2 in Heq. by rewrite E, E' in Heq.
  - exfalso. destruct (map_choose row (Hn name row E)) as (symbol & x & Hx).
    specialize (Heq name symbol). unfold lookup2 in Heq.
    rewrite E, E' in Heq. simpl in Heq. congruence.
  - exfalso. destruct (map_choose row' (Hn' name row' E')) as (symbol & x & Hx).
    specialize (Heq name symbol). unfold lookup2 in Heq.
    rewrite E, E' in Heq. simpl in Heq. congruence.
  - done.
Qed.

Lemma head_elem {A} (l : list A) x : head l = Some x → x ∈ l.
Proof. destruct l; [done|]. intros [= <-]. by left. Qed.

Lemma tr_rel_order iter iter' dfa sts ps name symbol x x' :
  (∀ X, iter X ≡ₚ elements X) → (∀ X, iter' X ≡ₚ elements X) →
  partition_ok dfa sts ps →
  tr_rel iter dfa ps name symbol x → tr_rel iter' dfa ps name symbol x' →
  x = x'.
Proof.
  intros Hiter Hiter' Hps
    (p & r & t & p1 & Hp & Hname & Hsym & Hr & Hd & Hp1 & Hx)
    (p' & r' & t' & p1' & Hp' & Hname' & _ & Hr' & Hd' & Hp1' & Hx').
  assert (p' = p) as -> by (by eapply (names_inj dfa sts ps)).
  apply head_elem, (elem_of_iter iter Hiter) in Hr.
  apply head_elem, (elem_of_iter iter' Hiter') in Hr'.
  pose proof Hps as (Hb & _). destruct (Hb p Hp) as (s0 & Hs0).
  pose proof (block_of_same dfa sts p s0 r Hs0 Hr) as [_ Hblk].
  apply Hblk in Hr' as [_ Hn].
  pose proof (nerode_step dfa r r' symbol t t' Hsym Hd Hd' Hn) as Hn'.
  rewrite <- (pm_order iter iter' dfa sts ps) in Hp1' by done.
  assert (name_of iter ps t' x) as (p2 & Hp2 & Hx2).
  { apply (name_of_nerode iter Hiter dfa sts ps Hps t t' x); [| |done].
    - apply (pm_Some iter Hiter) in Hp1' as [? ?]. by eapply (ps_sub dfa sts ps).
    - by exists p1. }
  congruence.
Qed.

Lemma make_transitions_order iter iter' dfa sts ps :
  (∀ X, iter X ≡ₚ elements X) → (∀ X, iter' X ≡ₚ elements X) →
  partition_ok dfa sts ps → total_on_sts dfa sts →
  make_transitions iter dfa (make_partition_map iter ps)
    (make_state_names ps) ps =
  make_transitions iter' dfa (make_partition_map iter' ps)
    (make_state_names ps) ps.
Proof.
  intros Hiter Hiter' Hps Htot.
  destruct (make_transitions_spec iter Hiter dfa sts ps Hps Htot)
    as (nt & Hnt & Hs & Hc).
  destruct (make_transitions_spec iter' Hiter' dfa sts ps Hps Htot)
    as (nt' & Hnt' & Hs' & Hc').
  rewrite Hnt, Hnt'. f_equal.
  apply nt_ext; [by eapply make_transitions_rows..|].
  intros name symbol.
  destruct (lookup2 nt name symbol) as [x|] eqn:E.
  - pose proof (Hs name symbol x E) as Hrel.
    pose proof Hrel as (p & _ & _ & _ & Hp & Hname & Hsym & _).
    destruct (Hc' p name symbol Hp Hname Hsym) as [x' Hx'].
    rewrite Hx'. f_equal.
    apply (tr_rel_order iter iter' dfa sts ps name symbol x x'); try done.
    by apply Hs'.
  - destruct (lookup2 nt' name symbol) as [x'|] eqn:E'; [|done].
    pose proof (Hs' name symbol x' E') as (p & _ & _ & _ & Hp & Hname & Hsym & _).
    destruct (Hc p name symbol Hp Hname Hsym) as [x Hx]. congruence.
Qed.

Lemma rebuild_order iter iter' dfa sts ps :
  (∀ X, iter X ≡ₚ elements X) → (∀ X, iter' X ≡ₚ elements X) →
  partition_ok dfa sts ps → total_on_sts dfa sts →
  rebuild iter dfa ps = rebuild iter' dfa ps.
Proof.
  intros Hiter Hiter' Hps Htot. unfold rebuild.
  rewrite (make_transitions_order iter iter' dfa sts ps) by done.
  by rewrite (pm_order iter iter' dfa sts ps).
Qed.

Lemma minimize_order iter iter' a fuel :
  (∀ X, iter X ≡ₚ elements X) → (∀ X, iter' X ≡ₚ elements X) →
  well_formed a → no_empty_reach a → (fuel_bound a ≤ fuel)%nat →
  minimize iter fuel a = minimize iter' fuel a.
Proof.
  intros Hiter Hiter' Hwf Hne Hfuel.
  destruct (minimize_total iter Hiter a Hwf Hne)
    as (r & _ & m & Hp & Hm & _).
  destruct (minimize_total iter' Hiter' a Hwf Hne)
    as (r' & _ & m' & Hp' & Hm' & _).
  assert (r' = r) as -> by (by eapply pruned_unique). clear Hp'.
  specialize (Hm fuel Hfuel). specialize (Hm' fuel Hfuel).
  rewrite Hm, Hm'.
  unfold minimize in Hm, Hm'.
  apply bind_Ok in Hm as ([[dfa sts] T] & Htab & Hm).
  apply bind_Ok in Hm as (ps & Hg & Hm).
  apply bind_Ok in Hm' as ([[dfa' sts'] T'] & Htab' & Hm').
  apply bind_Ok in Hm' as (ps' & Hg' & Hm').
  destruct (minimize_table_blocks iter Hiter a fuel dfa sts T Htab)
    as (ps0 & Hg0 & Hps).
  rewrite Hg in Hg0. injection Hg0 as <-.
  apply (minimize_table_Ok iter Hiter) in Htab as (Hr & -> & Hok & Hst).
  apply (minimize_table_Ok iter' Hiter') in Htab' as (Hr' & -> & Hok' & Hst').
  destruct (remove_unreachable_states_spec iter Hiter a Hwf) as (r1 & Hr1 & Hp1).
  destruct (remove_unreachable_states_spec iter' Hiter' a Hwf) as (r2 & Hr2 & Hp2).
  assert (size (states a) ≤ fuel)%nat as Hsz by (unfold fuel_bound in Hfuel; nia).
  rewrite Hr1 in Hr by done. rewrite Hr2 in Hr' by done.
  injection Hr as <-. injection Hr' as <-.
  assert (r1 = r) as -> by (by eapply pruned_unique).
  assert (r2 = r) as -> by (by eapply pruned_unique).
  assert (sorted (iter' (states r)) = sorted (iter (states r))) as Hsts.
  { apply sorted_perm_eq. by rewrite Hiter, Hiter'. }
  rewrite Hsts in *.
  destruct (sorted_iter iter Hiter (states r)) as [Hnd Hmem].
  assert (T' = T) as ->.
  { symmetry. eapply (final_table_unique iter iter'); try done.
    by apply state_map_of_spec. }
  rewrite Hg in Hg'. injection Hg' as <-.
  rewrite <- Hm, <- Hm'.
  apply (rebuild_order iter iter' r (sorted (iter (states r)))); try done.
  intros s symbol Hs%Hmem Hsym.
  destruct (pruned_total a r s symbol) as (t & Hd & Ht); try done.
  - by rewrite <- (pruned_alphabet a r).
  - exists t. split; [done|]. by apply Hmem.
Qed.

Lemma minimize_rows iter fuel a m :
  minimize iter fuel a = Ok m → rows_nonempty (transitions m).
Proof.
  unfold minimize. intros ([[dfa sts] T] & _ & H)%bind_Ok.
  apply bind_Ok in H as (ps & _ & H). unfold rebuild in H.
  apply bind_Ok in H as (p0 & _ & H). apply bind_Ok in H as (x0 & _ & H).
  apply bind_Ok in H as (F' & _ & H). apply bind_Ok in H as (nt & Hnt & H).
  injection H as <-. simpl. by eapply make_transitions_rows.
Qed.

(** ** What [minimize] returns *)

Section Summary.

Variable iter : gset string → list string.
Hypothesis iter_perm : ∀ X, iter X ≡ₚ elements X.

(** In an automaton whose states are pairwise distinguishable every block
    is a single state. *)
Lemma minimal_blocks a r ps :
  well_formed a → no_empty_reach a → pruned a r →
  partition_ok r (sorted (iter (states r))) ps →
  (∀ s t, s ∈ states a → t ∈ states a → s ≠ t → distinguishable a s t) →
  ∀ p s t, p ∈ ps → s ∈ p → t ∈ p → s = t.
Proof.
  intros Hwf Hne Hp Hps Hmin p s t Hpin Hs Ht.
  destruct (sorted_iter iter iter_perm (states r)) as [_ Hmem].
  destruct (decide (s = t)) as [|Hst]; [done|]. exfalso.
  pose proof (ps_sub r _ ps Hps p s Hpin Hs) as HsS%Hmem.
  pose proof (ps_sub r _ ps Hps p t Hpin Ht) as HtS%Hmem.
  destruct (Hmin s t) as (w & Hw & Hd); [by eapply pruned_sub..|done|].
  apply Hd.
  rewrite <- (pruned_accepts_from a r w s), <- (pruned_accepts_from a r w t)
    by done.
  pose proof Hps as (Hb & _). destruct (Hb p Hpin) as (s0 & Hs0).
  pose proof (block_of_same r _ p s0 s Hs0 Hs) as [_ Hblk].
  apply Hblk in Ht as [_ Hn]. apply Hn.
  unfold over. by rewrite (pruned_alphabet a r).
Qed.

Lemma names_range dfa sts ps x :
  partition_ok dfa sts ps →
  x ∈ (map_img (make_state_names ps) : gset string) ↔
  ∃ k, (k < length ps)%nat ∧ x = "q" +:+ pretty k.
Proof.
  intros Hps. rewrite elem_of_map_img. split.
  - intros (p & (k & Hk & ->)%(names_lookup dfa sts ps Hps)).
    exists k. split; [by eapply lookup_lt_Some|done].
  - intros (k & Hk & ->).
    destruct (lookup_lt_is_Some_2 ps k Hk) as [p Hp].
    exists p. apply (names_lookup dfa sts ps Hps). eauto.
Qed.

Definition minimal (a : DFA) : Prop :=
  (∀ s, s ∈ states a → reachable a s) ∧
  (∀ s t, s ∈ states a → t ∈ states a → s ≠ t → distinguishable a s t).

Lemma minimize_summary a :
  well_formed a → no_empty_reach a →
  ∃ m,
    (∀ fuel, (fuel_bound a ≤ fuel)%nat → minimize iter fuel a = Ok m) ∧
    alphabet m = alphabet a ∧
    (∀ w, over a w → accepts m w = accepts a w) ∧
    minimal m ∧
    (size (states m) ≤ size (states a))%nat ∧
    (∀ x, x ∈ states m ↔
          ∃ k, (k < size (states m))%nat ∧ x = "q" +:+ pretty k) ∧
    (alphabet a ≠ ∅ → well_formed m) ∧
    (minimal a → size (states m) = size (states a)) ∧
    start_state m ∈ states m ∧
    final_states m ⊆ states m ∧
    (∀ x symbol y, delta m x symbol = Some y →
       x ∈ states m ∧ symbol ∈ alphabet m ∧ y ∈ states m) ∧
    rows_nonempty (transitions m) ∧
    (∀ x symbol, x ∈ states m → symbol ∈ alphabet m →
       is_Some (delta m x symbol)).
Proof.
  intros Hwf Hne.
  destruct (minimize_facts iter iter_perm a Hwf Hne)
    as (r & ps & m & Hp & Hm & Hps & Htot & Hstart & Hreb & Hdec).
  destruct (sorted_iter iter iter_perm (states r)) as [_ Hmem].
  pose proof (rebuilt_size iter r _ ps m Hps Hreb) as Hsize.
  pose proof (pruned_alphabet a r Hp) as Hal.
  exists m. split; [done|]. split.
  { destruct Hreb as (_ & -> & _). done. }
  split.
  { intros w Hw. rewrite <- (pruned_accepts iter iter_perm a r w) by done.
    apply (rebuilt_accepts iter iter_perm r _ ps Hps Htot Hstart); [done|].
    unfold over. by rewrite Hal. }
  split.
  { split.
    - intros x Hx. by eapply minimized_reachable.
    - intros x y Hx Hy Hxy. by eapply minimized_distinct. }
  split.
  { rewrite Hsize.
    etrans; [by apply (partition_length_le r (sorted (iter (states r))) ps (states r))|].
    apply subseteq_size. intros s Hs. by eapply pruned_sub. }
  split.
  { intros x. rewrite Hsize. destruct Hreb as (-> & _).
    by apply (names_range r (sorted (iter (states r)))). }
  split.
  { intros Hne'. apply (rebuilt_well_formed iter r _ ps Hps m Hreb).
    by rewrite Hal. }
  split.
  { intros [Hreach Hmin]. rewrite Hsize.
    rewrite (partition_length_singletons r (sorted (iter (states r))) ps
               (states r) Hps Hmem).
    - f_equal. apply set_eq. intros s. split; [by eapply pruned_sub|].
      intros Hs. destruct Hp as (Hcol & _). apply Hcol.
      apply reachable_collected; [done..|]. by apply Hreach.
    - by eapply minimal_blocks. }
  pose proof Hreb as (Hst & Halm & (p0 & _ & Hx0) & HF & Hsound & Hcomp).
  split.
  { rewrite Hst. apply elem_of_map_img. by exists p0. }
  split.
  { intros x (p & _ & _ & Hx)%HF. rewrite Hst. apply elem_of_map_img.
    by exists p. }
  split.
  { intros x symbol y (p & _ & _ & p' & _ & Hx & Hsym & _ & _ & _ & Hy)%Hsound.
    rewrite Hst, Halm, !elem_of_map_img. eauto. }
  split.
  { apply (minimize_rows iter (fuel_bound a) a). by apply Hm. }
  intros x symbol Hx Hsym. rewrite Hst in Hx.
  apply elem_of_map_img in Hx as (p & Hpx). rewrite Halm in Hsym.
  apply (Hcomp p); [|done..]. by eapply (names_elem r).
Qed.

Lemma names_no_empty_name m :
  (∀ x, x ∈ states m ↔
        ∃ k, (k < size (states m))%nat ∧ x = "q" +:+ pretty k) →
  no_empty_name m.
Proof. intros H (k & _ & Hk)%H. discriminate. Qed.

Lemma minimize_twice a :
  well_formed a → no_empty_reach a → alphabet a ≠ ∅ →
  ∃ m m',
    (∀ fuel, (fuel_bound a ≤ fuel)%nat → minimize iter fuel a = Ok m) ∧
    (∀ fuel, (fuel_bound m ≤ fuel)%nat → minimize iter fuel m = Ok m') ∧
    size (states m') = size (states m) ∧
    ∀ w, over a w → accepts m' w = accepts a w.
Proof.
  intros Hwf Hne Hal.
  destruct (minimize_summary a Hwf Hne)
    as (m & Hm & Halm & Hlang & Hmin & _ & Hnames & Hwfm & _).
  specialize (Hwfm Hal).
  pose proof (no_empty_name_reach m Hwfm (names_no_empty_name m Hnames))
    as Hnem.
  destruct (minimize_summary m Hwfm Hnem)
    as (m' & Hm' & _ & Hlang' & _ & _ & _ & _ & Hsz & _).
  exists m, m'. split; [done|]. split; [done|]. split; [by apply Hsz|].
  intros w Hw. rewrite Hlang'; [by apply Hlang|].
  unfold over. by rewrite Halm.
Qed.

Lemma over_empty_alphabet a w : alphabet a = ∅ → over a w → w = [].
Proof.
  intros Hal Hw. destruct w as [|c w]; [done|].
  apply Forall_cons in Hw as [Hc _]. rewrite Hal in Hc.
  by apply not_elem_of_empty in Hc.
Qed.

(** The automaton with the one state [q0] and no transitions. *)
Definition single_state (final : bool) : DFA :=
  mkDFA {["q0"]} ∅ ∅ "q0" (if final then {["q0"]} else ∅).

Lemma minimize_empty_alphabet a :
  well_formed a → no_empty_reach a → alphabet a = ∅ →
  ∀ fuel, (fuel_bound a ≤ fuel)%nat →
    minimize iter fuel a =
    Ok (single_state (bool_decide (start_state a ∈ final_states a))).
Proof.
  intros Hwf Hne Hal fuel Hfuel. unfold single_state.
  destruct (minimize_summary a Hwf Hne)
    as (m & Hm & Halm & Hlang & [Hreach _] & _ & Hnames & _ & _ &
        Hstart & HF & Htr & Hrows & _).
  rewrite (Hm fuel Hfuel). f_equal.
  rewrite Hal in Halm.
  assert (states m = {[start_state m]}) as HQ.
  { apply set_eq. intros x. rewrite elem_of_singleton. split; [|by intros ->].
    intros (w & Hw & Hrun)%Hreach.
    apply (over_empty_alphabet m) in Hw as ->; [|done].
    simpl in Hrun. congruence. }
  assert (start_state m = "q0") as Hq0.
  { apply Hnames in Hstart as (k & Hk & ->).
    rewrite HQ, size_singleton in Hk. by replace k with 0%nat by lia. }
  rewrite Hq0 in HQ.
  assert (transitions m = ∅) as Hnt.
  { apply map_eq. intros name. rewrite lookup_empty.
    destruct (transitions m !! name) as [row|] eqn:E; [exfalso|done].
    destruct (map_choose row (Hrows name row E)) as (symbol & x & Hx).
    destruct (Htr name symbol x) as (_ & Hsym & _).
    - unfold delta, lookup2. by rewrite E.
    - rewrite Halm in Hsym. by apply not_elem_of_empty in Hsym. }
  assert (final_states m =
            if bool_decide (start_state a ∈ final_states a)
            then {["q0"]} else ∅) as HFm.
  { specialize (Hlang [] (Forall_nil_2 _)).
    unfold accepts, accepts_from in Hlang. simpl in Hlang. rewrite Hq0 in Hlang.
    rewrite HQ in HF. apply set_eq. intros x.
    destruct (decide (start_state a ∈ final_states a)) as [Hs|Hs].
    - rewrite (bool_decide_eq_true_2 _ Hs) in Hlang |- *.
      apply bool_decide_eq_true_1 in Hlang. rewrite elem_of_singleton.
      split; [|by intros ->]. intros Hx%HF. by apply elem_of_singleton in Hx.
    - rewrite (bool_decide_eq_false_2 _ Hs) in Hlang |- *.
      apply bool_decide_eq_false_1 in Hlang.
      split; [|by intros ?%not_elem_of_empty].
      intros Hx. pose proof (HF x Hx) as ->%elem_of_singleton. done. }
  destruct m as [Q S tr q0 F]. simpl in *. congruence.
Qed.

End Summary.

(** ** The end of [minimize] on any automaton *)

Lemma group_no_timeout sts T n : group sts T n ≠ NoFuel.
Proof.
  unfold group. apply bind_no_timeout; [|done].
  apply for_each_no_timeout. intros st i. unfold group_outer.
  apply bind_no_timeout; [apply getidx_no_timeout|]. intros si.
  case_bool_decide; [done|].
  apply bind_no_timeout; [|done].
  apply for_each_no_timeout. intros st' j. unfold group_inner.
  apply bind_no_timeout; [apply table_get_no_timeout|]. intros []; [done|].
  apply bind_no_timeout; [apply getidx_no_timeout|done].
Qed.

Lemma rebuild_no_timeout iter dfa ps : rebuild iter dfa ps ≠ NoFuel.
Proof.
  unfold rebuild.
  apply bind_no_timeout; [apply getitem_no_timeout|]. intros p0.
  apply bind_no_timeout; [apply getitem_no_timeout|]. intros x0.
  apply bind_no_timeout.
  { unfold make_final_states. apply for_each_no_timeout. intros acc p.
    case_bool_decide; [done|].
    apply bind_no_timeout; [apply getitem_no_timeout|done]. }
  intros F'. apply bind_no_timeout; [|done].
  unfold make_transitions. apply for_each_no_timeout. intros nt p.
  apply bind_no_timeout; [by destruct (head (iter p))|]. intros r.
  apply bind_no_timeout; [apply getitem_no_timeout|]. intros name.
  apply for_each_no_timeout. intros nt' symbol. unfold add_transition.
  repeat (apply bind_no_timeout; [apply getitem_no_timeout|intros ?]).
  done.
Qed.

Lemma minimize_no_timeout iter a fuel :
  (∀ X, iter X ≡ₚ elements X) →
  (size (targets a) ≤ fuel)%nat →
  (size (states a) * size (states a) < fuel)%nat →
  minimize iter fuel a ≠ NoFuel.
Proof.
  intros Hiter Hf1 Hf2. unfold minimize, minimize_table.
  destruct (remove_general iter Hiter a fuel Hf1) as [(r & Hr)|[Hr _]];
    rewrite Hr; simpl; [|done].
  destruct (remove_Ok_pruned iter Hiter a fuel r Hr) as [(HQ & _) _].
  set (sts := sorted (iter (states r))).
  destruct (sorted_iter iter Hiter (states r)) as [Hnd _]. fold sts in Hnd.
  destruct (base_table_total r sts) as (T0 & HT0). rewrite HT0. simpl.
  assert (length sts ≤ size (states a))%nat as Hlen.
  { unfold sts. rewrite (length_sorted_iter iter Hiter).
    apply subseteq_size. intros s Hs. by apply HQ in Hs as [? _]. }
  pose proof (closure_no_timeout iter Hiter r sts _ (state_map_of_spec sts Hnd)
                fuel T0 (base_table_ok r sts T0 HT0)) as Hcl.
  destruct (closure iter r sts _ fuel (length sts) T0) as [T| |] eqn:E; simpl.
  - apply bind_no_timeout; [apply group_no_timeout|].
    intros ps. apply rebuild_no_timeout.
  - done.
  - exfalso. apply Hcl; [|done].
    pose proof (unmarked_count_le sts T0).
    pose proof (length_pairs_le (length sts)). nia.
Qed.

(** ** A reached state named by the empty string *)

Lemma for_each_Ok_elem {A S} (l : list A) (body : S → A → outcome S) s s' x :
  for_each l body s = Ok s' → x ∈ l → ∃ s1 s2, body s1 x = Ok s2.
Proof.
  revert s. induction l as [|y l IH]; intros s H Hx; [by apply elem_of_nil in Hx|].
  simpl in H. apply bind_Ok in H as (s1 & H1 & H2).
  apply elem_of_cons in Hx as [->|Hx]; [by eauto|by eapply IH].
Qed.

Lemma collected_not_empty a s : start_state a ≠ "" → collected a s → s ≠ "".
Proof. intros Hst Hc. by destruct Hc. Qed.

(** The traversal meets a transition into the state it skips. *)
Lemma reachable_empty_edge a :
  reachable a "" → start_state a ≠ "" →
  ∃ s c, collected a s ∧ c ∈ alphabet a ∧ delta a s c = Some "".
Proof.
  intros (w & Hw & Hrun) Hst.
  assert (∀ w s0, collected a s0 → over a w → run a s0 w = Some "" →
            ∃ s c, collected a s ∧ c ∈ alphabet a ∧ delta a s c = Some "") as H.
  { clear w Hw Hrun. induction w as [|c w IH]; intros s0 Hc Hw Hrun.
    - simpl in Hrun. injection Hrun as ->.
      by apply collected_not_empty in Hc.
    - apply Forall_cons in Hw as [Hcin Hw]. simpl in Hrun.
      destruct (delta a s0 c) as [u|] eqn:Hd; simpl in Hrun; [|done].
      destruct (decide (u = "")) as [->|Hu]; [by eauto|].
      apply (IH u); [|done..]. by eapply collected_step. }
  eapply H; [constructor|done..].
Qed.

Section EmptyReach.

Variable iter : gset string → list string.
Hypothesis iter_perm : ∀ X, iter X ≡ₚ elements X.

Lemma minimize_empty_reach a fuel m :
  well_formed a → reachable a "" → start_state a ≠ "" →
  minimize iter fuel a ≠ Ok m.
Proof.
  intros Hwf Hreach Hst Hm.
  destruct (reachable_empty_edge a Hreach Hst) as (s & c & Hs & Hc & Hd).
  unfold minimize in Hm.
  apply bind_Ok in Hm as ([[r sts] T] & Htab & Hm).
  apply bind_Ok in Hm as (ps & Hg & Hreb).
  destruct (minimize_table_blocks iter iter_perm a fuel r sts T Htab)
    as (ps0 & Hg0 & Hps).
  rewrite Hg in Hg0. injection Hg0 as <-.
  apply (minimize_table_Ok iter iter_perm) in Htab as (Hr & -> & Hok & Hstable).
  destruct (remove_unreachable_states_spec iter iter_perm a Hwf)
    as (r1 & Hr1 & Hp).
  assert (r1 = r) as ->.
  { specialize (Hr1 (size (states a)) (le_n _)).
    apply (remove_unreachable_states_settled iter a fuel) in Hr1;
      [congruence|by rewrite Hr]. }
  destruct (sorted_iter iter iter_perm (states r)) as [Hnd Hmem].
  set (sts := sorted (iter (states r))) in *.
  pose proof (state_map_of_spec sts Hnd) as Hmap.
  pose proof Hp as (Hcol & _ & _ & _ & Hal).
  assert ("" ∉ sts) as Hempty.
  { intros Hin%Hmem%Hcol. by apply (collected_not_empty a "" Hst). }
  assert (s ∈ sts) as Hsin by (by apply Hmem, Hcol).
  assert (delta r s c = Some "") as Hdr.
  { rewrite (pruned_delta a r); [done..|]. by apply Hcol. }
  assert (c ∈ iter (alphabet r)) as Hcr.
  { apply (elem_of_iter iter iter_perm). by rewrite Hal. }
  pose proof Hps as (Hblk & Hcover & _).
  destruct (Hcover s Hsin) as (p & Hp_in & Hsp).
  (* the representative of the block of [s] *)
  unfold rebuild in Hreb.
  apply bind_Ok in Hreb as (p0 & _ & Hreb).
  apply bind_Ok in Hreb as (x0 & _ & Hreb).
  apply bind_Ok in Hreb as (F' & _ & Hreb).
  apply bind_Ok in Hreb as (nt & Hnt & _).
  unfold make_transitions in Hnt.
  destruct (for_each_Ok_elem _ _ _ _ p Hnt Hp_in) as (nt1 & nt2 & Hbody).
  apply bind_Ok in Hbody as (rr & Hrr & Hbody).
  apply bind_Ok in Hbody as (name & _ & Hbody).
  destruct (head (iter p)) as [rr'|] eqn:Hhead; [|done].
  simpl in Hrr. injection Hrr as ->.
  assert (rr ∈ p) as Hrp.
  { apply (elem_of_iter iter iter_perm). by apply head_elem. }
  destruct (for_each_Ok_elem _ _ _ _ c Hbody Hcr) as (nt3 & nt4 & Hadd).
  unfold add_transition in Hadd.
  apply bind_Ok in Hadd as (row & Hrow%getitem_Ok & Hadd).
  apply bind_Ok in Hadd as (next & Hnext%getitem_Ok & Hadd).
  apply bind_Ok in Hadd as (p' & Hp'%getitem_Ok & _).
  assert (delta r rr c = Some next) as Hdrr.
  { unfold delta, lookup2. by rewrite Hrow. }
  assert (next ∈ sts) as Hnin.
  { apply (pm_Some iter iter_perm) in Hp' as [? ?]. by eapply (ps_sub r sts ps). }
  destruct (decide (rr = s)) as [->|Hne].
  { rewrite Hdr in Hdrr. injection Hdrr as <-. done. }
  (* otherwise the pair of [rr] and [s] is unmarked, and was scanned *)
  assert (∀ i j s1 s2, (i < j)%nat → sts !! i = Some s1 → sts !! j = Some s2 →
            s1 ∈ p → s2 ∈ p → s1 = s ∨ s2 = s → False) as Hpair.
  { intros i j s1 s2 Hij H1 H2 Hp1 Hp2 Hor.
    destruct (Hblk p Hp_in) as (s0 & Hs0).
    pose proof (block_of_same r sts p s0 s1 Hs0 Hp1) as [_ Hb1].
    apply Hb1 in Hp2 as [_ Hn].
    apply (unmarked_iff_nerode iter iter_perm r sts _ Hmap T i j s1 s2
             Hok Hstable Hij H1 H2) in Hn.
    assert (i < j < length sts)%nat as Hijn.
    { split; [done|]. by eapply lookup_lt_Some. }
    pose proof (scan_symbols_Ok r sts _ T i j _ false (Hstable i j Hijn Hn)
                  c Hcr) as (row' & col' & Hsp' & _).
    destruct Hsp' as (si & sj & n1 & n2 & i1 & i2 & Hi & Hj & Hd1 & Hd2 &
                      Hm1 & Hm2 & _).
    rewrite H1 in Hi. rewrite H2 in Hj. injection Hi as <-. injection Hj as <-.
    apply Hempty. destruct Hor as [->| ->].
    - rewrite Hdr in Hd1. injection Hd1 as <-.
      apply Hmap in Hm1. by eapply list_elem_of_lookup_2.
    - rewrite Hdr in Hd2. injection Hd2 as <-.
      apply Hmap in Hm2. by eapply list_elem_of_lookup_2. }
  assert (rr ∈ sts) as Hrin by (by eapply (ps_sub r sts ps)).
  apply list_elem_of_lookup in Hrin as (i & Hi).
  apply list_elem_of_lookup in Hsin as (j & Hj).
  destruct (lt_eq_lt_dec i j) as [[Hij|Heq]|Hji].
  - by apply (Hpair i j rr s); auto.
  - subst j. congruence.
  - by apply (Hpair j i s rr); auto.
Qed.

End EmptyReach.


Definition ex_trans (l : list (string * list (string * string)))
  : gmap string (gmap string string) :=
  list_to_map (prod_map id list_to_map <$> l).

Definition example : DFA :=
  mkDFA (list_to_set ["A";"B";"C";"D";"E";"F";"G";"H"])
        (list_to_set ["0";"1"])
        (ex_trans [("A", [("0","B");("1","F")]); ("B", [("0","G");("1","C")]);
                   ("C", [("0","A");("1","C")]); ("D", [("0","C");("1","G")]);
                   ("E", [("0","H");("1","F")]); ("F", [("0","C");("1","G")]);
                   ("G", [("0","G");("1","E")]); ("H", [("0","G");("1","C")])])
        "A" (list_to_set ["C"]).


(** An automaton with a state named by the empty string, reached from the
    start state. *)
Definition ex_empty_name : DFA :=
  mkDFA (list_to_set ["A"; ""]) (list_to_set ["0"])
        (ex_trans [("A", [("0", "")]); ("", [("0", "")])])
        "A" (list_to_set [""]).

(** An automaton over the empty alphabet. *)
Definition ex_no_alphabet : DFA :=
  mkDFA (list_to_set ["A"]) ∅ (ex_trans [("A", [])]) "A" ∅.

(** A final state that is not a state. *)
Definition ex_bad_final : DFA :=
  mkDFA (list_to_set ["A"]) (list_to_set ["0"])
        (ex_trans [("A", [("0", "A")])]) "A" (list_to_set ["Z"]).

(** Two states without transitions. *)
Definition ex_missing : DFA :=
  mkDFA (list_to_set ["A"; "B"]) (list_to_set ["0"]) ∅ "A" ∅.

(** A state named by the empty string that is not reached from the start
    state. *)
Definition ex_unreach : DFA :=
  mkDFA (list_to_set ["A"; ""]) (list_to_set ["0"])
        (ex_trans [("A", [("0", "A")]); ("", [("0", "")])])
        "A" (list_to_set ["A"]).

(** Two enumeration orders. *)
Definition ascending (X : gset string) : list string := sorted (elements X).
Definition descending (X : gset string) : list string :=
  reverse (sorted (elements X)).

Lemma ascending_perm X : ascending X ≡ₚ elements X.
Proof. unfold ascending, sorted. apply merge_sort_Permutation. Qed.

Lemma descending_perm X : descending X ≡ₚ elements X.
Proof.
  unfold descending, sorted. rewrite reverse_Permutation.
  apply merge_sort_Permutation.
Qed.

Lemma elements_perm (X : gset string) : elements X ≡ₚ elements X.
Proof. reflexivity. Qed.

Lemma example_no_empty_name : no_empty_name example.
Proof. apply (bool_decide_unpack _). vm_compute. exact I. Qed.

Lemma example_no_empty_reach : no_empty_reach example.
Proof.
  apply no_empty_name_reach; [|exact example_no_empty_name].
  apply (is_valid_spec elements elements_perm). vm_compute. reflexivity.
Qed.

Lemma ex_unreach_no_empty_reach : no_empty_reach ex_unreach.
Proof.
  intros (w & Hw & Hrun). exfalso.
  assert (∀ w, over ex_unreach w → run ex_unreach "A" w = Some "A") as H.
  { clear. induction w as [|c w IH]; intros Hw; [done|].
    apply Forall_cons in Hw as [Hc Hw].
    assert (c = "0") as -> by (revert Hc; unfold ex_unreach; simpl; set_solver).
    change (run ex_unreach "A" ("0" :: w))
      with (delta ex_unreach "A" "0" ≫= λ t, run ex_unreach t w).
    assert (delta ex_unreach "A" "0" = Some "A") as -> by (by vm_compute).
    by apply IH. }
  change (start_state ex_unreach) with "A" in Hrun.
  rewrite (H w Hw) in Hrun. discriminate Hrun.
Qed.

(** * The claims *)

(** C1: the code breaks the claim.  [ex_empty_name] passes validation and
    accepts the string "0": its state named by the empty string is final
    and is reached from the start state.  The traversal of
    [remove_unreachable_states] skips that state, because its guard tests
    the truth value of the successor, and the rebuild step of [minimize]
    then looks it up: [minimize] raises [KeyError] and returns no
    automaton, whatever the fuel. *)
Lemma minimize_language_counterexample :
  (is_valid elements ex_empty_name).1 = true ∧
  accepts ex_empty_name ["0"] = true ∧
  minimize elements 10 ex_empty_name = Raise KeyError ∧
  ∀ fuel m, minimize elements fuel ex_empty_name ≠ Ok m.
Proof.
  assert (minimize elements 10 ex_empty_name = Raise KeyError) as H
    by (vm_compute; reflexivity).
  split; [vm_compute; reflexivity|]. split; [vm_compute; reflexivity|].
  split; [done|]. intros fuel m Hm.
  apply (minimize_settled elements ex_empty_name 10) in Hm; [|by rewrite H].
  by rewrite H in Hm.
Qed.

(** C2: the code breaks the claim.  In [ex_empty_name], which passes
    validation, the state named by the empty string is reached from the
    start state, and [remove_unreachable_states] removes it: its guard
    tests the truth value of the successor, and the empty string is
    false. *)
Lemma prune_counterexample :
  (is_valid elements ex_empty_name).1 = true ∧
  reachable ex_empty_name "" ∧
  ∀ fuel r, remove_unreachable_states elements fuel ex_empty_name = Ok r →
            "" ∉ states r.
Proof.
  split; [vm_compute; reflexivity|]. split.
  - exists ["0"]. split; [|vm_compute; reflexivity].
    apply Forall_singleton. apply (bool_decide_unpack _). by vm_compute.
  - intros fuel r Hr.
    apply (remove_unreachable_states_settled elements ex_empty_name 10) in Hr.
    + vm_compute in Hr. injection Hr as <-.
      apply (bool_decide_unpack _). by vm_compute.
    + by vm_compute.
Qed.

(** C3: the code breaks the claim.  On [ex_empty_name], which passes
    validation, the closure loop is left and the grouping step yields the
    one block of the start state; the state named by the empty string is
    reached from the start state and lies in no block, because
    [remove_unreachable_states] has dropped it. *)
Lemma partition_counterexample :
  (is_valid elements ex_empty_name).1 = true ∧
  reachable ex_empty_name "" ∧
  (∃ dfa sts T, minimize_table elements 10 ex_empty_name = Ok (dfa, sts, T)) ∧
  ∀ fuel dfa sts T,
    minimize_table elements fuel ex_empty_name = Ok (dfa, sts, T) →
    group sts T (length sts) = Ok [{["A"]}] ∧
    ∀ p, p ∈ [({["A"]} : gset string)] → "" ∉ p.
Proof.
  split; [vm_compute; reflexivity|]. split.
  { exists ["0"]. split; [|vm_compute; reflexivity].
    apply Forall_singleton. apply (bool_decide_unpack _). by vm_compute. }
  split.
  { destruct (minimize_table elements 10 ex_empty_name)
      as [[[dfa sts] T]| |] eqn:E; [by eauto|vm_compute in E; discriminate E..]. }
  intros fuel dfa sts T H.
  apply (minimize_table_Ok elements elements_perm) in H
    as (Hr & -> & (Hdims & Hsound & _) & _).
  apply (remove_unreachable_states_settled elements ex_empty_name 10) in Hr;
    [|by vm_compute].
  vm_compute in Hr. injection Hr as <-.
  assert (sorted (elements (states
            (mkDFA {["A"]} (list_to_set ["0"])
               (ex_trans [("A", [("0", "")])]) "A" ∅))) = ["A"]) as Hsts
    by (vm_compute; reflexivity).
  split.
  - revert Hdims Hsound. 
    match goal with |- context [table_dims (length ?l)] =>
      replace l with ["A"] by (vm_compute; reflexivity) end.
    intros [Hlen Hrows] Hsound.
    destruct T as [|row [|row' T]]; simpl in Hlen; try discriminate Hlen.
    assert (length row = 1%nat) as Hrow by (apply Hrows; by left).
    destruct row as [|b [|b' row]]; simpl in Hrow; try discriminate Hrow.
    destruct b.
    + destruct (Hsound 0%nat 0%nat) as [[? _] _]; [done|lia].
    + vm_compute. reflexivity.
  - intros p ->%list_elem_of_singleton. apply (bool_decide_unpack _).
    by vm_compute.
Qed.

(** C10: the traversal never collects the empty string: when the start
    state is not named by the empty string, no state named by it is in the
    collected set nor among the states of the output, even when it is the
    target of a transition from a visited state. *)
Theorem prune_skips_empty_name (iter : gset string → list string) (a : DFA)
    (fuel : nat) :
  (∀ X, iter X ≡ₚ elements X) →
  start_state a ≠ "" →
  (∀ R, bfs iter a fuel {[start_state a]} [start_state a] = Ok R → "" ∉ R) ∧
  (∀ r, remove_unreachable_states iter fuel a = Ok r → "" ∉ states r).
Proof.
  intros Hiter Hst.
  assert (∀ R, bfs iter a fuel {[start_state a]} [start_state a] = Ok R →
               "" ∉ R) as Hbfs.
  { intros R HR Hin. apply (bfs_empty_name iter Hiter) with (R := {[start_state a]})
      (Q := [start_state a]) (fuel := fuel) (a := a) in Hin; [|done].
    apply elem_of_singleton in Hin. congruence. }
  split; [done|]. intros r Hr. unfold remove_unreachable_states in Hr.
  apply bind_Ok in Hr as (R & HR & Hr).
  apply bind_Ok in Hr as (m & _ & [= <-]). simpl.
  intros [_ Hin]%elem_of_intersection. by apply (Hbfs R).
Qed.

Lemma prune_skips_empty_name_witness :
  delta ex_empty_name "A" "0" = Some "" ∧
  (∀ R, bfs elements ex_empty_name 10 {[start_state ex_empty_name]}
          [start_state ex_empty_name] = Ok R → "" ∉ R) ∧
  (∀ r, remove_unreachable_states elements 10 ex_empty_name = Ok r →
        "" ∉ states r).
Proof.
  split; [vm_compute; reflexivity|].
  apply (prune_skips_empty_name elements ex_empty_name 10 elements_perm).
  vm_compute. discriminate.
Defined.

(** C4, as stated, fails twice.  The reason given for a final state that
    is not a state does not name that state; and the states are visited in
    the enumeration order of the set, which need not be the lexicographic
    one: two enumerations of the same automaton give two reasons. *)
Lemma is_valid_reason_counterexample :
  (is_valid elements ex_bad_final
     = (false, "All final states must be in the set of states.") ∧
   "Z" ∈ final_states ex_bad_final ∧ "Z" ∉ states ex_bad_final ∧
   occurs "Z" "All final states must be in the set of states." = false) ∧
  (is_valid ascending ex_missing
     = (false, "Missing transitions for state 'A'.") ∧
   is_valid descending ex_missing
     = (false, "Missing transitions for state 'B'.")).
Proof.
  split_and!; try (vm_compute; reflexivity);
    apply (bool_decide_unpack _); by vm_compute.
Qed.

(** C4 (amended): on every automaton on which some validation check fails,
    [is_valid] returns [False] with the reason of the first check that
    fails, the checks being made in this order: the state set is empty; the
    start state is not a state (the reason names it); some final state is
    not a state (the reason names none); then, state by state in the
    enumeration order of the state set: the state has no transitions (the
    reason names the state), or, symbol by symbol in the enumeration order
    of the alphabet, the symbol has no transition (the reason names state
    and symbol) or its target is not a state (the reason names state,
    symbol and target). *)
Theorem is_valid_first_violation (iter : gset string → list string)
    (a : DFA) :
  (∀ X, iter X ≡ₚ elements X) →
  ¬ well_formed a →
  ∃ reason, is_valid iter a = (false, reason) ∧ first_violation iter a reason.
Proof.
  intros Hiter Hnwf.
  assert ((is_valid iter a).1 ≠ true) as Hv.
  { intros Hv. by apply (is_valid_spec iter Hiter) in Hv. }
  unfold is_valid, first_violation in *.
  case_bool_decide as H1.
  { eexists. split; [done|]. by left. }
  case_bool_decide as H2.
  { eexists. split; [done|]. right. left. done. }
  case_bool_decide as H3.
  { eexists. split; [done|]. right. right. left. done. }
  destruct (check_states iter a (iter (states a))) as [reason|] eqn:E;
    [|done].
  exists reason. split; [done|]. right. right. right.
  split; [done|]. split; [done|]. split; [done|].
  apply (check_states_Some iter Hiter) in E
    as (pre & state & post & Hl & Hpre & Hcase).
  exists pre, state, post. split; [done|]. split; [done|].
  destruct Hcase as [?|(row & Hrow & Hsym)]; [by left|]. right.
  apply check_symbols_Some in Hsym as (spre & symbol & spost & ? & ? & ?).
  by exists row, spre, symbol, spost.
Qed.

Lemma is_valid_first_violation_witness :
  ∃ reason, is_valid descending ex_missing = (false, reason) ∧
            first_violation descending ex_missing reason.
Proof.
  apply (is_valid_first_violation descending ex_missing descending_perm).
  intros (_ & _ & _ & Htr). destruct (Htr "A") as (row & Hrow & _).
  - apply (bool_decide_unpack _). by vm_compute.
  - vm_compute in Hrow. discriminate Hrow.
Defined.

(** The example of the source, pruned, with its sorted states, its
    [state_map] and its table after the base case. *)
Definition example_pruned : DFA :=
  match remove_unreachable_states elements 100 example with
  | Ok r => r
  | _ => example
  end.
Definition example_sts : list string :=
  sorted (elements (states example_pruned)).
Definition example_state_map : gmap string nat :=
  dict_of (imap (λ i state, (state, i)) example_sts).
Definition example_base : list (list bool) :=
  match base_case example_pruned example_sts 7
          (replicate 7 (replicate 7 false)) with
  | Ok T => T
  | _ => []
  end.

(** C5: in a pass of the closure loop, let [T] be the table when the pair
    [(i, j)] is reached, that is the table left by the turns of the pairs
    before it.  If the pair is unmarked in [T], it is marked at the end of
    the pass exactly when, for some symbol of the alphabet, the pair of the
    two successors, smaller index first, is a pair of two distinct indices
    that is marked in [T]; two identical successors mark nothing. *)
Theorem closure_pass_marks (iter : gset string → list string) (dfa : DFA)
    (sts : list string) (state_map : gmap string nat)
    (T0 : list (list bool)) (pre : list (nat * nat)) (i j : nat)
    (post : list (nat * nat)) (T : list (list bool)) (ch0 : bool)
    (T' : list (list bool)) (ch : bool) :
  (∀ X, iter X ≡ₚ elements X) →
  pairs (length sts) = pre ++ (i, j) :: post →
  for_each pre (λ st p, closure_inner iter dfa sts state_map p.1 st p.2)
    (T0, false) = Ok (T, ch0) →
  closure_pass iter dfa sts state_map (length sts) T0 = Ok (T', ch) →
  is_marked T i j = false →
  is_marked T' i j = true ↔
  ∃ symbol row col,
    symbol ∈ alphabet dfa ∧ succ_pair dfa sts state_map i j symbol row col ∧
    row ≠ col ∧ is_marked T row col = true.
Proof.
  intros Hiter Hl Hpre Hpass Hm.
  rewrite closure_pass_pairs, Hl, for_each_app, Hpre in Hpass.
  simpl in Hpass. apply bind_Ok in Hpass as ([T1 ch1] & Hturn & Hrest).
  assert ((i, j) ∉ post) as Hnin.
  { pose proof (NoDup_pairs (length sts)) as Hnd. rewrite Hl in Hnd.
    apply NoDup_app in Hnd as (_ & _ & Hnd). by apply NoDup_cons in Hnd as [? _]. }
  pose proof (closure_rest_keeps iter dfa sts state_map post _ _ i j Hnin
                Hrest) as Hkeep.
  simpl in Hkeep. rewrite Hkeep.
  by apply (closure_inner_marks iter Hiter dfa sts state_map i j T ch0 T1 ch1).
Qed.

Lemma closure_pass_marks_witness :
  match closure_pass elements example_pruned example_sts example_state_map
          (length example_sts) example_base with
  | Ok (T', ch) =>
    is_marked T' 0 1 = true ↔
    ∃ symbol row col,
      symbol ∈ alphabet example_pruned ∧
      succ_pair example_pruned example_sts example_state_map 0 1 symbol
        row col ∧
      row ≠ col ∧ is_marked example_base row col = true
  | _ => False
  end.
Proof.
  destruct (closure_pass elements example_pruned example_sts
              example_state_map (length example_sts) example_base)
    as [[T' ch]| |] eqn:E.
  - apply (closure_pass_marks elements example_pruned example_sts
             example_state_map example_base [] 0 1 (tail (pairs 7))
             example_base false T' ch elements_perm).
    + vm_compute. reflexivity.
    + reflexivity.
    + exact E.
    + vm_compute. reflexivity.
  - vm_compute in E. discriminate E.
  - vm_compute in E. discriminate E.
Defined.

(** C6: for every automaton that passes validation the closure loop ends.
    A pass that reports a change has marked a pair that was unmarked and
    has unmarked none; a pass that reports no change has left the table as
    it was, and the loop is left with that table.  So the loop makes no
    more passes than there are pairs, plus one. *)
Theorem closure_terminates (iter : gset string → list string) (a : DFA) :
  (∀ X, iter X ≡ₚ elements X) →
  (is_valid iter a).1 = true →
  ∃ dfa T0,
    (∀ fuel, (size (states a) ≤ fuel)%nat →
       remove_unreachable_states iter fuel a = Ok dfa) ∧
    let sts := sorted (iter (states dfa)) in
    let state_map := dict_of (imap (λ i state, (state, i)) sts) in
    let n := length sts in
    base_case dfa sts n (replicate n (replicate n false)) = Ok T0 ∧
    (∀ fuel, (length (pairs n) < fuel)%nat →
       closure iter dfa sts state_map fuel n T0 ≠ NoFuel) ∧
    (∀ T T' ch,
       closure_pass iter dfa sts state_map n T = Ok (T', ch) →
       if ch then
         (∃ i j, (i < j < n)%nat ∧
                 is_marked T i j = false ∧ is_marked T' i j = true) ∧
         (∀ i j, is_marked T i j = true → is_marked T' i j = true)
       else
         T' = T ∧
         ∀ fuel, closure iter dfa sts state_map (S fuel) n T = Ok T).
Proof.
  intros Hiter Hv%(is_valid_spec iter Hiter).
  destruct (remove_unreachable_states_spec iter Hiter a Hv) as (r & Hr & _).
  destruct (base_table_total r (sorted (iter (states r)))) as (T0 & HT0).
  exists r, T0. split; [done|]. cbv zeta. split; [done|].
  destruct (sorted_iter iter Hiter (states r)) as [Hnd _].
  pose proof (state_map_of_spec _ Hnd) as Hmap. split.
  - intros fuel Hfuel.
    apply (closure_no_timeout iter Hiter r _ _ Hmap); [by apply base_table_ok|].
    pose proof (unmarked_count_le (sorted (iter (states r))) T0). lia.
  - intros T T' ch Hpass.
    destruct (closure_pass_progress iter r _ _ T T' ch Hpass) as [Hle Hc].
    destruct ch; [done|]. subst T'. split; [done|].
    intros fuel. simpl. by rewrite Hpass.
Qed.

Lemma closure_terminates_witness :
  ∃ dfa T0,
    (∀ fuel, (size (states example) ≤ fuel)%nat →
       remove_unreachable_states elements fuel example = Ok dfa) ∧
    let sts := sorted (elements (states dfa)) in
    let state_map := dict_of (imap (λ i state, (state, i)) sts) in
    let n := length sts in
    base_case dfa sts n (replicate n (replicate n false)) = Ok T0 ∧
    (∀ fuel, (length (pairs n) < fuel)%nat →
       closure elements dfa sts state_map fuel n T0 ≠ NoFuel) ∧
    (∀ T T' ch,
       closure_pass elements dfa sts state_map n T = Ok (T', ch) →
       if ch then
         (∃ i j, (i < j < n)%nat ∧
                 is_marked T i j = false ∧ is_marked T' i j = true) ∧
         (∀ i j, is_marked T i j = true → is_marked T' i j = true)
       else
         T' = T ∧
         ∀ fuel, closure elements dfa sts state_map (S fuel) n T = Ok T).
Proof.
  apply (closure_terminates elements example elements_perm).
  vm_compute. reflexivity.
Defined.

(** C8: [from_dict(to_dict(a))] is [a]: the same set of states, the same
    alphabet, the same transitions, the same start state and the same set
    of final states, whatever the enumeration order of the sets; the
    automaton need not even be valid. *)
Theorem dict_round_trip (iter : gset string → list string) (a : DFA) :
  (∀ X, iter X ≡ₚ elements X) →
  from_dict (to_dict iter a) = a ∧
  states (from_dict (to_dict iter a)) = states a ∧
  alphabet (from_dict (to_dict iter a)) = alphabet a ∧
  transitions (from_dict (to_dict iter a)) = transitions a ∧
  start_state (from_dict (to_dict iter a)) = start_state a ∧
  final_states (from_dict (to_dict iter a)) = final_states a.
Proof.
  intros Hiter.
  assert (from_dict (to_dict iter a) = a) as Heq.
  { destruct a as [Q S tr q0 F]. unfold from_dict, to_dict. simpl.
    by rewrite !(list_to_set_sorted_iter iter Hiter). }
  split; [done|]. by rewrite Heq.
Qed.

Lemma dict_round_trip_witness :
  from_dict (to_dict descending example) = example ∧
  states (from_dict (to_dict descending example)) = states example ∧
  alphabet (from_dict (to_dict descending example)) = alphabet example ∧
  transitions (from_dict (to_dict descending example)) = transitions example ∧
  start_state (from_dict (to_dict descending example)) = start_state example ∧
  final_states (from_dict (to_dict descending example)) = final_states example.
Proof.
  exact (dict_round_trip descending example descending_perm).
Defined.




(** C7: on the automaton of the scenario, whatever the enumeration order,
    [remove_unreachable_states] returns an automaton with exactly 7 states,
    [D] being removed, and [minimize] one with exactly 5 states. *)
Theorem example_sizes (iter : gset string → list string) :
  (∀ X, iter X ≡ₚ elements X) →
  ∃ r m,
    (∀ fuel, (8 ≤ fuel)%nat →
       remove_unreachable_states iter fuel example = Ok r) ∧
    size (states r) = 7 ∧ "D" ∉ states r ∧
    (∀ fuel, (65 ≤ fuel)%nat → minimize iter fuel example = Ok m) ∧
    size (states m) = 5.
Proof.
  intros Hiter.
  assert (∀ r, remove_unreachable_states elements 8 example = Ok r →
               size (states r) = 7 ∧ "D" ∉ states r) as Hprune.
  { clear. intros r Hr. vm_compute in Hr. injection Hr as <-. split.
    - vm_compute. reflexivity.
    - apply (bool_decide_unpack _). by vm_compute. }
  assert (∀ m, minimize elements 65 example = Ok m → size (states m) = 5)
    as Hmin.
  { clear. intros m Hm. vm_compute in Hm. injection Hm as <-.
    vm_compute. reflexivity. }
  assert (well_formed example) as Hwf.
  { apply (is_valid_spec elements elements_perm). vm_compute. reflexivity. }
  assert (size (states example) = 8) as Hsize by (vm_compute; reflexivity).
  assert (fuel_bound example = 65) as Hbound by (vm_compute; reflexivity).
  destruct (minimize_total iter Hiter example Hwf example_no_empty_reach)
    as (r & ps & m & Hp & Hm & Hps & _ & _ & Hreb).
  destruct (minimize_total elements elements_perm example Hwf
              example_no_empty_reach)
    as (r' & ps' & m' & Hp' & Hm' & Hps' & _ & _ & Hreb').
  assert (r' = r) as -> by (by eapply pruned_unique).
  destruct (remove_unreachable_states_spec iter Hiter example Hwf)
    as (r0 & Hr0 & Hp0).
  assert (r0 = r) as -> by (by eapply pruned_unique).
  destruct (remove_unreachable_states_spec elements elements_perm example Hwf)
    as (r1 & Hr1 & Hp1).
  assert (r1 = r) as -> by (by eapply pruned_unique).
  specialize (Hr1 8). rewrite Hsize in Hr1. specialize (Hr1 (le_n 8)).
  specialize (Hm' 65). rewrite Hbound in Hm'. specialize (Hm' (le_n 65)).
  destruct (Hprune r Hr1) as [H7 HD].
  exists r, m. split_and!; [|done|done| |].
  - intros fuel Hfuel. apply Hr0. by rewrite Hsize.
  - intros fuel Hfuel. apply Hm. by rewrite Hbound.
  - rewrite (rebuilt_size iter r _ ps m Hps Hreb).
    rewrite (partition_length r (sorted (iter (states r))) ps ps' Hps).
    + rewrite <- (rebuilt_size elements r _ ps' m' Hps' Hreb').
      by apply Hmin.
    + apply (partition_ok_mem r (sorted (elements (states r)))); [|done].
      intros s.
      destruct (sorted_iter iter Hiter (states r)) as [_ ->].
      by destruct (sorted_iter elements elements_perm (states r)) as [_ ->].
Qed.

Lemma example_sizes_witness :
  ∃ r m,
    (∀ fuel, (8 ≤ fuel)%nat →
       remove_unreachable_states descending fuel example = Ok r) ∧
    size (states r) = 7 ∧ "D" ∉ states r ∧
    (∀ fuel, (65 ≤ fuel)%nat → minimize descending fuel example = Ok m) ∧
    size (states m) = 5.
Proof.
  exact (example_sizes descending descending_perm).
Defined.

(** * Further properties of the code *)

(** X1: the lists written by [to_dict] are sorted and free of duplicates,
    and they do not depend on the order in which the sets are enumerated:
    two enumerations give the same dictionary. *)
Theorem to_dict_canonical (iter iter' : gset string → list string)
    (a : DFA) :
  (∀ X, iter X ≡ₚ elements X) → (∀ X, iter' X ≡ₚ elements X) →
  to_dict iter a = to_dict iter' a ∧
  (Sorted str_le (d_states (to_dict iter a)) ∧
   NoDup (d_states (to_dict iter a))) ∧
  (Sorted str_le (d_alphabet (to_dict iter a)) ∧
   NoDup (d_alphabet (to_dict iter a))) ∧
  (Sorted str_le (d_final_states (to_dict iter a)) ∧
   NoDup (d_final_states (to_dict iter a))).
Proof.
  intros Hiter Hiter'.
  assert (∀ X, sorted (iter X) = sorted (iter' X)) as Heq.
  { intros X. apply sorted_perm_eq. by rewrite Hiter, Hiter'. }
  split; [unfold to_dict; by rewrite !Heq|].
  unfold to_dict. simpl.
  split_and!; try apply Sorted_sorted;
    by destruct (sorted_iter iter Hiter (states a)),
                (sorted_iter iter Hiter (alphabet a)),
                (sorted_iter iter Hiter (final_states a)).
Qed.

Lemma to_dict_canonical_witness :
  to_dict ascending example = to_dict descending example ∧
  (Sorted str_le (d_states (to_dict ascending example)) ∧
   NoDup (d_states (to_dict ascending example))) ∧
  (Sorted str_le (d_alphabet (to_dict ascending example)) ∧
   NoDup (d_alphabet (to_dict ascending example))) ∧
  (Sorted str_le (d_final_states (to_dict ascending example)) ∧
   NoDup (d_final_states (to_dict ascending example))).
Proof.
  exact (to_dict_canonical ascending descending example ascending_perm
           descending_perm).
Defined.

(** X2: [to_dict(from_dict(data))] is [data] whenever the three lists of
    [data] are sorted and free of duplicates, as the lists written by
    [to_dict] are. *)
Theorem from_dict_round_trip (iter : gset string → list string)
    (data : DictForm) :
  (∀ X, iter X ≡ₚ elements X) →
  Sorted str_le (d_states data) → NoDup (d_states data) →
  Sorted str_le (d_alphabet data) → NoDup (d_alphabet data) →
  Sorted str_le (d_final_states data) → NoDup (d_final_states data) →
  to_dict iter (from_dict data) = data.
Proof.
  intros Hiter HQ HQ' HS HS' HF HF'.
  destruct data as [Q S tr q0 F]. unfold to_dict, from_dict. simpl in *.
  by rewrite !(sorted_iter_list_to_set iter Hiter).
Qed.

Lemma from_dict_round_trip_witness :
  to_dict descending (from_dict (mkDictForm ["A"; "B"] ["0"; "1"]
     (ex_trans [("A", [("0", "B"); ("1", "A")]); ("B", [("0", "A"); ("1", "B")])])
     "A" ["B"])) =
  mkDictForm ["A"; "B"] ["0"; "1"]
     (ex_trans [("A", [("0", "B"); ("1", "A")]); ("B", [("0", "A"); ("1", "B")])])
     "A" ["B"].
Proof.
  apply (from_dict_round_trip descending _ descending_perm); simpl;
    try (apply (bool_decide_unpack _); vm_compute; exact I).
Defined.

(** X3: [is_valid] returns [True] exactly on the automata that have a
    state, whose start state and final states are among the states, and
    whose transitions give, for every state and every symbol of the
    alphabet, a target among the states; it then returns the text
    "DFA is valid.".  Entries of the transitions for other states or other
    symbols, and an empty alphabet, are not looked at. *)
Theorem is_valid_accepts_well_formed (iter : gset string → list string)
    (a : DFA) :
  (∀ X, iter X ≡ₚ elements X) →
  (is_valid iter a = (true, "DFA is valid.") ↔ well_formed a) ∧
  ((is_valid iter a).1 = false ↔ ¬ well_formed a).
Proof.
  intros Hiter. pose proof (is_valid_spec iter Hiter a) as Hspec. split.
  - rewrite <- Hspec. split; [by intros ->|].
    unfold is_valid. repeat case_bool_decide; try done.
    by destruct (check_states iter a (iter (states a))).
  - rewrite <- Hspec. by destruct (is_valid iter a).1.
Qed.

Lemma is_valid_accepts_well_formed_witness :
  (is_valid elements example = (true, "DFA is valid.") ↔ well_formed example) ∧
  ((is_valid elements example).1 = false ↔ ¬ well_formed example).
Proof. apply (is_valid_accepts_well_formed elements example elements_perm). Defined.

(** X4: whether [is_valid] returns [True] or [False] does not depend on
    the order in which the sets are enumerated (the reason returned with
    [False] may). *)
Theorem is_valid_verdict_order (iter iter' : gset string → list string)
    (a : DFA) :
  (∀ X, iter X ≡ₚ elements X) → (∀ X, iter' X ≡ₚ elements X) →
  (is_valid iter a).1 = (is_valid iter' a).1.
Proof.
  intros Hiter Hiter'.
  pose proof (is_valid_spec iter Hiter a) as H.
  pose proof (is_valid_spec iter' Hiter' a) as H'.
  destruct (is_valid iter a).1, (is_valid iter' a).1; try done.
  - symmetry. apply H'. by apply H.
  - apply H. by apply H'.
Qed.

Lemma is_valid_verdict_order_witness :
  (is_valid ascending ex_missing).1 = (is_valid descending ex_missing).1.
Proof.
  apply (is_valid_verdict_order ascending descending ex_missing
           ascending_perm descending_perm).
Defined.

(** X5: [remove_unreachable_states] on any automaton, valid or not: the
    traversal ends, and then either the automaton is returned whose states
    and final states are those of the input that were collected, whose
    transitions are the rows of the collected states and no other, with the
    start state and the alphabet of the input; or building the transitions
    raises [KeyError], and this happens exactly when a collected state has
    no row in the transitions (a plain [dict], as the class declares
    them). *)
Theorem prune_outcome (iter : gset string → list string) (a : DFA)
    (fuel : nat) :
  (∀ X, iter X ≡ₚ elements X) →
  (size (targets a) ≤ fuel)%nat →
  (∃ r, remove_unreachable_states iter fuel a = Ok r ∧
        (∀ s, collected a s → is_Some (transitions a !! s)) ∧
        (∀ s, s ∈ states r ↔ s ∈ states a ∧ collected a s) ∧
        (∀ s, s ∈ final_states r ↔ s ∈ final_states a ∧ collected a s) ∧
        (∀ s, collected a s → transitions r !! s = transitions a !! s) ∧
        (∀ s, ¬ collected a s → transitions r !! s = None) ∧
        start_state r = start_state a ∧ alphabet r = alphabet a) ∨
  (remove_unreachable_states iter fuel a = Raise KeyError ∧
   ∃ s, collected a s ∧ transitions a !! s = None).
Proof.
  intros Hiter Hfuel.
  destruct (remove_general iter Hiter a fuel Hfuel) as [(r & Hr)|H];
    [left|by right].
  exists r. split; [done|].
  destruct (remove_Ok_pruned iter Hiter a fuel r Hr) as [Hp Hall].
  split; [done|]. exact Hp.
Qed.

Lemma prune_outcome_witness :
  (∃ r, remove_unreachable_states elements 5 ex_missing = Ok r ∧
        (∀ s, collected ex_missing s → is_Some (transitions ex_missing !! s)) ∧
        (∀ s, s ∈ states r ↔ s ∈ states ex_missing ∧ collected ex_missing s) ∧
        (∀ s, s ∈ final_states r ↔
              s ∈ final_states ex_missing ∧ collected ex_missing s) ∧
        (∀ s, collected ex_missing s →
              transitions r !! s = transitions ex_missing !! s) ∧
        (∀ s, ¬ collected ex_missing s → transitions r !! s = None) ∧
        start_state r = start_state ex_missing ∧
        alphabet r = alphabet ex_missing) ∨
  (remove_unreachable_states elements 5 ex_missing = Raise KeyError ∧
   ∃ s, collected ex_missing s ∧ transitions ex_missing !! s = None).
Proof.
  apply (prune_outcome elements ex_missing 5 elements_perm).
  vm_compute. lia.
Defined.

(** The scenario without its unreachable state [D]. *)
Definition example_without_D : DFA :=
  mkDFA (list_to_set ["A";"B";"C";"E";"F";"G";"H"])
        (list_to_set ["0";"1"])
        (ex_trans [("A", [("0","B");("1","F")]); ("B", [("0","G");("1","C")]);
                   ("C", [("0","A");("1","C")]); ("E", [("0","H");("1","F")]);
                   ("F", [("0","C");("1","G")]); ("G", [("0","G");("1","E")]);
                   ("H", [("0","G");("1","C")])])
        "A" (list_to_set ["C"]).

(** X6: pruning twice is pruning once: on the automaton that
    [remove_unreachable_states] returned, it returns that automaton. *)
Theorem prune_idempotent (iter : gset string → list string) (a r : DFA)
    (fuel fuel' : nat) :
  (∀ X, iter X ≡ₚ elements X) →
  remove_unreachable_states iter fuel a = Ok r →
  (size (targets r) ≤ fuel')%nat →
  remove_unreachable_states iter fuel' r = Ok r.
Proof. intros Hiter. by apply remove_idempotent. Qed.

Lemma prune_idempotent_witness :
  remove_unreachable_states elements 10 example_without_D = Ok example_without_D.
Proof.
  apply (prune_idempotent elements example example_without_D 10 10
           elements_perm).
  - vm_compute. reflexivity.
  - vm_compute. lia.
Defined.

(** X7: the outcome of [remove_unreachable_states], the automaton
    returned or the [KeyError], does not depend on the order in which the
    alphabet and the collected set are enumerated. *)
Theorem prune_order_independent (iter iter' : gset string → list string)
    (a : DFA) (fuel : nat) :
  (∀ X, iter X ≡ₚ elements X) → (∀ X, iter' X ≡ₚ elements X) →
  (size (targets a) ≤ fuel)%nat →
  remove_unreachable_states iter fuel a ≠ NoFuel ∧
  remove_unreachable_states iter fuel a = remove_unreachable_states iter' fuel a.
Proof.
  intros Hiter Hiter' Hfuel. split; [|by apply remove_order_independent].
  by destruct (remove_general iter Hiter a fuel Hfuel) as [(r & ->)|[-> _]].
Qed.

Lemma prune_order_independent_witness :
  remove_unreachable_states ascending 10 example ≠ NoFuel ∧
  remove_unreachable_states ascending 10 example =
  remove_unreachable_states descending 10 example.
Proof.
  apply (prune_order_independent ascending descending example 10
           ascending_perm descending_perm).
  vm_compute. lia.
Defined.

(** X8: on an automaton that passes validation and in which no state
    other than the start state is named by the empty string, the automaton
    returned by [remove_unreachable_states] passes validation and accepts
    the same strings over the alphabet. *)
Theorem prune_valid_language (iter : gset string → list string) (a : DFA) :
  (∀ X, iter X ≡ₚ elements X) →
  (is_valid iter a).1 = true → no_empty_name a →
  ∃ r,
    (∀ fuel, (size (states a) ≤ fuel)%nat →
       remove_unreachable_states iter fuel a = Ok r) ∧
    is_valid iter r = (true, "DFA is valid.") ∧
    no_empty_name r ∧
    ∀ w, over a w → accepts r w = accepts a w.
Proof.
  intros Hiter Hv%(is_valid_spec iter Hiter) Hne.
  pose proof (no_empty_name_reach a Hv Hne) as Hnr.
  destruct (remove_unreachable_states_spec iter Hiter a Hv) as (r & Hr & Hp).
  exists r. split; [done|].
  pose proof (pruned_well_formed a r Hv Hnr Hp) as Hwf.
  split.
  { apply (is_valid_spec iter Hiter) in Hwf. revert Hwf.
    unfold is_valid. repeat case_bool_decide; try done.
    by destruct (check_states iter r (iter (states r))). }
  split; [by apply (pruned_no_empty_name a r)|].
  intros w Hw. by apply (pruned_accepts iter Hiter).
Qed.

Lemma prune_valid_language_witness :
  ∃ r,
    (∀ fuel, (size (states example) ≤ fuel)%nat →
       remove_unreachable_states elements fuel example = Ok r) ∧
    is_valid elements r = (true, "DFA is valid.") ∧
    no_empty_name r ∧
    ∀ w, over example w → accepts r w = accepts example w.
Proof.
  apply (prune_valid_language elements example elements_perm).
  - vm_compute. reflexivity.
  - exact example_no_empty_name.
Defined.

(** A minimal automaton: the two states are reached from the start state
    and the empty string tells them apart. *)
Definition ex_minimal : DFA :=
  mkDFA (list_to_set ["A"; "B"]) (list_to_set ["0"])
        (ex_trans [("A", [("0", "B")]); ("B", [("0", "A")])])
        "A" (list_to_set ["B"]).

Lemma ex_minimal_minimal : minimal ex_minimal.
Proof.
  assert (∀ s, s ∈ states ex_minimal → s = "A" ∨ s = "B") as Hcases.
  { intros s. unfold ex_minimal. simpl. set_solver. }
  assert (over ex_minimal []) as Hnil by constructor.
  assert (over ex_minimal ["0"]) as H0.
  { apply Forall_singleton. apply (bool_decide_unpack _). by vm_compute. }
  split.
  - intros s [->| ->]%Hcases.
    + exists []. split; [done|]. by vm_compute.
    + exists ["0"]. split; [done|]. by vm_compute.
  - intros s t [->| ->]%Hcases [->| ->]%Hcases Hne; try done.
    + exists []. split; [done|]. by vm_compute.
    + exists []. split; [done|]. by vm_compute.
Qed.

(** X9: in the automaton returned by [minimize] any two different
    states are told apart by some string over the alphabet: one of them
    accepts it and the other does not.  No two states of the result could
    be merged. *)
Theorem minimize_states_distinguishable (iter : gset string → list string)
    (a : DFA) :
  (∀ X, iter X ≡ₚ elements X) →
  (is_valid iter a).1 = true → no_empty_name a →
  ∃ m, (∀ fuel, (fuel_bound a ≤ fuel)%nat → minimize iter fuel a = Ok m) ∧
       ∀ x y, x ∈ states m → y ∈ states m → x ≠ y → distinguishable m x y.
Proof.
  intros Hiter Hv%(is_valid_spec iter Hiter) Hne.
  pose proof (no_empty_name_reach a Hv Hne) as Hnr.
  destruct (minimize_summary iter Hiter a Hv Hnr)
    as (m & Hm & _ & _ & [_ Hmin] & _).
  by exists m.
Qed.

Lemma minimize_states_distinguishable_witness :
  ∃ m, (∀ fuel, (fuel_bound example ≤ fuel)%nat →
          minimize elements fuel example = Ok m) ∧
       ∀ x y, x ∈ states m → y ∈ states m → x ≠ y → distinguishable m x y.
Proof.
  apply (minimize_states_distinguishable elements example elements_perm).
  - vm_compute. reflexivity.
  - exact example_no_empty_name.
Defined.

(** X10: every state of the automaton returned by [minimize] is reached
    from its start state by some string over the alphabet. *)
Theorem minimize_states_reachable (iter : gset string → list string)
    (a : DFA) :
  (∀ X, iter X ≡ₚ elements X) →
  (is_valid iter a).1 = true → no_empty_name a →
  ∃ m, (∀ fuel, (fuel_bound a ≤ fuel)%nat → minimize iter fuel a = Ok m) ∧
       ∀ x, x ∈ states m → reachable m x.
Proof.
  intros Hiter Hv%(is_valid_spec iter Hiter) Hne.
  pose proof (no_empty_name_reach a Hv Hne) as Hnr.
  destruct (minimize_summary iter Hiter a Hv Hnr)
    as (m & Hm & _ & _ & [Hreach _] & _).
  by exists m.
Qed.

Lemma minimize_states_reachable_witness :
  ∃ m, (∀ fuel, (fuel_bound example ≤ fuel)%nat →
          minimize elements fuel example = Ok m) ∧
       ∀ x, x ∈ states m → reachable m x.
Proof.
  apply (minimize_states_reachable elements example elements_perm).
  - vm_compute. reflexivity.
  - exact example_no_empty_name.
Defined.

(** X11: the automaton returned by [minimize] has no more states than
    the input. *)
Theorem minimize_size_le (iter : gset string → list string) (a : DFA) :
  (∀ X, iter X ≡ₚ elements X) →
  (is_valid iter a).1 = true → no_empty_name a →
  ∃ m, (∀ fuel, (fuel_bound a ≤ fuel)%nat → minimize iter fuel a = Ok m) ∧
       (size (states m) ≤ size (states a))%nat.
Proof.
  intros Hiter Hv%(is_valid_spec iter Hiter) Hne.
  pose proof (no_empty_name_reach a Hv Hne) as Hnr.
  destruct (minimize_summary iter Hiter a Hv Hnr)
    as (m & Hm & _ & _ & _ & Hle & _).
  by exists m.
Qed.

Lemma minimize_size_le_witness :
  ∃ m, (∀ fuel, (fuel_bound example ≤ fuel)%nat →
          minimize elements fuel example = Ok m) ∧
       (size (states m) ≤ size (states example))%nat.
Proof.
  apply (minimize_size_le elements example elements_perm).
  - vm_compute. reflexivity.
  - exact example_no_empty_name.
Defined.

(** X12: on an automaton that is minimal already, all of whose states
    are reached from the start state and any two of whose states are told
    apart by some string, [minimize] returns an automaton with as many
    states. *)
Theorem minimize_of_minimal (iter : gset string → list string) (a : DFA) :
  (∀ X, iter X ≡ₚ elements X) →
  (is_valid iter a).1 = true → no_empty_name a →
  (∀ s, s ∈ states a → reachable a s) →
  (∀ s t, s ∈ states a → t ∈ states a → s ≠ t → distinguishable a s t) →
  ∃ m, (∀ fuel, (fuel_bound a ≤ fuel)%nat → minimize iter fuel a = Ok m) ∧
       size (states m) = size (states a).
Proof.
  intros Hiter Hv%(is_valid_spec iter Hiter) Hne Hreach Hdist.
  pose proof (no_empty_name_reach a Hv Hne) as Hnr.
  destruct (minimize_summary iter Hiter a Hv Hnr)
    as (m & Hm & _ & _ & _ & _ & _ & _ & Hsz & _).
  exists m. split; [done|]. by apply Hsz.
Qed.

Lemma minimize_of_minimal_witness :
  ∃ m, (∀ fuel, (fuel_bound ex_minimal ≤ fuel)%nat →
          minimize elements fuel ex_minimal = Ok m) ∧
       size (states m) = size (states ex_minimal).
Proof.
  apply (minimize_of_minimal elements ex_minimal elements_perm).
  - vm_compute. reflexivity.
  - apply (bool_decide_unpack _). vm_compute. exact I.
  - apply ex_minimal_minimal.
  - apply ex_minimal_minimal.
Defined.

(** X13: minimizing the result of [minimize] once more gives an
    automaton with as many states, which accepts the same strings as the
    input. *)
Theorem minimize_twice_size (iter : gset string → list string) (a : DFA) :
  (∀ X, iter X ≡ₚ elements X) →
  (is_valid iter a).1 = true → no_empty_name a → alphabet a ≠ ∅ →
  ∃ m m',
    (∀ fuel, (fuel_bound a ≤ fuel)%nat → minimize iter fuel a = Ok m) ∧
    (∀ fuel, (fuel_bound m ≤ fuel)%nat → minimize iter fuel m = Ok m') ∧
    size (states m') = size (states m) ∧
    ∀ w, over a w → accepts m' w = accepts a w.
Proof.
  intros Hiter Hv%(is_valid_spec iter Hiter) Hne Hal.
  pose proof (no_empty_name_reach a Hv Hne) as Hnr.
  by apply minimize_twice.
Qed.

Lemma minimize_twice_size_witness :
  ∃ m m',
    (∀ fuel, (fuel_bound example ≤ fuel)%nat →
       minimize elements fuel example = Ok m) ∧
    (∀ fuel, (fuel_bound m ≤ fuel)%nat → minimize elements fuel m = Ok m') ∧
    size (states m') = size (states m) ∧
    ∀ w, over example w → accepts m' w = accepts example w.
Proof.
  apply (minimize_twice_size elements example elements_perm).
  - vm_compute. reflexivity.
  - exact example_no_empty_name.
  - intros H. assert ("0" ∈ alphabet example) as Hin.
    { apply (bool_decide_unpack _). vm_compute. exact I. }
    rewrite H in Hin. by apply not_elem_of_empty in Hin.
Defined.

(** X14: the automaton returned by [minimize] does not depend on the
    order in which the sets are enumerated: names, transitions and final
    states are the same. *)
Theorem minimize_order_independent (iter iter' : gset string → list string)
    (a : DFA) :
  (∀ X, iter X ≡ₚ elements X) → (∀ X, iter' X ≡ₚ elements X) →
  (is_valid iter a).1 = true → no_empty_name a →
  ∃ m, ∀ fuel, (fuel_bound a ≤ fuel)%nat →
         minimize iter fuel a = Ok m ∧ minimize iter' fuel a = Ok m.
Proof.
  intros Hiter Hiter' Hv%(is_valid_spec iter Hiter) Hne.
  pose proof (no_empty_name_reach a Hv Hne) as Hnr.
  destruct (minimize_summary iter Hiter a Hv Hnr) as (m & Hm & _).
  exists m. intros fuel Hfuel. split; [by apply Hm|].
  rewrite <- (minimize_order iter iter' a fuel) by done. by apply Hm.
Qed.

Lemma minimize_order_independent_witness :
  ∃ m, ∀ fuel, (fuel_bound example ≤ fuel)%nat →
         minimize ascending fuel example = Ok m ∧
         minimize descending fuel example = Ok m.
Proof.
  apply (minimize_order_independent ascending descending example
           ascending_perm descending_perm).
  - vm_compute. reflexivity.
  - exact example_no_empty_name.
Defined.

(** X15: the states of the automaton returned by [minimize] are named
    [q0], [q1], ... up to the number of states; none is named by the empty
    string. *)
Theorem minimize_state_names (iter : gset string → list string) (a : DFA) :
  (∀ X, iter X ≡ₚ elements X) →
  (is_valid iter a).1 = true → no_empty_name a →
  ∃ m, (∀ fuel, (fuel_bound a ≤ fuel)%nat → minimize iter fuel a = Ok m) ∧
       (∀ x, x ∈ states m ↔
             ∃ k, (k < size (states m))%nat ∧ x = "q" +:+ pretty k) ∧
       "" ∉ states m.
Proof.
  intros Hiter Hv%(is_valid_spec iter Hiter) Hne.
  pose proof (no_empty_name_reach a Hv Hne) as Hnr.
  destruct (minimize_summary iter Hiter a Hv Hnr)
    as (m & Hm & _ & _ & _ & _ & Hnames & _).
  exists m. split; [done|]. split; [done|].
  intros (k & _ & Hk)%Hnames. discriminate.
Qed.

Lemma minimize_state_names_witness :
  ∃ m, (∀ fuel, (fuel_bound example ≤ fuel)%nat →
          minimize elements fuel example = Ok m) ∧
       (∀ x, x ∈ states m ↔
             ∃ k, (k < size (states m))%nat ∧ x = "q" +:+ pretty k) ∧
       "" ∉ states m.
Proof.
  apply (minimize_state_names elements example elements_perm).
  - vm_compute. reflexivity.
  - exact example_no_empty_name.
Defined.

(** X16: over the empty alphabet [minimize] returns the automaton with
    the one state [q0] and no transitions, not even an empty row for [q0];
    [q0] is final when the start state of the input is.  This automaton
    does not pass validation. *)
Theorem minimize_no_alphabet (iter : gset string → list string) (a : DFA) :
  (∀ X, iter X ≡ₚ elements X) →
  (is_valid iter a).1 = true → no_empty_name a → alphabet a = ∅ →
  (∀ fuel, (fuel_bound a ≤ fuel)%nat →
     minimize iter fuel a =
     Ok (single_state (bool_decide (start_state a ∈ final_states a)))) ∧
  ∀ final, is_valid iter (single_state final) =
           (false, "Missing transitions for state 'q0'.").
Proof.
  intros Hiter Hv%(is_valid_spec iter Hiter) Hne Hal.
  pose proof (no_empty_name_reach a Hv Hne) as Hnr.
  split.
  - by apply minimize_empty_alphabet.
  - intros final.
    assert (iter {["q0"]} = ["q0"]) as Hq.
    { apply Permutation_singleton_r. by rewrite Hiter, elements_singleton. }
    unfold is_valid, single_state. simpl.
    rewrite bool_decide_eq_false_2 by (apply non_empty_singleton_L).
    rewrite bool_decide_eq_false_2 by set_solver.
    rewrite bool_decide_eq_false_2 by (destruct final; set_solver).
    by rewrite Hq.
Qed.

Lemma minimize_no_alphabet_witness :
  (∀ fuel, (fuel_bound ex_no_alphabet ≤ fuel)%nat →
     minimize elements fuel ex_no_alphabet =
     Ok (single_state (bool_decide (start_state ex_no_alphabet
                                      ∈ final_states ex_no_alphabet)))) ∧
  ∀ final, is_valid elements (single_state final) =
           (false, "Missing transitions for state 'q0'.").
Proof.
  apply (minimize_no_alphabet elements ex_no_alphabet elements_perm).
  - vm_compute. reflexivity.
  - apply (bool_decide_unpack _). vm_compute. exact I.
  - reflexivity.
Defined.

(** X17: the transitions of the automaton returned by [minimize] hold
    an entry exactly for each of its states and each symbol of the
    alphabet, with a target among its states; they hold no row for a name
    that is not a state and no row that is empty. *)
Theorem minimize_transitions_exact (iter : gset string → list string)
    (a : DFA) :
  (∀ X, iter X ≡ₚ elements X) →
  (is_valid iter a).1 = true → no_empty_name a →
  ∃ m, (∀ fuel, (fuel_bound a ≤ fuel)%nat → minimize iter fuel a = Ok m) ∧
       (∀ x symbol, is_Some (delta m x symbol) ↔
                    x ∈ states m ∧ symbol ∈ alphabet m) ∧
       (∀ x symbol y, delta m x symbol = Some y → y ∈ states m) ∧
       (∀ x row, transitions m !! x = Some row → x ∈ states m ∧ row ≠ ∅).
Proof.
  intros Hiter Hv%(is_valid_spec iter Hiter) Hne.
  pose proof (no_empty_name_reach a Hv Hne) as Hnr.
  destruct (minimize_summary iter Hiter a Hv Hnr)
    as (m & Hm & _ & _ & _ & _ & _ & _ & _ & _ & _ & Htr & Hrows & Htot).
  exists m. split; [done|]. split_and!.
  - intros x symbol. split.
    + intros [y Hy]. by destruct (Htr x symbol y Hy) as (? & ? & _).
    + intros [? ?]. by apply Htot.
  - intros x symbol y Hy. by destruct (Htr x symbol y Hy) as (_ & _ & ?).
  - intros x row Hrow. pose proof (Hrows x row Hrow) as Hne'.
    split; [|done].
    destruct (map_choose row Hne') as (symbol & y & Hy).
    destruct (Htr x symbol y) as (? & _); [|done].
    unfold delta, lookup2. by rewrite Hrow.
Qed.

Lemma minimize_transitions_exact_witness :
  ∃ m, (∀ fuel, (fuel_bound example ≤ fuel)%nat →
          minimize elements fuel example = Ok m) ∧
       (∀ x symbol, is_Some (delta m x symbol) ↔
                    x ∈ states m ∧ symbol ∈ alphabet m) ∧
       (∀ x symbol y, delta m x symbol = Some y → y ∈ states m) ∧
       (∀ x row, transitions m !! x = Some row → x ∈ states m ∧ row ≠ ∅).
Proof.
  apply (minimize_transitions_exact elements example elements_perm).
  - vm_compute. reflexivity.
  - exact example_no_empty_name.
Defined.

(** X18: [minimize] ends on every automaton, valid or not: it returns an
    automaton or raises an exception; it raises [KeyError] when a state
    collected by the traversal has no row in the transitions (a plain
    [dict]). *)
Theorem minimize_ends (iter : gset string → list string) (a : DFA)
    (fuel : nat) :
  (∀ X, iter X ≡ₚ elements X) →
  (size (targets a) ≤ fuel)%nat →
  (size (states a) * size (states a) < fuel)%nat →
  ((∃ m, minimize iter fuel a = Ok m) ∨ (∃ e, minimize iter fuel a = Raise e)) ∧
  (∀ s, collected a s → transitions a !! s = None →
        minimize iter fuel a = Raise KeyError).
Proof.
  intros Hiter Hf1 Hf2. split.
  - pose proof (minimize_no_timeout iter a fuel Hiter Hf1 Hf2) as H.
    destruct (minimize iter fuel a) as [m|e|]; [left|right|done]; eauto.
  - intros s Hs Hnone. unfold minimize, minimize_table.
    destruct (remove_general iter Hiter a fuel Hf1) as [(r & Hr)|[Hr _]].
    + apply (remove_Ok_pruned iter Hiter) in Hr as [_ Hall].
      destruct (Hall s Hs) as [? ?]. congruence.
    + by rewrite Hr.
Qed.

Lemma minimize_ends_witness :
  ((∃ m, minimize elements 5 ex_missing = Ok m) ∨
   (∃ e, minimize elements 5 ex_missing = Raise e)) ∧
  (∀ s, collected ex_missing s → transitions ex_missing !! s = None →
        minimize elements 5 ex_missing = Raise KeyError).
Proof.
  apply (minimize_ends elements ex_missing 5 elements_perm).
  - vm_compute. lia.
  - vm_compute. lia.
Defined.

(** X19: for every automaton that passes validation and in which the
    empty string names no state reached from the start state, other than
    the start state itself, [minimize] returns an automaton that accepts a
    string [w] over the alphabet exactly when the original automaton
    accepts [w]; this includes the empty string. *)
Theorem minimize_preserves_language (iter : gset string → list string)
    (a : DFA) :
  (∀ X, iter X ≡ₚ elements X) →
  (is_valid iter a).1 = true → no_empty_reach a →
  ∃ m, (∀ fuel, (fuel_bound a ≤ fuel)%nat → minimize iter fuel a = Ok m) ∧
       ∀ w, over a w → accepts m w = accepts a w.
Proof.
  intros Hiter Hv%(is_valid_spec iter Hiter) Hne.
  destruct (minimize_total iter Hiter a Hv Hne)
    as (r & ps & m & Hp & Hm & Hps & Htot & Hstart & Hreb).
  exists m. split; [done|]. intros w Hw.
  rewrite <- (pruned_accepts iter Hiter a r w) by done.
  apply (rebuilt_accepts iter Hiter r _ ps Hps Htot Hstart); [done|].
  unfold over. by destruct Hp as (_ & _ & _ & _ & ->).
Qed.

Lemma minimize_preserves_language_witness :
  ∃ m, (∀ fuel, (fuel_bound ex_unreach ≤ fuel)%nat →
          minimize elements fuel ex_unreach = Ok m) ∧
       ∀ w, over ex_unreach w → accepts m w = accepts ex_unreach w.
Proof.
  apply (minimize_preserves_language elements ex_unreach elements_perm).
  - vm_compute. reflexivity.
  - exact ex_unreach_no_empty_reach.
Defined.

(** X20: for every automaton that passes validation, the states of the
    automaton returned by [remove_unreachable_states] are exactly the
    states that the traversal collects: the start state, and the targets
    that are not the empty string of transitions, on symbols of the
    alphabet, from collected states.  When the empty string names no state
    reached from the start state, other than the start state itself, they
    are exactly the states reachable from the start state by some string
    over the alphabet.  The final states of the output are the final states
    of the input among them, its transitions are those of the input
    restricted to them, and its start state and alphabet are unchanged. *)
Theorem prune_correct (iter : gset string → list string) (a : DFA) :
  (∀ X, iter X ≡ₚ elements X) →
  (is_valid iter a).1 = true →
  ∃ r,
    (∀ fuel, (size (states a) ≤ fuel)%nat →
       remove_unreachable_states iter fuel a = Ok r) ∧
    (∀ s, s ∈ states r ↔ collected a s) ∧
    (no_empty_reach a → ∀ s, s ∈ states r ↔ reachable a s) ∧
    final_states r = final_states a ∩ states r ∧
    (∀ s, transitions r !! s =
          if bool_decide (s ∈ states r) then transitions a !! s else None) ∧
    start_state r = start_state a ∧
    alphabet r = alphabet a.
Proof.
  intros Hiter Hv%(is_valid_spec iter Hiter).
  destruct (remove_unreachable_states_spec iter Hiter a Hv)
    as (r & Hr & Hcol & HF & Htr & Hst & Hal).
  exists r. split_and!; try done.
  intros Hne s. rewrite Hcol. symmetry. by apply reachable_collected.
Qed.

Lemma prune_correct_witness :
  ∃ r,
    (∀ fuel, (size (states example) ≤ fuel)%nat →
       remove_unreachable_states elements fuel example = Ok r) ∧
    (∀ s, s ∈ states r ↔ collected example s) ∧
    (no_empty_reach example → ∀ s, s ∈ states r ↔ reachable example s) ∧
    final_states r = final_states example ∩ states r ∧
    (∀ s, transitions r !! s =
          if bool_decide (s ∈ states r) then transitions example !! s
          else None) ∧
    start_state r = start_state example ∧
    alphabet r = alphabet example.
Proof.
  apply (prune_correct elements example elements_perm).
  vm_compute. reflexivity.
Defined.

(** X21: when the closure loop has been left, the grouping step yields
    blocks that are not empty, that are pairwise disjoint, and whose union
    is the state set of the pruned automaton, on which [minimize] works; so
    every such state lies in exactly one block, and no state is put into
    two blocks.  On an automaton that passes validation and in which the
    empty string names no state reached from the start state, other than
    the start state itself, these states are the states reachable from the
    start state. *)
Theorem partition_blocks (iter : gset string → list string) (a : DFA)
    (fuel : nat) (dfa : DFA) (sts : list string) (T : list (list bool)) :
  (∀ X, iter X ≡ₚ elements X) →
  minimize_table iter fuel a = Ok (dfa, sts, T) →
  ∃ partitions,
    group sts T (length sts) = Ok partitions ∧
    (∀ p, p ∈ partitions → p ≠ ∅) ∧
    (∀ k1 k2 p1 p2,
       partitions !! k1 = Some p1 → partitions !! k2 = Some p2 →
       k1 ≠ k2 → p1 ## p2) ∧
    (∀ s, s ∈ states dfa ↔ ∃ p, p ∈ partitions ∧ s ∈ p) ∧
    (∀ s, s ∈ states dfa →
       ∃ k p, partitions !! k = Some p ∧ s ∈ p ∧
              ∀ k' p', partitions !! k' = Some p' → s ∈ p' → k' = k) ∧
    ((is_valid iter a).1 = true → no_empty_reach a →
     ∀ s, s ∈ states dfa ↔ reachable a s).
Proof.
  intros Hiter Hmt.
  destruct (minimize_table_blocks iter Hiter a fuel dfa sts T Hmt)
    as (ps & Hg & Hps).
  apply (minimize_table_Ok iter Hiter) in Hmt as (Hprune & Hsts & _).
  assert (∀ s, s ∈ sts ↔ s ∈ states dfa) as Hmem.
  { intros s. rewrite Hsts. by destruct (sorted_iter iter Hiter (states dfa)). }
  exists ps. split; [done|].
  assert (∀ s, s ∈ states dfa ↔ ∃ p, p ∈ ps ∧ s ∈ p) as Hcover.
  { intros s. rewrite <- Hmem. split.
    - destruct Hps as (_ & Hc & _). apply Hc.
    - intros (p & Hp & Hs). by eapply ps_sub. }
  split_and!.
  - intros p Hp ->. destruct (ps_nonempty dfa sts ps Hps ∅ Hp) as (s & Hs).
    by apply not_elem_of_empty in Hs.
  - by destruct Hps as (_ & _ & ?).
  - done.
  - intros s (p & (k & Hk)%list_elem_of_lookup & Hs)%Hcover.
    exists k, p. split; [done|]. split; [done|].
    intros k' p' Hk' Hs'. destruct (decide (k' = k)) as [|Hne]; [done|].
    destruct Hps as (_ & _ & Hd). by destruct (Hd k' k p' p Hk' Hk Hne s).
  - intros Hv%(is_valid_spec iter Hiter) Hne s.
    destruct (remove_unreachable_states_spec iter Hiter a Hv)
      as (r & Hr & Hcol & _).
    assert (remove_unreachable_states iter fuel a = Ok r) as Hr'.
    { apply (remove_unreachable_states_settled iter a fuel (size (states a)));
        [by rewrite Hprune|by apply Hr]. }
    assert (r = dfa) as -> by congruence.
    rewrite Hcol. symmetry. by apply reachable_collected.
Qed.

Lemma partition_blocks_witness :
  match minimize_table elements 100 example with
  | Ok (dfa, sts, T) =>
    ∃ partitions,
      group sts T (length sts) = Ok partitions ∧
      (∀ p, p ∈ partitions → p ≠ ∅) ∧
      (∀ k1 k2 p1 p2,
         partitions !! k1 = Some p1 → partitions !! k2 = Some p2 →
         k1 ≠ k2 → p1 ## p2) ∧
      (∀ s, s ∈ states dfa ↔ ∃ p, p ∈ partitions ∧ s ∈ p) ∧
      (∀ s, s ∈ states dfa →
         ∃ k p, partitions !! k = Some p ∧ s ∈ p ∧
                ∀ k' p', partitions !! k' = Some p' → s ∈ p' → k' = k) ∧
      ((is_valid elements example).1 = true → no_empty_reach example →
       ∀ s, s ∈ states dfa ↔ reachable example s)
  | _ => False
  end.
Proof.
  destruct (minimize_table elements 100 example) as [[[dfa sts] T]| |] eqn:E.
  - exact (partition_blocks elements example 100 dfa sts T elements_perm E).
  - vm_compute in E. discriminate E.
  - vm_compute in E. discriminate E.
Defined.

(** X22: on an automaton that passes validation and in which the empty
    string names a state reached from the start state, other than the start
    state itself, [minimize] returns no automaton: with fuel for its two
    loops it raises an exception.  Either the closure loop looks up the
    index of the state that pruning dropped, or the rebuild step looks up
    its block. *)
Theorem minimize_fails_on_empty_reach (iter : gset string → list string)
    (a : DFA) :
  (∀ X, iter X ≡ₚ elements X) →
  (is_valid iter a).1 = true → reachable a "" → start_state a ≠ "" →
  (∀ fuel m, minimize iter fuel a ≠ Ok m) ∧
  ∀ fuel, (size (targets a) ≤ fuel)%nat →
          (size (states a) * size (states a) < fuel)%nat →
          ∃ e, minimize iter fuel a = Raise e.
Proof.
  intros Hiter Hv%(is_valid_spec iter Hiter) Hreach Hst.
  assert (∀ fuel m, minimize iter fuel a ≠ Ok m) as Hno.
  { intros fuel m. by apply minimize_empty_reach. }
  split; [done|]. intros fuel Hf1 Hf2.
  pose proof (minimize_no_timeout iter a fuel Hiter Hf1 Hf2) as Hnt.
  specialize (Hno fuel).
  destruct (minimize iter fuel a) as [m|e|]; [by destruct (Hno m)|by eauto|done].
Qed.

Lemma minimize_fails_on_empty_reach_witness :
  (∀ fuel m, minimize elements fuel ex_empty_name ≠ Ok m) ∧
  ∀ fuel, (size (targets ex_empty_name) ≤ fuel)%nat →
          (size (states ex_empty_name) * size (states ex_empty_name) < fuel)%nat →
          ∃ e, minimize elements fuel ex_empty_name = Raise e.
Proof.
  apply (minimize_fails_on_empty_reach elements ex_empty_name elements_perm).
  - vm_compute. reflexivity.
  - exists ["0"]. split; [|vm_compute; reflexivity].
    apply Forall_singleton. apply (bool_decide_unpack _). by vm_compute.
  - discriminate.
Defined.
